(** * Vulnerability-aware hardening of q-gram sets (VAH)

    A shallow embedding of [hardening.py] (the similarity scorer, the
    reference-set generator and the hardener of class [VAH]) and of
    [main.py] (the reader [extract_q_gram_sets], the selection
    [get_q_grams_to_be_hardened] and the program itself), with the
    properties of the design document, and further properties of the
    code, stated and proved over it.

    Modelling conventions.
    - A q-gram is a [string]; a Python [set] of q-grams is a [gset string].
    - A Python [dict] whose iteration order is observed (the databases, the
      reference tables, the frequency map handed to [sorted]) is an
      association list in insertion order with unique keys; the frequency
      ledger, whose order is never observed, is a [gmap string Z].
    - Python integers are unbounded: counts are [Z], indices drawn from
      [range] are [nat].
    - The float returned by the scorer is modelled by the exact rational
      [Q]; for sets of fewer than 2^25 members two distinct quotients
      round to distinct doubles, so [==] and [sorted] agree with [Qeq]
      and [Qle] there.
    - The process-wide generator of module [random] is an explicit state
      threaded through every call; exceptions are the [Raise] outcomes.
    - [print] and [time.time] only report and are left out.
    - A file is the list of the rows [csv.reader] yields from it, a row
      a list of strings; opening the files, parsing the command line
      and writing the output file are outside the model. *)

From Stdlib Require Import QArith.
From stdpp Require Import gmap strings list fin_maps pretty sorting.

Local Open Scope Z_scope.
#[local] Set Warnings "-clear-no-such-hyp".

(** ** Outcomes: Python exceptions *)

Inductive assertion :=
  | dice_range          (* hardening.py:22  *)
  | ref_set_length      (* hardening.py:79  *)
  | table_cardinality   (* hardening.py:101 *)
  | ledger_entry.       (* hardening.py:157 *)

Inductive exn :=
  | ZeroDivisionError
  | IndexError
  | KeyError
  | ValueError
  | TypeError
  | AssertionError (a : assertion)
  | Diverges.           (* a [while] loop that outlived its fuel *)

Inductive result (A : Type) :=
  | Ok (a : A)
  | Raise (e : exn).
Arguments Ok {A} a.
Arguments Raise {A} e.

#[global] Instance result_ret : MRet result := λ A a, Ok a.
#[global] Instance result_bind : MBind result := λ A B f m,
  match m with Ok a => f a | Raise e => Raise e end.

Definition is_ok {A} (r : result A) : bool :=
  match r with Ok _ => true | Raise _ => false end.

(** ** The Python runtime the program runs on

    What the program takes from the interpreter and from module [random]:
    the generator ([random.seed], the [_randbelow] primitive behind
    [randint] and [choice], [random.sample] over a [range], and
    [random.shuffle]) and the order in which a [set] is enumerated. *)

Record Runtime := {
  rng_state : Type;
  rng_seed : Z → rng_state;
  randbelow : nat → rng_state → nat * rng_state;
  sample_range : nat → nat → rng_state → list nat * rng_state;
  shuffle : list nat → rng_state → list nat * rng_state;
  set_iter : gset string → list string;
}.

Record RuntimeOK (W : Runtime) : Prop := {
  randbelow_lt : ∀ n g, (0 < n)%nat → (fst (randbelow W n g) < n)%nat;
  sample_range_NoDup : ∀ n k g, (k ≤ n)%nat → NoDup (fst (sample_range W n k g));
  sample_range_length : ∀ n k g, (k ≤ n)%nat → length (fst (sample_range W n k g)) = k;
  sample_range_lt : ∀ n k g, (k ≤ n)%nat →
    Forall (λ i, (i < n)%nat) (fst (sample_range W n k g));
  shuffle_perm : ∀ l g, fst (shuffle W l g) ≡ₚ l;
  set_iter_perm : ∀ X, set_iter W X ≡ₚ elements X;
}.

(** Computations that use the generator: state passing with exceptions. *)
Definition rand (W : Runtime) (A : Type) : Type :=
  rng_state W → result (A * rng_state W).

#[global] Instance rand_ret W : MRet (rand W) := λ A a g, Ok (a, g).
#[global] Instance rand_bind W : MBind (rand W) := λ A B f m g,
  match m g with Ok (a, g') => f a g' | Raise e => Raise e end.

Definition lift {W A} (r : result A) : rand W A :=
  λ g, match r with Ok a => Ok (a, g) | Raise e => Raise e end.

Definition raise {W A} (e : exn) : rand W A := λ _, Raise e.

(** [random.seed(s)] *)
Definition seed {W} (s : Z) : rand W () := λ _, Ok ((), rng_seed W s).

(** [random.randint(0, n - 1)]: an empty range is a [ValueError]. *)
Definition randint0 {W} (n : nat) : rand W nat := λ g,
  match n with
  | O => Raise ValueError
  | S _ => Ok (randbelow W n g)
  end.

(** [random.choice(l)] is [l[_randbelow(len(l))]]. *)
Definition choice {W} {A} (l : list A) : rand W A := λ g,
  match l with
  | [] => Raise IndexError
  | _ :: _ =>
      let '(j, g') := randbelow W (length l) g in
      match l !! j with
      | Some x => Ok (x, g')
      | None => Raise IndexError
      end
  end.

(** [random.sample(range(0, n), k)] *)
Definition sample {W} (n k : nat) : rand W (list nat) := λ g,
  if decide (k ≤ n)%nat then Ok (sample_range W n k g) else Raise ValueError.

(** [random.shuffle(l)], returning the list shuffled in place. *)
Definition shuffled {W} (l : list nat) : rand W (list nat) := λ g,
  Ok (shuffle W l g).

(** [l.pop()] *)
Definition list_pop {A} (l : list A) : result (A * list A) :=
  match reverse l with
  | [] => Raise IndexError
  | x :: r => Ok (x, reverse r)
  end.

(** ** Dictionaries in insertion order *)

Section dict.
Context {K V : Type} `{EqDecision K}.

Fixpoint dict_get (d : list (K * V)) (k : K) : option V :=
  match d with
  | [] => None
  | (k', v) :: d' => if decide (k' = k) then Some v else dict_get d' k
  end.

(** [d[k] = v]: an existing key keeps its place, a new one goes last. *)
Fixpoint dict_set (d : list (K * V)) (k : K) (v : V) : list (K * V) :=
  match d with
  | [] => [(k, v)]
  | (k', v') :: d' =>
      if decide (k' = k) then (k, v) :: d' else (k', v') :: dict_set d' k v
  end.

End dict.

(** ** The similarity scorer (hardening.py:5-24) *)

Definition q_gram_dice_sim (q_gram_set1 q_gram_set2 : gset string) : result Q :=
  let num_common_q_gram := size (q_gram_set1 ∩ q_gram_set2) in
  let total := (size q_gram_set1 + size q_gram_set2)%nat in
  match total with
  | O => Raise ZeroDivisionError
  | S _ =>
      let sim := (2 * Z.of_nat num_common_q_gram # Pos.of_nat total)%Q in
      if Qle_bool 0 sim && Qle_bool sim 1
      then Ok sim
      else Raise (AssertionError dice_range)
  end.

(** ** Loops *)

(** [for x in l: s = body(s, x)] in a monad. *)
Fixpoint for_each `{MBind M, MRet M} {A S}
    (l : list A) (body : S → A → M S) (s : S) : M S :=
  match l with
  | [] => mret s
  | x :: l' => s' ← body s x; for_each l' body s'
  end.

(** [range(0, stop, step)]: a zero step is a [ValueError], a negative
    one gives the empty range. *)
Definition py_range (stop : nat) (step : Z) : result (list nat) :=
  if decide (step = 0) then Raise ValueError
  else if decide (step < 0) then Ok []
  else
    let n := Z.to_nat step in
    Ok ((λ j, j * n)%nat <$> seq 0 ((stop + n - 1) `div` n)%nat).

(** [l[j]] for a non-negative [j] *)
Definition list_index {A} (l : list A) (j : nat) : result A :=
  match l !! j with
  | Some x => Ok x
  | None => Raise IndexError
  end.

(** [d[k]] *)
Definition dict_index {K V} `{EqDecision K} (d : list (K * V)) (k : K) : result V :=
  match dict_get d k with
  | Some v => Ok v
  | None => Raise KeyError
  end.

(** ** Class [VAH] (hardening.py:27-33) *)

Record VAH := {
  secret_seed : Z;
  vuln_q_grams : gset string;
  non_vuln_q_grams : list string;
  l_r : Z;
  indexed_ref_sets : option (list (string * list (nat * gset string)));
}.

Definition set_indexed_ref_sets (self : VAH)
    (t : list (string * list (nat * gset string))) : VAH :=
  {| secret_seed := secret_seed self;
     vuln_q_grams := vuln_q_grams self;
     non_vuln_q_grams := non_vuln_q_grams self;
     l_r := l_r self;
     indexed_ref_sets := Some t |}.

Section generate.
Context (W : Runtime).

(** *** Co-occurrence pools (hardening.py:50-55) *)

Definition co_occurrence_record (self : VAH)
    (co : list (string * gset string)) (rec : string * gset string) :
    result (list (string * gset string)) :=
  let qs := rec.2 in
  let vuln_qs := qs ∩ vuln_q_grams self in
  if decide (0 < size vuln_qs)%nat then
    for_each (set_iter W vuln_qs) (λ co q_v,
      pool ← dict_index co q_v;
      mret (dict_set co q_v (pool ∪ (qs ∖ {[q_v]})))) co
  else mret co.

Definition co_occurrence_pools (self : VAH)
    (pub_db_q_gram_sets : list (string * gset string)) :
    result (list (string * gset string)) :=
  let vuln_q_gram_co_occurrences :=
    (λ key, (key, ∅ : gset string)) <$> set_iter W (vuln_q_grams self) in
  for_each pub_db_q_gram_sets (co_occurrence_record self)
    vuln_q_gram_co_occurrences.

(** *** The sampler (hardening.py:61-82) *)

(** [while len(qs_r) < l_r: qs_r.add(src[random.randint(0, len(src) - 1)])] *)
Fixpoint pad_until (fuel : nat) (src : list string) (l_r : Z)
    (qs_r : gset string) : rand W (gset string) :=
  if decide (Z.of_nat (size qs_r) < l_r) then
    match fuel with
    | O => raise Diverges
    | S fuel' =>
        j ← randint0 (length src);
        x ← lift (list_index src j);
        pad_until fuel' src l_r (qs_r ∪ {[x]})
    end
  else mret qs_r.

(** hardening.py:70-81: pad the chunk's set [qs_r] if it is short, check
    its size and append it; the state is [qv_qs_r_count] and the list
    [reference_sets[q_v]]. *)
Definition accept_chunk (self : VAH) (fuel : nat)
    (co_occurring_q_grams : list string)
    (st : nat * list (gset string)) (qs_r : gset string) :
    rand W (nat * list (gset string)) :=
  let '(qv_qs_r_count, refs) := st in
  qs_r ←
    (if decide (Z.of_nat (size qs_r) < l_r self ∧ (0 < qv_qs_r_count)%nat) then
       pad_until fuel co_occurring_q_grams (l_r self) qs_r
     else if decide (Z.of_nat (size qs_r) < l_r self ∧ qv_qs_r_count = 0%nat) then
       pad_until fuel (non_vuln_q_grams self) (l_r self) qs_r
     else mret qs_r);
  if decide (Z.of_nat (size qs_r) = l_r self)
  then mret (S qv_qs_r_count, refs ++ [qs_r])
  else raise (AssertionError ref_set_length).

(** One turn of the loop over [range(0, len(co_occurring_q_grams), l_r)]
    (hardening.py:67-81). *)
Definition sample_chunk (self : VAH) (fuel : nat)
    (co_occurring_q_grams : list string)
    (st : nat * list (gset string)) (i : nat) :
    rand W (nat * list (gset string)) :=
  let qs_r : gset string :=
    list_to_set (take (Z.to_nat (l_r self)) (drop i co_occurring_q_grams)) in
  accept_chunk self fuel co_occurring_q_grams st qs_r.

(** The body of the loop over [vuln_q_gram_co_occurrences.items()]; the
    list [reference_sets[q_v]] is filled in place by the source and
    stored here once it is complete. *)
Definition sample_q_v (self : VAH) (fuel : nat)
    (st : list (string * list (gset string)) * nat)
    (entry : string * gset string) :
    rand W (list (string * list (gset string)) * nat) :=
  let '(reference_sets, total_qs_r_count) := st in
  let '(q_v, pool) := entry in
  let co_occurring_q_grams := set_iter W pool in
  starts ← lift (py_range (length co_occurring_q_grams) (l_r self));
  '(qv_qs_r_count, refs) ←
    for_each starts (sample_chunk self fuel co_occurring_q_grams) (0%nat, []);
  mret (dict_set reference_sets q_v refs,
        (total_qs_r_count + qv_qs_r_count)%nat).

(** hardening.py:47-82: the reference sets and [total_qs_r_count]. *)
Definition sample_reference_sets (self : VAH) (fuel : nat)
    (pub_db_q_gram_sets : list (string * gset string)) :
    rand W (list (string * list (gset string)) * nat) :=
  _ ← seed (secret_seed self);
  co ← lift (co_occurrence_pools self pub_db_q_gram_sets);
  for_each co (sample_q_v self fuel) ([], 0%nat).

(** *** The index assigner (hardening.py:89-101) *)

Definition index_ref_set
    (st : list (nat * gset string) * list nat) (ref_set : gset string) :
    result (list (nat * gset string) * list nat) :=
  let '(inner, random_indices) := st in
  '(idx, random_indices') ← list_pop random_indices;
  mret (dict_set inner idx ref_set, random_indices').

Definition index_q_v
    (st : list (string * list (nat * gset string)) * list nat)
    (entry : string * list (gset string)) :
    result (list (string * list (nat * gset string)) * list nat) :=
  let '(indexed_reference_sets, random_indices) := st in
  let '(q_v, ref_sets) := entry in
  '(inner, random_indices') ←
    for_each ref_sets index_ref_set ([], random_indices);
  mret (dict_set indexed_reference_sets q_v inner, random_indices').

Definition index_reference_sets (self : VAH)
    (reference_sets : list (string * list (gset string)))
    (total_qs_r_count : nat) :
    rand W (list (string * list (nat * gset string))) :=
  random_indices ←
    sample (total_qs_r_count * size (vuln_q_grams self)) total_qs_r_count;
  random_indices ← shuffled random_indices;
  '(indexed_reference_sets, _) ←
    lift (for_each reference_sets index_q_v ([], random_indices));
  if decide (length indexed_reference_sets = length reference_sets
             ∧ length reference_sets = size (vuln_q_grams self))
  then mret indexed_reference_sets
  else raise (AssertionError table_cardinality).

(** *** [VAH.generate_reference_sets] (hardening.py:36-103) *)
Definition generate_reference_sets (self : VAH) (fuel : nat)
    (pub_db_q_gram_sets : list (string * gset string)) : rand W VAH :=
  '(reference_sets, total_qs_r_count) ←
    sample_reference_sets self fuel pub_db_q_gram_sets;
  indexed_reference_sets ←
    index_reference_sets self reference_sets total_qs_r_count;
  mret (set_indexed_ref_sets self indexed_reference_sets).

End generate.

(** ** The hardener (hardening.py:106-174) *)

(** [sorted(items, key=lambda item: item[1], reverse=True)]: stable, by
    descending score. *)
Fixpoint insert_desc (x : nat * Q) (l : list (nat * Q)) : list (nat * Q) :=
  match l with
  | [] => [x]
  | y :: l' => if Qle_bool y.2 x.2 then x :: y :: l' else y :: insert_desc x l'
  end.

Definition sorted_desc (l : list (nat * Q)) : list (nat * Q) :=
  foldr insert_desc [] l.

(** hardening.py:137-142: the keys of the leading run of items whose
    value equals [max_value]. *)
Fixpoint max_keys_of (max_value : Q) (sorted_items : list (nat * Q)) : list nat :=
  match sorted_items with
  | [] => []
  | (key, value) :: rest =>
      if Qeq_bool value max_value then key :: max_keys_of max_value rest else []
  end.

(** hardening.py:129-131 *)
Definition score_refs (qs : gset string) (refs : list (nat * gset string)) :
    result (list (nat * Q)) :=
  for_each refs (λ sim_scores '(ref_id, ref_set),
    s ← q_gram_dice_sim qs ref_set;
    mret (dict_set sim_scores ref_id s)) [].

(** [qs.remove(q_v)] *)
Definition set_remove (qs : gset string) (q_v : string) : result (gset string) :=
  if decide (q_v ∈ qs) then Ok (qs ∖ {[q_v]}) else Raise KeyError.

(** hardening.py:151-154 *)
Definition note_mapping (q_v replacement : string)
    (q_gram_to_quali_mapping : list (string * list string)) :
    list (string * list string) :=
  match dict_get q_gram_to_quali_mapping q_v with
  | None => dict_set q_gram_to_quali_mapping q_v [replacement]
  | Some reps =>
      if decide (replacement ∈ reps) then q_gram_to_quali_mapping
      else dict_set q_gram_to_quali_mapping q_v (reps ++ [replacement])
  end.

(** hardening.py:157-164 *)
Definition ledger_move (q_v replacement : string)
    (q_gram_f_dist : gmap string Z) : result (gmap string Z) :=
  match q_gram_f_dist !! q_v with
  | None => Raise (AssertionError ledger_entry)
  | Some c =>
      let d := <[q_v := c - 1]> q_gram_f_dist in
      let d := if decide (c - 1 = 0) then delete q_v d else d in
      let d := if decide (is_Some (d !! replacement)) then d
               else <[replacement := 0]> d in
      match d !! replacement with
      | Some c' => Ok (<[replacement := c' + 1]> d)
      | None => Raise KeyError
      end
  end.

Section harden.
Context (W : Runtime).

(** hardening.py:129-144 *)
Definition choose_qualifier (qs : gset string)
    (refs : list (nat * gset string)) : rand W nat :=
  sim_scores ← lift (score_refs qs refs);
  let sorted_items := sorted_desc sim_scores in
  first ← lift (list_index sorted_items 0);
  let max_value := first.2 in
  let max_keys := max_keys_of max_value sorted_items in
  choice max_keys.

(** The body of the loop over [vuln_qs] (hardening.py:128-164). *)
Definition harden_q_v (self : VAH)
    (st : gset string * gmap string Z * list (string * list string))
    (q_v : string) :
    rand W (gset string * gmap string Z * list (string * list string)) :=
  let '(qs, q_gram_f_dist, q_gram_to_quali_mapping) := st in
  table ← lift (match indexed_ref_sets self with
                | Some t => Ok t
                | None => Raise TypeError
                end);
  refs ← lift (dict_index table q_v);
  qualifier ← choose_qualifier qs refs;
  let replacement := q_v +:+ pretty qualifier in
  qs ← lift (set_remove qs q_v);
  let qs := qs ∪ {[replacement]} in
  let q_gram_to_quali_mapping :=
    note_mapping q_v replacement q_gram_to_quali_mapping in
  q_gram_f_dist ← lift (ledger_move q_v replacement q_gram_f_dist);
  mret (qs, q_gram_f_dist, q_gram_to_quali_mapping).

(** The body of the loop over [data_dict.items()] (hardening.py:124-167). *)
Definition harden_record (self : VAH)
    (st : list (string * gset string) * gmap string Z
          * list (string * list string) * nat)
    (rec : string * gset string) :
    rand W (list (string * gset string) * gmap string Z
            * list (string * list string) * nat) :=
  let '(data_dict, q_gram_f_dist, q_gram_to_quali_mapping, hardened_rec_count) := st in
  let '(rec_id, qs) := rec in
  let vuln_qs := qs ∩ vuln_q_grams self in
  if decide (0 < size vuln_qs)%nat then
    '(qs, q_gram_f_dist, q_gram_to_quali_mapping) ←
      for_each (set_iter W vuln_qs) (harden_q_v self)
        (qs, q_gram_f_dist, q_gram_to_quali_mapping);
    mret (dict_set data_dict rec_id qs, q_gram_f_dist,
          q_gram_to_quali_mapping, S hardened_rec_count)
  else mret st.

(** [VAH.harden_with_vah_ref_sets]: the returned [data_dict] and the
    ledger [q_gram_f_dist] as the call leaves it. *)
Definition harden_with_vah_ref_sets (self : VAH)
    (data_dict : list (string * gset string))
    (q_gram_f_dist : gmap string Z) :
    rand W (list (string * gset string) * gmap string Z) :=
  _ ← seed (secret_seed self);
  '(data_dict, q_gram_f_dist, _, _) ←
    for_each data_dict (harden_record self)
      (data_dict, q_gram_f_dist, [], 0%nat);
  mret (data_dict, q_gram_f_dist).

End harden.

(** ** [get_q_grams_to_be_hardened] (main.py:75-96) *)

(** [sorted(items, key=lambda item: item[1])]: stable, by ascending count. *)
Fixpoint insert_asc (x : string * Z) (l : list (string * Z)) : list (string * Z) :=
  match l with
  | [] => [x]
  | y :: l' => if decide (x.2 ≤ y.2) then x :: y :: l' else y :: insert_asc x l'
  end.

Definition sorted_asc (l : list (string * Z)) : list (string * Z) :=
  foldr insert_asc [] l.

(** [l[start:]]: a negative start counts from the end. *)
Definition slice_from {A} (l : list A) (start : Z) : list A :=
  if decide (start < 0)
  then drop (Z.to_nat (Z.max (Z.of_nat (length l) + start) 0)) l
  else drop (Z.to_nat start) l.

Definition get_q_grams_to_be_hardened (q_gram_dict : list (string * Z))
    (vuln_q_gram_count : Z) : list string * list string :=
  let sorted_q_grams := sorted_asc q_gram_dict in
  let vuln_q_grams := (slice_from sorted_q_grams (- vuln_q_gram_count)).*1 in
  let non_vuln_q_grams := (slice_from sorted_q_grams vuln_q_gram_count).*1 in
  (vuln_q_grams, non_vuln_q_grams).

(** ** A concrete runtime

    A generator whose state is a counter: [_randbelow n] returns the
    counter modulo [n], a sample of [k] out of [range(n)] is the first [k]
    numbers, a shuffle reverses; sets are enumerated in the order of
    [elements]. *)

Definition counter_runtime : Runtime := {|
  rng_state := nat;
  rng_seed := λ s, Z.to_nat (Z.abs s);
  randbelow := λ n g, ((g `mod` n)%nat, S g);
  sample_range := λ n k g, (seq 0 k, S g);
  shuffle := λ l g, (reverse l, S g);
  set_iter := elements;
|}.

(** ** The reader [extract_q_gram_sets] (main.py:10-72)

    The file is taken as the list of the rows [csv.reader] yields; what
    [open] and the parser of [csv] do is outside the model, and so is
    what the function prints.  [str.strip] and [str.lower] are taken from
    the interpreter. *)

Record StrMethods := {
  strip : string → string;
  lower : string → string;
}.

(** How a call of the reader ends: [next] on a file without a line
    raises [StopIteration]. *)
Inductive outcome (A : Type) :=
  | Returns (a : A)
  | Raises (e : exn)
  | RaisesStopIteration.
Arguments Returns {A} a.
Arguments Raises {A} e.
Arguments RaisesStopIteration {A}.

(** [s.replace(' ', '')] *)
Fixpoint remove_spaces (s : string) : string :=
  match s with
  | EmptyString => EmptyString
  | String c s' =>
      if decide (c = Ascii.Space) then remove_spaces s'
      else String c (remove_spaces s')
  end.

(** [l[i]] for an int [i]: a negative index counts from the end. *)
Definition py_index {A} (l : list A) (i : Z) : result A :=
  let j := if decide (i < 0) then i + Z.of_nat (length l) else i in
  if decide (j < 0) then Raise IndexError else list_index l (Z.to_nat j).

(** A bound of a slice of a sequence of [len] items: a negative bound
    counts from the end, and bounds are clipped to the sequence. *)
Definition py_bound (len i : Z) : Z :=
  if decide (i < 0) then Z.max (i + len) 0 else Z.min i len.

(** [s[a:b]] *)
Definition py_slice (s : string) (a b : Z) : string :=
  let len := Z.of_nat (String.length s) in
  let start := py_bound len a in
  let stop := py_bound len b in
  String.substring (Z.to_nat start) (Z.to_nat (stop - start)) s.

(** main.py:57:
    [set([sensitive_value[i:i + q] for i in range(len(sensitive_value) - (q - 1))])] *)
Definition q_grams_of (q : Z) (sensitive_value : string) : gset string :=
  list_to_set
    ((λ i : nat, py_slice sensitive_value (Z.of_nat i) (Z.of_nat i + q))
       <$> seq 0 (Z.to_nat (Z.of_nat (String.length sensitive_value) - (q - 1)))).

Section extract.
Context (W : Runtime) (T : StrMethods).
Context (rec_id_col : Z) (attribute_list : list Z) (q : Z).

(** main.py:34-41: the header line is read and its columns looked up. *)
Definition read_header (csv_reader : list (list string)) :
    outcome (list (list string)) :=
  match csv_reader with
  | [] => RaisesStopIteration
  | header_list :: rest =>
      match
        _ ← py_index header_list rec_id_col;
        for_each attribute_list (λ headers_used attr_num,
          h ← py_index header_list attr_num;
          mret (headers_used ++ [h])) []
      with
      | Ok _ => Returns rest
      | Raise e => Raises e
      end
  end.

(** main.py:54-58: one turn of the loop over the columns of a row. *)
Definition attr_q_grams (rec_list : list string) (qs : gset string)
    (attr_id : nat) : result (gset string) :=
  if decide (Z.of_nat attr_id ∈ attribute_list) then
    v ← list_index rec_list attr_id;
    let sensitive_value := remove_spaces (lower T (strip T v)) in
    let attr_q_gram_set := q_grams_of q sensitive_value in
    mret (qs ∪ attr_q_gram_set)
  else mret qs.

(** main.py:62-64 *)
Definition count_q_gram (q_gram_dict : list (string * Z)) (q_gram : string) :
    result (list (string * Z)) :=
  let q_gram_dict :=
    if decide (q_gram ∈ q_gram_dict.*1) then q_gram_dict
    else dict_set q_gram_dict q_gram 0 in
  c ← dict_index q_gram_dict q_gram;
  mret (dict_set q_gram_dict q_gram (c + 1)).

(** main.py:49-65: one turn of the loop over the rows. *)
Definition read_row
    (st : list (string * gset string) * list (string * Z) * nat)
    (rec_list : list string) :
    result (list (string * gset string) * list (string * Z) * nat) :=
  let '(data_dict, q_gram_dict, rec_num) := st in
  rec_id ← py_index rec_list rec_id_col;
  let rec_id := lower T (strip T rec_id) in
  qs ← for_each (seq 0 (length rec_list)) (attr_q_grams rec_list) ∅;
  let data_dict := dict_set data_dict rec_id qs in
  q_gram_dict ← for_each (set_iter W qs) count_q_gram q_gram_dict;
  mret (data_dict, q_gram_dict, S rec_num).

Definition extract_q_gram_sets (csv_reader : list (list string))
    (has_header : bool) :
    outcome (list (string * gset string) * list (string * Z)) :=
  match (if has_header then read_header csv_reader else Returns csv_reader) with
  | Returns csv_reader =>
      match for_each csv_reader read_row ([], [], 0%nat) with
      | Ok (data_dict, q_gram_dict, _) => Returns (data_dict, q_gram_dict)
      | Raise e => Raises e
      end
  | Raises e => Raises e
  | RaisesStopIteration => RaisesStopIteration
  end.

End extract.

(** ** The program (main.py:99-168)

    The arguments of the command line are taken as parsed and the two
    files as the rows [csv.reader] yields.  The result is the instance
    as the run leaves it and the rows written to the output file after
    the header row: the identifier, the original set and the hardened
    set of each record. *)

Section main.
Context (W : Runtime) (T : StrMethods).

(** main.py:166-167 *)
Definition written_rows
    (data_dict hardened_data_dict : list (string * gset string)) :
    result (list (string * gset string * gset string)) :=
  for_each data_dict (λ rows '(rec_id, og_qs),
    hd_qs ← dict_index hardened_data_dict rec_id;
    mret (rows ++ [(rec_id, og_qs, hd_qs)])) [].

Definition main (fuel : nat) (secret_seed : Z)
    (sensitive_db : list (list string)) (sensitive_db_id_col : Z)
    (sensitive_attribute_cols : list Z) (sensitive_db_has_header : bool)
    (pub_db : list (list string)) (pub_db_id_col : Z)
    (pub_db_attribute_cols : list Z) (pub_db_has_header : bool)
    (ref_set_length : Z) (g : rng_state W) :
    outcome (VAH * list (string * gset string * gset string)) :=
  let q := 2 in
  match extract_q_gram_sets W T sensitive_db_id_col sensitive_attribute_cols q
          sensitive_db sensitive_db_has_header with
  | Returns (data_dict, q_gram_dict) =>
      match extract_q_gram_sets W T pub_db_id_col pub_db_attribute_cols q
              pub_db pub_db_has_header with
      | Returns (pub_data_dict, pub_q_gram_dict) =>
          let n_v := 10 in
          let '(hardened_q_grams, non_freq_q_grams) :=
            get_q_grams_to_be_hardened pub_q_gram_dict n_v in
          let rsh_instance :=
            {| secret_seed := secret_seed;
               vuln_q_grams := list_to_set hardened_q_grams;
               non_vuln_q_grams := non_freq_q_grams;
               l_r := ref_set_length;
               indexed_ref_sets := None |} in
          match
            (rsh_instance ← generate_reference_sets W rsh_instance fuel pub_data_dict;
             '(hardened_data_dict, _) ←
               harden_with_vah_ref_sets W rsh_instance data_dict
                 (list_to_map q_gram_dict);
             rows ← lift (written_rows data_dict hardened_data_dict);
             mret (rsh_instance, rows)) g
          with
          | Ok (r, _) => Returns r
          | Raise e => Raises e
          end
      | Raises e => Raises e
      | RaisesStopIteration => RaisesStopIteration
      end
  | Raises e => Raises e
  | RaisesStopIteration => RaisesStopIteration
  end.

End main.

(** ** Concrete string methods

    [strip] and [lower] on ASCII text: the blanks are the characters 9
    to 13 and 28 to 32, and the letters A to Z are put in lower case. *)

Definition is_blank (c : Ascii.ascii) : bool :=
  let n := Ascii.nat_of_ascii c in
  ((9 <=? n) && (n <=? 13) || (28 <=? n) && (n <=? 32))%nat.

Definition lower_char (c : Ascii.ascii) : Ascii.ascii :=
  let n := Ascii.nat_of_ascii c in
  if ((65 <=? n) && (n <=? 90))%nat then Ascii.ascii_of_nat (n + 32) else c.

Fixpoint lstrip (l : list Ascii.ascii) : list Ascii.ascii :=
  match l with
  | [] => []
  | c :: l' => if is_blank c then lstrip l' else l
  end.

Definition ascii_methods : StrMethods := {|
  strip := λ s,
    String.string_of_list_ascii
      (reverse (lstrip (reverse (lstrip (String.list_ascii_of_string s)))));
  lower := λ s,
    String.string_of_list_ascii (lower_char <$> String.list_ascii_of_string s);
|}.

(** ** Two small files *)

Definition sensitive_file : list (list string) :=
  [ ["id"; "name"]; ["R1"; " Ann Lee "]; ["r2"; "anna"] ].

Definition public_file : list (list string) :=
  [ ["p1"; "hanna"]; ["p2"; "anne"] ].

(** * Specification vocabulary

    The predicates and the functions of the design document that the
    properties below are stated with. *)

(** The score the source computes, as a quotient. *)
Definition dice_quotient (A B : gset string) : Q :=
  (2 * inject_Z (Z.of_nat (size (A ∩ B)))
   / inject_Z (Z.of_nat (size A + size B)))%Q.

(** The total count mass of a ledger. *)
Definition ledger_total (m : gmap string Z) : Z :=
  map_fold (λ _ v acc, v + acc) 0 m.

(** [x] may stand before [y] in a list sorted by descending score. *)
Definition desc (x y : nat * Q) : Prop := (y.2 <= x.2)%Q.

(** [scores] lists, in the order of [refs], each index with the score of
    its reference set against [qs]. *)
Definition scored (qs : gset string) (refs : list (nat * gset string))
    (scores : list (nat * Q)) : Prop :=
  Forall2 (λ r s, r.1 = s.1 ∧ q_gram_dice_sim qs r.2 = Ok s.2) refs scores.

(** The index [id] has a reference set in [refs] whose score against [qs]
    no other reference set of [refs] exceeds. *)
Definition is_maximizer (qs : gset string) (refs : list (nat * gset string))
    (id : nat) : Prop :=
  ∃ r q, (id, r) ∈ refs ∧ q_gram_dice_sim qs r = Ok q
         ∧ ∀ id' r' q', (id', r') ∈ refs → q_gram_dice_sim qs r' = Ok q' →
                        (q' <= q)%Q.

(** [x] is [q_v] qualified by the index of one of its reference sets. *)
Definition qualified_by (self : VAH) (q_v x : string) : Prop :=
  ∃ table refs i,
    indexed_ref_sets self = Some table
    ∧ dict_get table q_v = Some refs
    ∧ i ∈ refs.*1
    ∧ x = q_v +:+ pretty i.

(** [qs'] is [qs] with every vulnerable q-gram replaced by a qualified
    token of it and everything else kept. *)
Definition hardened_record (self : VAH) (qs qs' : gset string) : Prop :=
  (∀ x, x ∈ qs → x ∉ vuln_q_grams self → x ∈ qs')
  ∧ (∀ q_v, q_v ∈ qs → q_v ∈ vuln_q_grams self →
       (q_v ∉ qs') ∧ (∃ x, x ∈ qs' ∧ qualified_by self q_v x))
  ∧ (∀ x, x ∈ qs' →
       (x ∈ qs ∧ x ∉ vuln_q_grams self)
       ∨ ∃ q_v, q_v ∈ qs ∧ q_v ∈ vuln_q_grams self ∧ qualified_by self q_v x).

(** The invariant of the loop over [vuln_qs]: [done] are the vulnerable
    q-grams already replaced in the current set [cur]. *)
Definition replaced_so_far (self : VAH) (qs : gset string)
    (done : list string) (cur : gset string) : Prop :=
  (∀ x, x ∈ qs → x ∉ done → x ∈ cur)
  ∧ (∀ q_v, q_v ∈ done →
       (q_v ∉ cur) ∧ (∃ x, x ∈ cur ∧ qualified_by self q_v x))
  ∧ (∀ x, x ∈ cur →
       (x ∈ qs ∧ x ∉ done) ∨ ∃ q_v, q_v ∈ done ∧ qualified_by self q_v x).

(** What a record's set is after its turn of the loop over the
    database. *)
Definition record_hardened (self : VAH) (rec rec' : string * gset string) : Prop :=
  rec'.1 = rec.1
  ∧ rec'.2 ## vuln_q_grams self
  ∧ hardened_record self rec.2 rec'.2.

(** The exceptions the padding loop can end in. *)
Definition pad_failure (e : exn) : Prop :=
  e = Diverges ∨ e = ValueError ∨ e = IndexError.

(** Every set in [refs] has exactly [l_r] members. *)
Definition all_of_size (l_r : Z) (refs : list (gset string)) : Prop :=
  Forall (λ r, Z.of_nat (size r) = l_r) refs.

(** The number of reference sets in [reference_sets]. *)
Definition ref_set_count {K} (reference_sets : list (K * list (gset string))) : nat :=
  sum_list_with (λ entry, length entry.2) reference_sets.

(** All the indices of a table, in the order they were assigned. *)
Definition table_indices {K} (table : list (K * list (nat * gset string))) : list nat :=
  concat ((λ entry, entry.2.*1) <$> table).

(** Each reference set of [reference_sets] sits in [table] under its
    q-gram, in order, with an index of its own. *)
Definition indexes (reference_sets : list (string * list (gset string)))
    (table : list (string * list (nat * gset string))) : Prop :=
  Forall2 (λ entry indexed, indexed.1 = entry.1 ∧ indexed.2.*2 = entry.2)
    reference_sets table.

(** ** The padding policy in the words of the design document *)

(** Following the design document (section 4.3): a pool is partitioned
    into consecutive chunks of a given size, the last one possibly
    shorter. *)
Fixpoint chunks_go {A} (fuel n : nat) (l : list A) : list (list A) :=
  match fuel, l with
  | S fuel', _ :: _ => take n l :: chunks_go fuel' n (drop n l)
  | _, _ => []
  end.

Definition chunks {A} (n : nat) (l : list A) : list (list A) :=
  chunks_go (length l) n l.

Section policy.
Context (W : Runtime).



End policy.

(** ** The example of the design document (section 8) *)

Definition example_record : gset string := {[ "th"; "er"; "xy" ]}.
Definition example_refs : list (nat * gset string) :=
  [ (4%nat, {[ "he"; "er"; "re" ]}); (9%nat, {[ "in"; "qu"; "zx" ]}) ].
Definition example_ledger : gmap string Z :=
  {[ "th" := 1; "er" := 1; "xy" := 1 ]}.

Definition example_self (s : Z) (nv : list string) (lr : Z) : VAH := {|
  secret_seed := s;
  vuln_q_grams := {[ "th" ]};
  non_vuln_q_grams := nv;
  l_r := lr;
  indexed_ref_sets := Some [("th", example_refs)];
|}.

(** ** A small public database: "th" co-occurs with four q-grams *)

Definition sampler_self : VAH := {|
  secret_seed := 7;
  vuln_q_grams := {[ "th" ]};
  non_vuln_q_grams := ["zz"; "yy"; "ww"];
  l_r := 3;
  indexed_ref_sets := None;
|}.

Definition sampler_public : list (string * gset string) :=
  [ ("p1", {[ "th"; "he"; "er" ]}); ("p2", {[ "th"; "re"; "in" ]}) ].

(** ** Occurrences of a q-gram and what a ledger holds of them *)

(** The number of records of [records] whose set holds [x]. *)
Definition occurrences (x : string) (records : list (string * gset string)) : nat :=
  length (filter (λ rec, x ∈ rec.2) records).

(** The ledger has, for every vulnerable q-gram that occurs in [records],
    a count of at least the number of records it occurs in. *)
Definition ledger_covers (Qv : gset string) (m : gmap string Z)
    (records : list (string * gset string)) : Prop :=
  ∀ q_v, q_v ∈ Qv → (0 < occurrences q_v records)%nat →
    ∃ c, m !! q_v = Some c ∧ Z.of_nat (occurrences q_v records) ≤ c.

(** The entry a ledger has for a q-gram that occurs in [n] records: none
    when it occurs in none. *)
Definition count_entry (n : nat) : option Z :=
  if decide (n = 0%nat) then None else Some (Z.of_nat n).

(** The ledger counts each vulnerable q-gram by the records it occurs
    in. *)
Definition ledger_exact (Qv : gset string) (m : gmap string Z)
    (records : list (string * gset string)) : Prop :=
  ∀ q_v, q_v ∈ Qv → m !! q_v = count_entry (occurrences q_v records).

(** The qualified tokens of the q-grams [l] with the indices [ks]. *)
Definition tokens_of (l : list string) (ks : list nat) : list string :=
  zip_with (λ x k, x +:+ pretty k) l ks.

(** ** The co-occurrence pools and what the sampler makes of them *)

(** The q-grams that occur together with [q_v] in some record of the
    public database. *)
Definition co_occurring (pub_db_q_gram_sets : list (string * gset string))
    (q_v : string) : gset string :=
  ⋃ ((λ rec, if decide (q_v ∈ rec.2) then rec.2 ∖ {[q_v]} else ∅)
       <$> pub_db_q_gram_sets).

(** The number of chunks of [n] members a pool of [a] members is cut
    into. *)
Definition div_up (a n : nat) : nat := ((a + n - 1) `div` n)%nat.

(** [refs] are reference sets made from [pool]: one per chunk, covering
    the pool, with no member from outside it unless the pool is smaller
    than [l_r], when members of the fallback pool fill the set. *)
Definition made_from_pool (self : VAH) (pool : gset string)
    (refs : list (gset string)) : Prop :=
  length refs = div_up (size pool) (Z.to_nat (l_r self))
  ∧ (∀ r x, r ∈ refs → x ∈ r →
       x ∈ pool
       ∨ (x ∈ non_vuln_q_grams self ∧ (size pool < Z.to_nat (l_r self))%nat))
  ∧ (∀ x, x ∈ pool → ∃ r, r ∈ refs ∧ x ∈ r).

(** Ascending order of the counts, the order [sorted] puts the items in. *)
Definition asc (a b : string * Z) : Prop := a.2 ≤ b.2.

(** ** The reader in the words of its documentation *)

(** Row [l] has a column [i], counted from the front or, when [i] is
    negative, from the end. *)
Definition has_col {A} (l : list A) (i : Z) : Prop :=
  - Z.of_nat (length l) ≤ i < Z.of_nat (length l).

(** The characters of a string. *)
Definition chars (s : string) : list Ascii.ascii := String.list_ascii_of_string s.

(** The q-gram set of a row: the q-grams of the values of the columns
    listed in [attribute_list], each value stripped, put in lower case
    and freed of its spaces. *)
Definition row_q_grams (T : StrMethods) (attribute_list : list Z) (q : Z)
    (rec_list : list string) : gset string :=
  ⋃ (imap (λ attr_id v,
             if decide (Z.of_nat attr_id ∈ attribute_list)
             then q_grams_of q (remove_spaces (lower T (strip T v)))
             else ∅) rec_list).

(** The identifier of a row, when the row has the identifier column. *)
Definition row_id (T : StrMethods) (rec_id_col : Z) (rec_list : list string) :
    option string :=
  match py_index rec_list rec_id_col with
  | Ok v => Some (lower T (strip T v))
  | Raise _ => None
  end.

(** The number of the rows whose q-gram set holds [x]. *)
Definition rows_holding (T : StrMethods) (attribute_list : list Z) (q : Z)
    (x : string) (rows : list (list string)) : nat :=
  length (filter (λ rec_list, x ∈ row_q_grams T attribute_list q rec_list) rows).

(** The rows after the header line. *)
Definition data_rows (csv_reader : list (list string)) (has_header : bool) :
    list (list string) :=
  if has_header then tail csv_reader else csv_reader.

(** The record a row gives: its identifier and its q-gram set. *)
Definition row_record (T : StrMethods) (rec_id_col : Z) (attribute_list : list Z)
    (q : Z) (rec_list : list string) : option (string * gset string) :=
  (λ rec_id, (rec_id, row_q_grams T attribute_list q rec_list))
    <$> row_id T rec_id_col rec_list.

(** A dictionary filled with records one after the other: a later record
    replaces an earlier one with the same key, in the earlier one's
    place. *)
Definition dict_of {V} (d : list (string * V)) (recs : list (string * V)) :
    list (string * V) :=
  foldl (λ d rec, dict_set d rec.1 rec.2) d recs.

(** The header line has the identifier column and every column of
    [attribute_list]. *)
Definition header_fits (rec_id_col : Z) (attribute_list : list Z)
    (csv_reader : list (list string)) : Prop :=
  match csv_reader with
  | [] => False
  | header_list :: _ =>
      has_col header_list rec_id_col
      ∧ Forall (has_col header_list) attribute_list
  end.

(** * Properties *)

(** ** The similarity scorer *)

Lemma Zpos_of_nat_S (n : nat) : Z.pos (Pos.of_nat (S n)) = Z.of_nat (S n).
Proof. rewrite <- Pos.of_nat_succ, Zpos_P_of_succ_nat. lia. Qed.

Lemma size_inter_le_l (A B : gset string) : (size (A ∩ B) ≤ size A)%nat.
Proof. apply subseteq_size, intersection_subseteq_l. Qed.

Lemma size_inter_le_r (A B : gset string) : (size (A ∩ B) ≤ size B)%nat.
Proof. apply subseteq_size, intersection_subseteq_r. Qed.

Lemma size_inter_full (A B : gset string) :
  (2 * size (A ∩ B) = size A + size B)%nat ↔ A = B.
Proof.
  split.
  - intros Hsz.
    pose proof (size_inter_le_l A B) as Hl.
    pose proof (size_inter_le_r A B) as Hr.
    assert (A ∩ B = A) as HA.
    { apply set_subseteq_size_eq; [apply intersection_subseteq_l | lia]. }
    assert (A ∩ B = B) as HB.
    { apply set_subseteq_size_eq; [apply intersection_subseteq_r | lia]. }
    congruence.
  - intros ->. replace (B ∩ B) with B by set_solver. lia.
Qed.

Lemma size_inter_zero (A B : gset string) : size (A ∩ B) = 0%nat ↔ A ## B.
Proof. rewrite size_empty_iff. set_solver. Qed.

Lemma size_sum_zero (A B : gset string) :
  (size A + size B = 0)%nat ↔ A = ∅ ∧ B = ∅.
Proof.
  split.
  - intros H. split; apply leibniz_equiv, size_empty_iff; lia.
  - intros [-> ->]. by rewrite size_empty.
Qed.

Lemma q_gram_dice_sim_ok (A B : gset string) :
  (size A + size B ≠ 0)%nat →
  q_gram_dice_sim A B =
    Ok (2 * Z.of_nat (size (A ∩ B)) # Pos.of_nat (size A + size B))%Q.
Proof.
  intros Hne. unfold q_gram_dice_sim.
  pose proof (size_inter_le_l A B) as Hl.
  pose proof (size_inter_le_r A B) as Hr.
  destruct (size A + size B)%nat as [|n] eqn:Hn; [done|].
  assert (Qle_bool 0 (2 * Z.of_nat (size (A ∩ B)) # Pos.of_nat (S n)) = true) as ->.
  { apply Qle_bool_iff. unfold Qle. simpl. lia. }
  assert (Qle_bool (2 * Z.of_nat (size (A ∩ B)) # Pos.of_nat (S n)) 1 = true) as ->.
  { apply Qle_bool_iff. unfold Qle. cbn [Qnum Qden].
    rewrite Zpos_of_nat_S. lia. }
  done.
Qed.

(** C7. For sets [A], [B] that are not both empty [q_gram_dice_sim] returns
    the quotient 2·|A∩B| / (|A|+|B|); the value lies in [0,1], is 1 exactly
    when [A = B] and 0 exactly when [A] and [B] are disjoint. The call
    fails exactly when both sets are empty, and then with a division by
    zero. The scorer is a function of its two arguments alone: it neither
    reads nor changes the generator or any other state. *)
Theorem q_gram_dice_sim_spec (A B : gset string) :
  (A = ∅ ∧ B = ∅ ↔ is_ok (q_gram_dice_sim A B) = false) ∧
  (A = ∅ ∧ B = ∅ → q_gram_dice_sim A B = Raise ZeroDivisionError) ∧
  (¬ (A = ∅ ∧ B = ∅) →
     ∃ q, q_gram_dice_sim A B = Ok q
          ∧ (q == dice_quotient A B)%Q
          ∧ (0 <= q)%Q ∧ (q <= 1)%Q
          ∧ ((q == 1)%Q ↔ A = B)
          ∧ ((q == 0)%Q ↔ A ## B)).
Proof.
  assert (¬ (A = ∅ ∧ B = ∅) →
     ∃ q, q_gram_dice_sim A B = Ok q
          ∧ (q == dice_quotient A B)%Q
          ∧ (0 <= q)%Q ∧ (q <= 1)%Q
          ∧ ((q == 1)%Q ↔ A = B)
          ∧ ((q == 0)%Q ↔ A ## B)) as Hok.
  { intros Hne. rewrite <- size_sum_zero in Hne.
    pose proof (size_inter_le_l A B) as Hl.
    pose proof (size_inter_le_r A B) as Hr.
    eexists. split; [by apply q_gram_dice_sim_ok|].
    destruct (size A + size B)%nat as [|n] eqn:Hn; [done|].
    split; [|split; [|split; [|split]]].
    - unfold dice_quotient. rewrite Hn, Qmake_Qdiv, inject_Z_mult.
      by rewrite Zpos_of_nat_S.
    - unfold Qle. simpl. lia.
    - unfold Qle. cbn [Qnum Qden]. rewrite Zpos_of_nat_S. lia.
    - rewrite <- size_inter_full. unfold Qeq. cbn [Qnum Qden].
      rewrite Zpos_of_nat_S. lia.
    - rewrite <- size_inter_zero. unfold Qeq. cbn [Qnum Qden]. lia. }
  assert (A = ∅ ∧ B = ∅ → q_gram_dice_sim A B = Raise ZeroDivisionError) as Hdiv.
  { intros [-> ->]. done. }
  split; [|split]; [|done..].
  split.
  - intros H. by rewrite (Hdiv H).
  - intros Hfail. destruct (decide (A = ∅ ∧ B = ∅)) as [|Hne]; [done|].
    destruct (Hok Hne) as (q & Hq & _). by rewrite Hq in Hfail.
Qed.

(** ** Reasoning about outcomes and loops *)

Lemma result_bind_ok {A B} (m : result A) (f : A → result B) (b : B) :
  m ≫= f = Ok b ↔ ∃ a, m = Ok a ∧ f a = Ok b.
Proof.
  destruct m as [a|e]; simpl; split.
  - eauto.
  - by intros (? & [= <-] & ?).
  - done.
  - by intros (? & ? & ?).
Qed.

Lemma rand_bind_ok {W A B} (m : rand W A) (f : A → rand W B) g b g2 :
  (m ≫= f) g = Ok (b, g2) ↔ ∃ a g1, m g = Ok (a, g1) ∧ f a g1 = Ok (b, g2).
Proof.
  unfold mbind, rand_bind. destruct (m g) as [[a g1]|e]; split.
  - eauto.
  - by intros (? & ? & [= <- <-] & ?).
  - done.
  - by intros (? & ? & ? & ?).
Qed.

Lemma lift_ok {W A} (r : result A) (g : rng_state W) a g' :
  lift r g = Ok (a, g') ↔ r = Ok a ∧ g' = g.
Proof.
  unfold lift. destruct r; split; intros H; try done.
  - by injection H as -> ->.
  - by destruct H as [[= ->] ->].
  - by destruct H.
Qed.

Lemma rand_ret_ok {W A} (a b : A) (g g' : rng_state W) :
  mret (M := rand W) a g = Ok (b, g') ↔ a = b ∧ g = g'.
Proof. unfold mret, rand_ret. split; [by intros [= -> ->] | by intros [-> ->]]. Qed.

(** Split a successful run of a sequence of binds into its steps. *)
Ltac ok_steps H :=
  repeat first
    [ apply rand_bind_ok in H as (? & ? & ? & H)
    | apply result_bind_ok in H as (? & ? & H) ].

(** A loop invariant indexed by the elements already visited. *)
Lemma for_each_rand_ind {W A S} (P : list A → S → Prop)
    (body : S → A → rand W S) (l : list A) s g s' g' :
  P [] s →
  (∀ pre x post s g s' g',
     l = pre ++ x :: post → P pre s → body s x g = Ok (s', g') →
     P (pre ++ [x]) s') →
  for_each l body s g = Ok (s', g') →
  P l s'.
Proof.
  intros Hinit Hstep.
  cut (∀ post pre s g, l = pre ++ post → P pre s →
         for_each post body s g = Ok (s', g') → P l s').
  { intros Hcut. by apply (Hcut l [] s g). }
  induction post as [|x post IH]; intros pre s0 g0 Hl HP Hrun.
  - apply rand_ret_ok in Hrun as [-> _]. by rewrite Hl, app_nil_r.
  - cbn [for_each] in Hrun. apply rand_bind_ok in Hrun as (s1 & g1 & Hb & Hrun).
    apply (IH (pre ++ [x]) s1 g1); [by rewrite <- app_assoc | | done].
    by eapply Hstep.
Qed.

Lemma for_each_result_ind {A S} (P : list A → S → Prop)
    (body : S → A → result S) (l : list A) s s' :
  P [] s →
  (∀ pre x post s s',
     l = pre ++ x :: post → P pre s → body s x = Ok s' → P (pre ++ [x]) s') →
  for_each l body s = Ok s' →
  P l s'.
Proof.
  intros Hinit Hstep.
  cut (∀ post pre s, l = pre ++ post → P pre s →
         for_each post body s = Ok s' → P l s').
  { intros Hcut. by apply (Hcut l [] s). }
  induction post as [|x post IH]; intros pre s0 Hl HP Hrun.
  - injection Hrun as ->. by rewrite Hl, app_nil_r.
  - cbn [for_each] in Hrun. apply result_bind_ok in Hrun as (s1 & Hb & Hrun).
    apply (IH (pre ++ [x]) s1); [by rewrite <- app_assoc | | done].
    by eapply Hstep.
Qed.

(** ** Strings and qualified tokens *)

Lemma string_length_app (s t : string) :
  String.length (s +:+ t) = (String.length s + String.length t)%nat.
Proof. induction s as [|c s IH]; simpl; [done | by rewrite IH]. Qed.

Lemma pretty_N_go_length (x : N) (s : string) :
  (String.length s ≤ String.length (pretty_N_go x s))%nat.
Proof.
  revert s. induction (N.lt_wf_0 x) as [x _ IH]; intros s.
  destruct (decide (x = 0)%N) as [->|Hx]; [by rewrite pretty_N_go_0|].
  rewrite pretty_N_go_step by lia.
  etrans; [|apply IH; apply N.div_lt; lia]. simpl. lia.
Qed.

Lemma pretty_nat_length (n : nat) : (1 ≤ String.length (pretty n))%nat.
Proof.
  unfold pretty, pretty_nat, pretty, pretty_N.
  destruct (decide (N.of_nat n = 0)%N) as [|Hn]; [simpl; lia|].
  rewrite pretty_N_go_step by lia.
  etrans; [|apply pretty_N_go_length]. simpl. lia.
Qed.

(** A qualified token is strictly longer than the q-gram it qualifies. *)
Lemma qualified_length (q_v : string) (qualifier : nat) :
  (String.length q_v < String.length (q_v +:+ pretty qualifier))%nat.
Proof.
  rewrite string_length_app. pose proof (pretty_nat_length qualifier). lia.
Qed.

Lemma qualified_ne (q_v : string) (qualifier : nat) :
  q_v +:+ pretty qualifier ≠ q_v.
Proof.
  intros Heq. pose proof (qualified_length q_v qualifier) as Hlt.
  rewrite Heq in Hlt. lia.
Qed.

(** ** The frequency ledger *)

Lemma ledger_total_insert (m : gmap string Z) k v :
  m !! k = None → ledger_total (<[k:=v]> m) = v + ledger_total m.
Proof.
  intros Hk. unfold ledger_total.
  rewrite map_fold_insert_L; [done | intros; lia | done].
Qed.

Lemma ledger_total_delete (m : gmap string Z) k v :
  m !! k = Some v → ledger_total (delete k m) = ledger_total m - v.
Proof.
  intros Hk. unfold ledger_total.
  rewrite (map_fold_delete_L _ _ k v m); [lia | intros; lia | done].
Qed.

Lemma ledger_total_update (m : gmap string Z) k v v' :
  m !! k = Some v → ledger_total (<[k:=v']> m) = ledger_total m - v + v'.
Proof.
  intros Hk. rewrite <- insert_delete_eq.
  rewrite ledger_total_insert by apply lookup_delete_eq.
  rewrite (ledger_total_delete m k v) by done. lia.
Qed.

(** What one substitution does to the ledger. *)
Lemma ledger_move_spec (q_v replacement : string) (m m' : gmap string Z) :
  replacement ≠ q_v →
  ledger_move q_v replacement m = Ok m' →
  ∃ c, m !! q_v = Some c
       ∧ m' !! q_v = (if decide (c - 1 = 0) then None else Some (c - 1))
       ∧ m' !! replacement = Some (default 0 (m !! replacement) + 1)
       ∧ (∀ k, k ≠ q_v → k ≠ replacement → m' !! k = m !! k)
       ∧ ledger_total m' = ledger_total m.
Proof.
  intros Hne Hmove. unfold ledger_move in Hmove.
  destruct (m !! q_v) as [c|] eqn:Hc; [|done].
  exists c. split; [done|].
  set (d1 := if decide (c - 1 = 0) then delete q_v (<[q_v:=c - 1]> m)
             else <[q_v:=c - 1]> m) in *.
  assert (d1 !! q_v = (if decide (c - 1 = 0) then None else Some (c - 1))) as Hd1q.
  { unfold d1. destruct (decide (c - 1 = 0));
      [apply lookup_delete_eq | apply lookup_insert_eq]. }
  assert (∀ k, k ≠ q_v → d1 !! k = m !! k) as Hd1o.
  { intros k Hk. unfold d1. destruct (decide (c - 1 = 0)).
    - by rewrite lookup_delete_ne, lookup_insert_ne.
    - by rewrite lookup_insert_ne. }
  assert (ledger_total d1 = ledger_total m - 1) as Hd1t.
  { unfold d1. destruct (decide (c - 1 = 0)) as [Hz|Hz].
    - rewrite delete_insert_eq, (ledger_total_delete m q_v c) by done. lia.
    - rewrite (ledger_total_update m q_v c) by done. lia. }
  clearbody d1.
  destruct (decide (is_Some (d1 !! replacement))) as [[c' Hc']|Hnone].
  - rewrite Hc' in Hmove. injection Hmove as <-.
    rewrite <- (Hd1o replacement), Hc' by done. simpl.
    split; [by rewrite lookup_insert_ne|].
    split; [by rewrite lookup_insert_eq|].
    split; [intros k ??; by rewrite lookup_insert_ne, Hd1o|].
    rewrite (ledger_total_update d1 replacement c') by done. lia.
  - rewrite lookup_insert_eq in Hmove. injection Hmove as <-.
    apply eq_None_not_Some in Hnone.
    rewrite <- (Hd1o replacement), Hnone by done. simpl.
    split; [by rewrite !lookup_insert_ne|].
    split; [by rewrite lookup_insert_eq|].
    split; [intros k ??; by rewrite !lookup_insert_ne, Hd1o|].
    rewrite insert_insert_eq, ledger_total_insert by done. lia.
Qed.

Lemma harden_q_v_total W self qs m mp q_v g qs' m' mp' g' :
  harden_q_v W self (qs, m, mp) q_v g = Ok ((qs', m', mp'), g') →
  ledger_total m' = ledger_total m.
Proof.
  intros Hrun. unfold harden_q_v in Hrun. ok_steps Hrun.
  apply rand_ret_ok in Hrun as [[= <- <- <-] _].
  match goal with H : lift (ledger_move _ _ _) _ = _ |- _ =>
    apply lift_ok in H as [H _];
    apply ledger_move_spec in H as (c & _ & _ & _ & _ & Ht);
      [done | apply qualified_ne] end.
Qed.

Lemma harden_record_total W self data m mp n rec g data' m' mp' n' g' :
  harden_record W self (data, m, mp, n) rec g = Ok ((data', m', mp', n'), g') →
  ledger_total m' = ledger_total m.
Proof.
  intros Hrun. unfold harden_record in Hrun. destruct rec as [rec_id qs].
  case_decide.
  - apply rand_bind_ok in Hrun as ([[qs1 m1] mp1] & g1 & Hloop & Hret).
    apply rand_ret_ok in Hret as [[= <- <- <- <-] _].
    apply (for_each_rand_ind
             (λ _ (st : gset string * gmap string Z * list (string * list string)),
                ledger_total st.1.2 = ledger_total m)) in Hloop; [done..|].
    intros _ q_v _ [[qs2 m2] mp2] g2 [[qs3 m3] mp3] g3 _ HP Hstep. simpl in *.
    rewrite <- HP. by eapply harden_q_v_total.
  - by apply rand_ret_ok in Hrun as [[= <- <- <- <-] _].
Qed.

(** C2. A hardening run that completes leaves the total of the ledger's
    values unchanged; and one substitution decrements the count of the
    vulnerable q-gram by one, dropping the entry exactly when that makes it
    zero, increments the count of the qualified token by one (from zero
    when it had no entry), and touches no other entry. *)
Theorem harden_conserves_ledger_total :
  (∀ W self data_dict q_gram_f_dist g data_dict' q_gram_f_dist' g',
     harden_with_vah_ref_sets W self data_dict q_gram_f_dist g
       = Ok ((data_dict', q_gram_f_dist'), g') →
     ledger_total q_gram_f_dist' = ledger_total q_gram_f_dist) ∧
  (∀ q_v (qualifier : nat) (m m' : gmap string Z),
     let replacement := q_v +:+ pretty qualifier in
     ledger_move q_v replacement m = Ok m' →
     ∃ c, m !! q_v = Some c
          ∧ m' !! q_v = (if decide (c - 1 = 0) then None else Some (c - 1))
          ∧ m' !! replacement = Some (default 0 (m !! replacement) + 1)
          ∧ ∀ k, k ≠ q_v → k ≠ replacement → m' !! k = m !! k).
Proof.
  split.
  - intros W self data m g data' m' g' Hrun.
    unfold harden_with_vah_ref_sets in Hrun.
    apply rand_bind_ok in Hrun as ([] & g0 & _ & Hrun).
    apply rand_bind_ok in Hrun as ([[[d1 m1] mp1] n1] & g1 & Hloop & Hret).
    apply rand_ret_ok in Hret as [[= <- <-] _].
    apply (for_each_rand_ind
             (λ _ (st : list (string * gset string) * gmap string Z
                        * list (string * list string) * nat),
                ledger_total st.1.1.2 = ledger_total m)) in Hloop; [done..|].
    intros _ rec _ [[[d2 m2] mp2] n2] g2 [[[d3 m3] mp3] n3] g3 _ HP Hstep.
    simpl in *. rewrite <- HP. by eapply harden_record_total.
  - intros q_v qualifier m m' replacement Hmove.
    apply ledger_move_spec in Hmove as (c & ? & ? & ? & ? & _);
      [by exists c | apply qualified_ne].
Qed.

(** ** Sorting by score and the run of maximal items *)

Lemma insert_desc_perm (x : nat * Q) (l : list (nat * Q)) :
  insert_desc x l ≡ₚ x :: l.
Proof.
  induction l as [|y l IH]; simpl; [done|].
  destruct (Qle_bool y.2 x.2); [done|].
  rewrite IH. apply Permutation_swap.
Qed.

Lemma sorted_desc_perm (l : list (nat * Q)) : sorted_desc l ≡ₚ l.
Proof.
  induction l as [|x l IH]; simpl; [done|].
  by rewrite insert_desc_perm, IH.
Qed.

Lemma insert_desc_sorted (x : nat * Q) (l : list (nat * Q)) :
  StronglySorted desc l → StronglySorted desc (insert_desc x l).
Proof.
  induction l as [|y l IH]; intros Hs; simpl.
  - repeat constructor.
  - apply StronglySorted_cons in Hs as [Hy Hl].
    destruct (Qle_bool y.2 x.2) eqn:Hle.
    + apply Qle_bool_iff in Hle.
      apply StronglySorted_cons. split.
      * constructor; [done|].
        eapply Forall_impl; [exact Hy|]. intros z Hz. unfold desc in *.
        eapply Qle_trans; [exact Hz | exact Hle].
      * by apply StronglySorted_cons.
    + apply StronglySorted_cons. split; [|by apply IH].
      rewrite insert_desc_perm. constructor; [|done].
      unfold desc. apply Qlt_le_weak, Qnot_le_lt.
      intros Hc. apply Qle_bool_iff in Hc. congruence.
Qed.

Lemma sorted_desc_sorted (l : list (nat * Q)) : StronglySorted desc (sorted_desc l).
Proof.
  induction l as [|x l IH]; simpl; [constructor | by apply insert_desc_sorted].
Qed.

(** In a list sorted by descending score whose scores are bounded by
    [max_value], the leading run of items equal to [max_value] holds every
    item of that score. *)
Lemma max_keys_of_elem (max_value : Q) (l : list (nat * Q)) (key : nat) :
  StronglySorted desc l →
  Forall (λ it, (it.2 <= max_value)%Q) l →
  key ∈ max_keys_of max_value l ↔ ∃ q, (key, q) ∈ l ∧ (q == max_value)%Q.
Proof.
  induction l as [|[k v] l IH]; intros Hs Hb; simpl.
  - split; [by intros ?%elem_of_nil | by intros (? & ?%elem_of_nil & _)].
  - apply StronglySorted_cons in Hs as [Hhd Hs].
    apply Forall_cons in Hb as [Hv Hb].
    destruct (Qeq_bool v max_value) eqn:Heq.
    + apply Qeq_bool_iff in Heq. rewrite elem_of_cons, IH by done.
      split.
      * intros [->|(q & Hin & Hq)]; [exists v | exists q];
          (split; [|done]); [left | by right].
      * intros (q & [[= -> ->]|Hin]%elem_of_cons & Hq); [by left|].
        right. eauto.
    + split; [by intros ?%elem_of_nil|].
      intros (q & [[= -> ->]|Hin]%elem_of_cons & Hq).
      * apply Qeq_bool_iff in Hq. congruence.
      * rewrite Forall_forall in Hhd. specialize (Hhd _ Hin).
        unfold desc in Hhd. simpl in Hhd.
        assert (v == max_value)%Q as Hvm.
        { apply Qle_antisym; [done|]. by rewrite <- Hq. }
        apply Qeq_bool_iff in Hvm. congruence.
Qed.

Lemma max_keys_of_sublist (max_value : Q) (l : list (nat * Q)) :
  max_keys_of max_value l `sublist_of` l.*1.
Proof.
  induction l as [|[k v] l IH]; simpl; [done|].
  destruct (Qeq_bool v max_value); [by apply sublist_skip|].
  apply sublist_nil_l.
Qed.

(** ** Dictionaries *)

Section dict_facts.
Context {K V : Type} `{EqDecision K}.
Implicit Types (d : list (K * V)) (k : K) (v : V).

Lemma dict_set_fresh d k v : k ∉ d.*1 → dict_set d k v = d ++ [(k, v)].
Proof.
  induction d as [|[k' v'] d IH]; simpl; [done|].
  intros Hnin. apply not_elem_of_cons in Hnin as [Hne Hnin].
  destruct (decide (k' = k)); [congruence|]. by rewrite IH.
Qed.

Lemma dict_set_keys d k v :
  (dict_set d k v).*1 = if decide (k ∈ d.*1) then d.*1 else d.*1 ++ [k].
Proof.
  induction d as [|[k' v'] d IH].
  - by destruct (decide (k ∈ [])) as [?%elem_of_nil|].
  - cbn [dict_set]. destruct (decide (k' = k)) as [->|Hne];
      rewrite !fmap_cons; cbn [fst].
    + by rewrite decide_True by left.
    + rewrite IH. destruct (decide (k ∈ d.*1)) as [Hin|Hnin].
      * by rewrite decide_True by (by right).
      * rewrite decide_False; [done|].
        intros [?|?]%elem_of_cons; congruence.
Qed.

Lemma dict_set_length d k v :
  length (dict_set d k v) = if decide (k ∈ d.*1) then length d else S (length d).
Proof.
  rewrite <- (length_fmap fst), dict_set_keys.
  destruct (decide (k ∈ d.*1)); rewrite ?length_app, length_fmap; simpl; lia.
Qed.

Lemma dict_set_middle (pre post : list (K * V)) k v v' :
  k ∉ pre.*1 → dict_set (pre ++ (k, v) :: post) k v' = pre ++ (k, v') :: post.
Proof.
  induction pre as [|[k0 v0] pre IH]; simpl.
  - intros _. by rewrite decide_True.
  - intros Hnin. apply not_elem_of_cons in Hnin as [Hne Hnin].
    destruct (decide (k0 = k)); [congruence|]. by rewrite IH.
Qed.

Lemma dict_get_elem_of d k v : dict_get d k = Some v → (k, v) ∈ d.
Proof.
  induction d as [|[k' v'] d IH]; simpl; [done|].
  destruct (decide (k' = k)) as [->|Hne].
  - intros [= ->]. left.
  - intros H. right. by apply IH.
Qed.

Lemma dict_get_NoDup d k v : NoDup d.*1 → (k, v) ∈ d → dict_get d k = Some v.
Proof.
  induction d as [|[k' v'] d IH]; simpl; [by intros _ ?%elem_of_nil|].
  intros [Hnin Hnd]%NoDup_cons [[= -> ->]|Hin]%elem_of_cons.
  - by rewrite decide_True.
  - destruct (decide (k' = k)) as [->|Hne]; [|by apply IH].
    destruct Hnin. apply list_elem_of_fmap. by exists (k, v).
Qed.
End dict_facts.

(** ** Choosing the qualifier *)

Lemma Forall2_elem_of_l {A B} (P : A → B → Prop) l k x :
  Forall2 P l k → x ∈ l → ∃ y, y ∈ k ∧ P x y.
Proof.
  intros HF [i Hi]%list_elem_of_lookup.
  destruct (Forall2_lookup_l _ _ _ _ _ HF Hi) as (y & Hy & HP).
  exists y. split; [|done]. apply list_elem_of_lookup. eauto.
Qed.

Lemma Forall2_elem_of_r {A B} (P : A → B → Prop) l k y :
  Forall2 P l k → y ∈ k → ∃ x, x ∈ l ∧ P x y.
Proof.
  intros HF [i Hi]%list_elem_of_lookup.
  destruct (Forall2_lookup_r _ _ _ _ _ HF Hi) as (x & Hx & HP).
  exists x. split; [|done]. apply list_elem_of_lookup. eauto.
Qed.

Lemma scored_keys qs refs scores : scored qs refs scores → scores.*1 = refs.*1.
Proof.
  induction 1 as [|[i r] [j s] refs scores [Hk _] _ IH]; [done|].
  rewrite !fmap_cons. simpl in *. by rewrite IH, Hk.
Qed.

Lemma score_refs_scored qs refs scores :
  NoDup refs.*1 → score_refs qs refs = Ok scores → scored qs refs scores.
Proof.
  intros Hnd Hrun. unfold score_refs in Hrun.
  apply (for_each_result_ind (λ pre st, scored qs pre st)) in Hrun;
    [done | constructor |].
  intros pre [ref_id ref_set] post st st' Hl HP Hbody.
  apply result_bind_ok in Hbody as (q & Hq & [= <-]).
  rewrite dict_set_fresh.
  - apply Forall2_app; [done|]. by repeat constructor.
  - rewrite (scored_keys _ _ _ HP).
    rewrite Hl, fmap_app, fmap_cons in Hnd.
    apply NoDup_app in Hnd as (_ & Hnd & _).
    intros Hin. apply (Hnd _ Hin). left.
Qed.

Lemma score_refs_keys qs refs scores :
  score_refs qs refs = Ok scores → scores.*1 ⊆ refs.*1.
Proof.
  intros Hrun. unfold score_refs in Hrun.
  apply (for_each_result_ind
           (λ (pre : list (nat * gset string)) (st : list (nat * Q)),
              st.*1 ⊆ pre.*1)) in Hrun; [done | done |].
  intros pre [ref_id ref_set] post st st' Hl HP Hbody.
  apply result_bind_ok in Hbody as (q & Hq & [= <-]).
  rewrite dict_set_keys, fmap_app. simpl.
  destruct (decide (ref_id ∈ st.*1)); set_solver.
Qed.

Lemma score_refs_total qs refs :
  qs ≠ ∅ → ∃ scores, score_refs qs refs = Ok scores ∧ (refs ≠ [] → scores ≠ []).
Proof.
  intros Hqs. unfold score_refs.
  cut (∀ acc : list (nat * Q), ∃ scores,
         for_each refs (λ sim_scores '(ref_id, ref_set),
           s ← q_gram_dice_sim qs ref_set;
           mret (dict_set sim_scores ref_id s)) acc = Ok scores
         ∧ (acc ≠ [] ∨ refs ≠ [] → scores ≠ [])).
  { intros Hcut. destruct (Hcut []) as (scores & Hrun & Hne).
    exists scores. split; [done|]. intros ?. apply Hne. by right. }
  induction refs as [|[ref_id ref_set] refs IH]; intros acc.
  - exists acc. split; [done|]. by intros [?|?].
  - cbn [for_each]. rewrite q_gram_dice_sim_ok.
    + simpl. destruct (IH (dict_set acc ref_id
        (2 * Z.of_nat (size (qs ∩ ref_set)) # Pos.of_nat (size qs + size ref_set))%Q))
        as (scores & Hrun & Hne).
      exists scores. split; [done|]. intros _. apply Hne. left.
      intros Hnil. apply (f_equal length) in Hnil.
      rewrite dict_set_length in Hnil. case_decide; simpl in *; [|lia].
      destruct acc; [by apply elem_of_nil in H | done].
    + intros Hz. apply size_sum_zero in Hz as [? _]. done.
Qed.

Lemma max_keys_are_maximizers qs refs scores first rest :
  scored qs refs scores →
  sorted_desc scores = first :: rest →
  ∀ id, id ∈ max_keys_of first.2 (sorted_desc scores) ↔ is_maximizer qs refs id.
Proof.
  intros Hsc Hsorted id.
  pose proof (sorted_desc_sorted scores) as Hss.
  pose proof (sorted_desc_perm scores) as Hperm.
  assert (Forall (λ it : nat * Q, (it.2 <= first.2)%Q) (sorted_desc scores)) as Hb.
  { rewrite Hsorted in *. apply StronglySorted_cons in Hss as [Hhd _].
    constructor; [apply Qle_refl | done]. }
  rewrite max_keys_of_elem by done. rewrite Forall_forall in Hb.
  assert (first ∈ scores) as Hfirst.
  { rewrite <- Hperm, Hsorted. left. }
  split.
  - intros (q & Hin & Hq). rewrite Hperm in Hin.
    destruct (Forall2_elem_of_r _ _ _ _ Hsc Hin) as ([id0 r] & Hr & Hk & Hd).
    simpl in *. subst id0. exists r, q. split; [done|]. split; [done|].
    intros id' r' q' Hin' Hd'.
    destruct (Forall2_elem_of_l _ _ _ _ Hsc Hin') as (s & Hs & _ & Hds).
    simpl in Hds. rewrite Hd' in Hds. injection Hds as ->.
    rewrite Hq. apply Hb. by rewrite Hperm.
  - intros (r & q & Hin & Hd & Hmax).
    destruct (Forall2_elem_of_l _ _ _ _ Hsc Hin) as ([id0 q0] & Hs & Hk & Hds).
    simpl in *. subst id0. rewrite Hd in Hds. injection Hds as <-.
    exists q. split; [by rewrite Hperm|].
    apply Qle_antisym.
    + apply (Hb (id, q)). by rewrite Hperm.
    + destruct (Forall2_elem_of_r _ _ _ _ Hsc Hfirst) as ([id1 r1] & Hr1 & _ & Hd1).
      by eapply Hmax.
Qed.

Lemma choice_ok {W A} (l : list A) (g : rng_state W) x g' :
  choice l g = Ok (x, g') ↔
  l ≠ [] ∧ l !! (randbelow W (length l) g).1 = Some x
  ∧ g' = (randbelow W (length l) g).2.
Proof.
  unfold choice. destruct l as [|a l]; [by split; [|intros [? _]]|].
  destruct (randbelow W (length (a :: l)) g) as [j g1]. simpl.
  destruct ((a :: l) !! j) as [y|]; split.
  - by intros [= -> ->].
  - by intros (_ & [= ->] & ->).
  - done.
  - by intros (_ & ? & _).
Qed.

Lemma choose_qualifier_ok W qs refs g qualifier g' :
  choose_qualifier W qs refs g = Ok (qualifier, g') ↔
  ∃ scores first rest,
    score_refs qs refs = Ok scores
    ∧ sorted_desc scores = first :: rest
    ∧ choice (max_keys_of first.2 (sorted_desc scores)) g = Ok (qualifier, g').
Proof.
  unfold choose_qualifier. split.
  - intros Hrun.
    apply rand_bind_ok in Hrun as (scores & g1 & [Hsc ->]%lift_ok & Hrun).
    apply rand_bind_ok in Hrun as (first & g2 & [Hidx ->]%lift_ok & Hrun).
    unfold list_index in Hidx.
    destruct (sorted_desc scores) as [|first' rest] eqn:Hsorted; [done|].
    injection Hidx as ->. exists scores, first, rest. by rewrite Hsorted.
  - intros (scores & first & rest & Hsc & Hsorted & Hch).
    apply rand_bind_ok. exists scores, g. split; [by apply lift_ok|].
    apply rand_bind_ok. exists first, g. split; [|done].
    apply lift_ok. by rewrite Hsorted.
Qed.

Lemma choose_qualifier_spec W qs refs g qualifier g' :
  NoDup refs.*1 →
  choose_qualifier W qs refs g = Ok (qualifier, g') →
  ∃ max_keys,
    (∀ id, id ∈ max_keys ↔ is_maximizer qs refs id)
    ∧ NoDup max_keys
    ∧ max_keys !! (randbelow W (length max_keys) g).1 = Some qualifier
    ∧ g' = (randbelow W (length max_keys) g).2.
Proof.
  intros Hnd (scores & first & rest & Hsc & Hsorted & Hch)%choose_qualifier_ok.
  apply score_refs_scored in Hsc; [|done].
  apply choice_ok in Hch as (_ & Hpick & ->).
  exists (max_keys_of first.2 (sorted_desc scores)).
  split; [by eapply max_keys_are_maximizers|]. split; [|done].
  eapply sublist_NoDup; [|apply max_keys_of_sublist].
  by rewrite sorted_desc_perm, (scored_keys _ _ _ Hsc).
Qed.

Lemma choose_qualifier_total W qs refs g :
  RuntimeOK W → qs ≠ ∅ → refs ≠ [] →
  ∃ qualifier g', choose_qualifier W qs refs g = Ok (qualifier, g').
Proof.
  intros HW Hqs Hrefs.
  destruct (score_refs_total qs refs Hqs) as (scores & Hsc & Hne).
  specialize (Hne Hrefs).
  destruct (sorted_desc scores) as [|[k v] rest] eqn:Hsorted.
  { pose proof (sorted_desc_perm scores) as Hperm. rewrite Hsorted in Hperm.
    by apply Permutation_nil_l in Hperm. }
  set (max_keys := max_keys_of v (sorted_desc scores)).
  assert (max_keys ≠ []) as Hmk.
  { unfold max_keys. rewrite Hsorted. simpl.
    by rewrite (proj2 (Qeq_bool_iff v v) (Qeq_refl v)). }
  assert (0 < length max_keys)%nat as Hlen by (destruct max_keys; simpl; [done|lia]).
  destruct (lookup_lt_is_Some_2 max_keys _ (randbelow_lt W HW _ g Hlen))
    as [qualifier Hq].
  exists qualifier, (randbelow W (length max_keys) g).2.
  apply choose_qualifier_ok. exists scores, (k, v), rest.
  split; [done|]. split; [done|]. by apply choice_ok.
Qed.

(** A successful turn of the loop over [vuln_qs], taken apart. *)
Lemma harden_q_v_ok W self qs m mp q_v g qs' m' mp' g' :
  harden_q_v W self (qs, m, mp) q_v g = Ok ((qs', m', mp'), g') ↔
  ∃ table refs qualifier,
    indexed_ref_sets self = Some table
    ∧ dict_get table q_v = Some refs
    ∧ choose_qualifier W qs refs g = Ok (qualifier, g')
    ∧ q_v ∈ qs
    ∧ qs' = qs ∖ {[q_v]} ∪ {[q_v +:+ pretty qualifier]}
    ∧ ledger_move q_v (q_v +:+ pretty qualifier) m = Ok m'
    ∧ mp' = note_mapping q_v (q_v +:+ pretty qualifier) mp.
Proof.
  unfold harden_q_v, dict_index, set_remove. split.
  - intros Hrun.
    apply rand_bind_ok in Hrun as (table & g1 & [Ht ->]%lift_ok & Hrun).
    apply rand_bind_ok in Hrun as (refs & g2 & [Hr ->]%lift_ok & Hrun).
    apply rand_bind_ok in Hrun as (qualifier & g3 & Hq & Hrun).
    apply rand_bind_ok in Hrun as (qs1 & g4 & [Hrm ->]%lift_ok & Hrun).
    apply rand_bind_ok in Hrun as (m1 & g5 & [Hm ->]%lift_ok & Hrun).
    apply rand_ret_ok in Hrun as [[= <- <- <-] <-].
    destruct (indexed_ref_sets self) as [t|]; [|done]. injection Ht as ->.
    destruct (dict_get table q_v) as [r|] eqn:Hd; [|done]. injection Hr as ->.
    destruct (decide (q_v ∈ qs)); [|done]. injection Hrm as <-.
    by exists table, refs, qualifier.
  - intros (table & refs & qualifier & -> & Hr & Hq & Hin & -> & Hm & ->).
    apply rand_bind_ok. exists table, g. split; [done|].
    apply rand_bind_ok. exists refs, g. split; [by rewrite Hr|].
    apply rand_bind_ok. exists qualifier, g'. split; [done|].
    apply rand_bind_ok. exists (qs ∖ {[q_v]}), g'.
    split; [by rewrite decide_True|].
    apply rand_bind_ok. exists m', g'. split; [by apply lift_ok|done].
Qed.

Lemma counter_runtime_ok : RuntimeOK counter_runtime.
Proof.
  split; simpl.
  - intros n g Hn. apply Nat.mod_upper_bound. lia.
  - intros n k g _. apply NoDup_seq.
  - intros n k g _. apply length_seq.
  - intros n k g Hk. apply Forall_forall. intros i Hi%elem_of_seq. lia.
  - intros l g. apply reverse_Permutation.
  - done.
Qed.

Lemma choose_qualifier_key W qs refs g qualifier g' :
  choose_qualifier W qs refs g = Ok (qualifier, g') → qualifier ∈ refs.*1.
Proof.
  intros (scores & first & rest & Hsc & Hsorted & Hch)%choose_qualifier_ok.
  apply choice_ok in Hch as (_ & Hpick & _).
  apply list_elem_of_lookup_2 in Hpick.
  apply (score_refs_keys _ _ _ Hsc).
  rewrite <- (sorted_desc_perm scores).
  eapply elem_of_sublist; [done | apply max_keys_of_sublist].
Qed.

(** ** Hardening one record *)

Lemma qualified_by_length self q_v x :
  qualified_by self q_v x → (String.length q_v < String.length x)%nat.
Proof. intros (? & ? & i & _ & _ & _ & ->). apply qualified_length. Qed.

Lemma harden_vuln_qs_replaced W self (q : nat) qs l m mp g qs' m' mp' g' :
  (∀ x, x ∈ l → String.length x = q) →
  for_each l (harden_q_v W self) (qs, m, mp) g = Ok ((qs', m', mp'), g') →
  replaced_so_far self qs l qs'.
Proof.
  intros Hlen Hrun.
  apply (for_each_rand_ind
           (λ pre (st : gset string * gmap string Z * list (string * list string)),
              replaced_so_far self qs pre st.1.1)) in Hrun; [done | |].
  { split; [|split].
    - done.
    - by intros ? ?%elem_of_nil.
    - intros x Hx. left. split; [done | apply not_elem_of_nil]. }
  intros pre q_v post [[cur m1] mp1] g1 [[cur' m2] mp2] g2 Hl (Hkeep & Hrep & Hfrom) Hstep.
  apply harden_q_v_ok in Hstep
    as (table & refs & qualifier & Ht & Hr & Hq & Hin & -> & _ & _).
  apply choose_qualifier_key in Hq. simpl in *.
  assert (qualified_by self q_v (q_v +:+ pretty qualifier)) as Htok.
  { by exists table, refs, qualifier. }
  assert (∀ y z, y ∈ l → qualified_by self z y → z ∈ l → False) as Hfresh.
  { intros y z Hy Hz%qualified_by_length Hzl.
    rewrite (Hlen y Hy), (Hlen z Hzl) in Hz. lia. }
  assert (q_v ∈ l) as Hql by (rewrite Hl; set_solver).
  split; [|split].
  - intros x Hx Hnin. apply not_elem_of_app in Hnin as [Hnp Hnq].
    apply elem_of_union_l, elem_of_difference. split; [by apply Hkeep|].
    set_solver.
  - intros z [Hz|Hz%list_elem_of_singleton]%elem_of_app.
    + destruct (Hrep z Hz) as (Hzc & x & Hx & Hzx). split.
      * intros [[Hzc' _]%elem_of_difference|Heq%elem_of_singleton]%elem_of_union;
          [done|].
        apply (Hfresh z q_v); [rewrite Hl; set_solver | by rewrite Heq | done].
      * exists x. split; [|done].
        apply elem_of_union_l, elem_of_difference. split; [done|].
        intros ->%elem_of_singleton.
        apply (Hfresh q_v z); [done | done | rewrite Hl; set_solver].
    + subst z. split.
      * intros [[_ Hc]%elem_of_difference|Heq%elem_of_singleton]%elem_of_union.
        -- apply Hc. by apply elem_of_singleton.
        -- by apply (qualified_ne q_v qualifier).
      * exists (q_v +:+ pretty qualifier). split; [|done].
        apply elem_of_union_r. by apply elem_of_singleton.
  - intros x [[Hx Hxq]%elem_of_difference | ->%elem_of_singleton]%elem_of_union.
    + destruct (Hfrom x Hx) as [[Hxqs Hxp]|(z & Hz & Hzx)].
      * left. split; [done|]. apply not_elem_of_app. split; [done|].
        intros ?%list_elem_of_singleton. apply Hxq. by apply elem_of_singleton.
      * right. exists z. split; [|done]. apply elem_of_app. by left.
    + right. exists q_v. split; [|done]. apply elem_of_app. right.
      by apply list_elem_of_singleton.
Qed.

Lemma set_iter_elem_of W (X : gset string) x :
  RuntimeOK W → x ∈ set_iter W X ↔ x ∈ X.
Proof. intros HW. by rewrite (set_iter_perm W HW X), elem_of_elements. Qed.

Lemma hardened_record_refl self (qs : gset string) :
  qs ∩ vuln_q_grams self = ∅ → hardened_record self qs qs.
Proof.
  intros Hdisj. split; [|split].
  - done.
  - intros q_v ??. set_solver.
  - intros x Hx. left. set_solver.
Qed.

Lemma harden_record_ok W self (q : nat) data m mp n rec g data' m' mp' n' g' :
  RuntimeOK W →
  (∀ x, x ∈ vuln_q_grams self → String.length x = q) →
  harden_record W self (data, m, mp, n) rec g = Ok ((data', m', mp', n'), g') →
  ∃ qs', record_hardened self rec (rec.1, qs')
         ∧ (data' = dict_set data rec.1 qs' ∨ (data' = data ∧ qs' = rec.2)).
Proof.
  intros HW Hlen Hrun. destruct rec as [rec_id qs].
  unfold harden_record in Hrun.
  destruct (decide (0 < size (qs ∩ vuln_q_grams self))%nat) as [Hsz|Hsz].
  - apply rand_bind_ok in Hrun as ([[qs1 m1] mp1] & g1 & Hloop & Hret).
    apply rand_ret_ok in Hret as [[= <- <- <- <-] _].
    apply (harden_vuln_qs_replaced W self q) in Hloop.
    2:{ intros x Hx%(set_iter_elem_of W _ _ HW). apply Hlen. set_solver. }
    destruct Hloop as (Hkeep & Hrep & Hfrom).
    exists qs1. split; [|by left].
    assert (∀ x, x ∈ set_iter W (qs ∩ vuln_q_grams self)
                 ↔ x ∈ qs ∧ x ∈ vuln_q_grams self) as Hiter.
    { intros x. rewrite (set_iter_elem_of W _ _ HW). set_solver. }
    split; [done|]. split; [|split; [|split]]; simpl.
    + intros x Hx Hv. destruct (Hfrom x Hx) as [[Hxqs Hnin]|(z & Hz & Hzx)].
      * apply Hnin, Hiter. done.
      * apply Hiter in Hz as [_ Hz]. apply qualified_by_length in Hzx.
        rewrite (Hlen x Hv), (Hlen z Hz) in Hzx. lia.
    + intros x Hx Hv. apply Hkeep; [done|]. rewrite Hiter. tauto.
    + intros z Hz Hv. apply Hrep, Hiter. done.
    + intros x Hx. destruct (Hfrom x Hx) as [[Hxqs Hnin]|(z & Hz & Hzx)].
      * left. split; [done|]. intros Hv. apply Hnin, Hiter. done.
      * right. exists z. apply Hiter in Hz as [??]. done.
  - apply rand_ret_ok in Hrun as [[= <- <- <- <-] _].
    exists qs. split; [|by right].
    assert (qs ∩ vuln_q_grams self = ∅) as Hdisj.
    { apply leibniz_equiv, size_empty_iff. lia. }
    split; [done|]. split; [set_solver | by apply hardened_record_refl].
Qed.

(** C1. After [harden_with_vah_ref_sets] returns, every record keeps its
    identifier and its q-gram set holds no vulnerable q-gram: each
    vulnerable q-gram that was present has been removed and a qualified
    token of it (the q-gram followed by the index of one of its reference
    sets) put in its place, and the other members are unchanged. Q-grams
    have one fixed length [q], as the data model has it, and the database
    is a dictionary (no identifier occurs twice). *)
Theorem harden_leaves_no_vulnerable
    W self (q : nat) data_dict q_gram_f_dist g data_dict' q_gram_f_dist' g' :
  RuntimeOK W →
  (∀ x, x ∈ vuln_q_grams self → String.length x = q) →
  NoDup data_dict.*1 →
  harden_with_vah_ref_sets W self data_dict q_gram_f_dist g
    = Ok ((data_dict', q_gram_f_dist'), g') →
  Forall2 (record_hardened self) data_dict data_dict'.
Proof.
  intros HW Hlen Hnd Hrun. unfold harden_with_vah_ref_sets in Hrun.
  apply rand_bind_ok in Hrun as ([] & g0 & _ & Hrun).
  apply rand_bind_ok in Hrun as ([[[d1 m1] mp1] n1] & g1 & Hloop & Hret).
  apply rand_ret_ok in Hret as [[= <- <-] _].
  apply (for_each_rand_ind
           (λ pre (st : list (string * gset string) * gmap string Z
                        * list (string * list string) * nat),
              ∃ pre', Forall2 (record_hardened self) pre pre'
                      ∧ st.1.1.1 = pre' ++ drop (length pre) data_dict))
    in Hloop.
  - destruct Hloop as (pre' & HF & Hd). simpl in Hd.
    by rewrite drop_all, app_nil_r in Hd; subst.
  - exists []. by split; [constructor|].
  - intros pre rec post [[[d2 m2] mp2] n2] g2 [[[d3 m3] mp3] n3] g3
      Hl (pre' & HF & Hd) Hstep. simpl in Hd.
    apply (harden_record_ok W self q) in Hstep as (qs' & Hrec & Hd3); [|done..].
    exists (pre' ++ [(rec.1, qs')]). split.
    { apply Forall2_app; [done|]. constructor; [done | constructor]. }
    simpl. rewrite Hl in Hd |- *.
    rewrite drop_app_length in Hd.
    rewrite (cons_middle rec pre post), app_assoc, drop_app_length.
    rewrite <- app_assoc. simpl.
    destruct Hd3 as [->|[-> ->]].
    + rewrite Hd. destruct rec as [rec_id qs]. simpl.
      apply dict_set_middle.
      assert (pre'.*1 = pre.*1) as ->.
      { clear -HF. induction HF as [|x y ?? (Hk & _) _ IH]; [done|].
        rewrite !fmap_cons. by rewrite IH, Hk. }
      rewrite Hl, fmap_app, fmap_cons in Hnd.
      apply NoDup_app in Hnd as (_ & Hnd & _).
      intros Hin. apply (Hnd _ Hin). left.
    + rewrite Hd. by destruct rec.
Qed.

(** ** The sampler *)

(** A loop invariant that also bounds the exceptions the loop may raise. *)
Lemma for_each_rand_outcome {W A S} (P : list A → S → Prop) (E : exn → Prop)
    (body : S → A → rand W S) (l : list A) s g :
  P [] s →
  (∀ pre x post s g,
     l = pre ++ x :: post → P pre s →
     match body s x g with
     | Ok (s', _) => P (pre ++ [x]) s'
     | Raise e => E e
     end) →
  match for_each l body s g with
  | Ok (s', _) => P l s'
  | Raise e => E e
  end.
Proof.
  intros Hinit Hstep.
  cut (∀ post pre s g, l = pre ++ post → P pre s →
         match for_each post body s g with
         | Ok (s', _) => P l s'
         | Raise e => E e
         end).
  { intros Hcut. by apply (Hcut l [] s g). }
  induction post as [|x post IH]; intros pre s0 g0 Hl HP.
  - simpl. by rewrite Hl, app_nil_r.
  - cbn [for_each]. unfold mbind, rand_bind.
    specialize (Hstep pre x post s0 g0 Hl HP).
    destruct (body s0 x g0) as [[s1 g1]|e]; [|done].
    apply (IH (pre ++ [x])); [by rewrite <- app_assoc | done].
Qed.

Lemma for_each_result_outcome {A S} (P : list A → S → Prop) (E : exn → Prop)
    (body : S → A → result S) (l : list A) s :
  P [] s →
  (∀ pre x post s,
     l = pre ++ x :: post → P pre s →
     match body s x with
     | Ok s' => P (pre ++ [x]) s'
     | Raise e => E e
     end) →
  match for_each l body s with
  | Ok s' => P l s'
  | Raise e => E e
  end.
Proof.
  intros Hinit Hstep.
  cut (∀ post pre s, l = pre ++ post → P pre s →
         match for_each post body s with
         | Ok s' => P l s'
         | Raise e => E e
         end).
  { intros Hcut. by apply (Hcut l [] s). }
  induction post as [|x post IH]; intros pre s0 Hl HP.
  - simpl. by rewrite Hl, app_nil_r.
  - cbn [for_each]. unfold mbind, result_bind.
    specialize (Hstep pre x post s0 Hl HP).
    destruct (body s0 x) as [s1|e]; [|done].
    apply (IH (pre ++ [x])); [by rewrite <- app_assoc | done].
Qed.

Lemma size_add_le (X : gset string) (x : string) :
  (size (X ∪ {[x]}) ≤ S (size X))%nat.
Proof.
  rewrite size_union_alt.
  pose proof (subseteq_size ({[x]} ∖ X) {[x]}) as Hle.
  rewrite size_singleton in Hle. specialize (Hle ltac:(set_solver)). lia.
Qed.

Lemma size_list_to_set_le (l : list string) :
  (size (list_to_set (C := gset string) l) ≤ length l)%nat.
Proof.
  induction l as [|x l IH].
  - by rewrite list_to_set_nil, size_empty.
  - rewrite list_to_set_cons, (comm_L (∪)). simpl.
    pose proof (size_add_le (list_to_set l) x). lia.
Qed.

Lemma pad_until_eq W fuel src l_r qs_r :
  pad_until W fuel src l_r qs_r =
    if decide (Z.of_nat (size qs_r) < l_r) then
      match fuel with
      | O => raise Diverges
      | S fuel' =>
          j ← randint0 (length src);
          x ← lift (list_index src j);
          pad_until W fuel' src l_r (qs_r ∪ {[x]})
      end
    else mret qs_r.
Proof. by destruct fuel. Qed.

(** The padding loop ends with a set of exactly [l_r] members that
    extends the chunk by members of the source it draws from, or it
    raises. *)
Lemma pad_until_outcome W fuel src l_r (qs_r : gset string) g :
  Z.of_nat (size qs_r) ≤ l_r →
  match pad_until W fuel src l_r qs_r g with
  | Ok (qs', _) =>
      Z.of_nat (size qs') = l_r ∧ qs_r ⊆ qs'
      ∧ ∀ x, x ∈ qs' → x ∈ qs_r ∨ x ∈ src
  | Raise e => pad_failure e
  end.
Proof.
  revert qs_r g. induction fuel as [|fuel IH]; intros qs_r g Hle;
    rewrite pad_until_eq;
    (destruct (decide (Z.of_nat (size qs_r) < l_r)) as [Hlt|Hge];
       [|simpl; split; [lia | split; [done | by left]]]).
  - by left.
  - unfold mbind, rand_bind.
    destruct (randint0 (length src) g) as [[j g1]|e] eqn:Hj.
    2:{ unfold randint0 in Hj. destruct (length src); [|done].
        injection Hj as <-. right. by left. }
    unfold lift, list_index. destruct (src !! j) as [x|] eqn:Hx.
    2:{ right. by right. }
    specialize (IH (qs_r ∪ {[x]}) g1).
    pose proof (size_add_le qs_r x) as Hadd.
    destruct (pad_until W fuel src l_r (qs_r ∪ {[x]}) g1) as [[qs' g2]|e];
      [|apply IH; lia].
    destruct IH as (Hsz & Hsub & Hfrom); [lia|].
    split; [done|]. split; [set_solver|].
    intros y Hy. destruct (Hfrom y Hy) as [[?| ->%elem_of_singleton]%elem_of_union|?];
      [by left | | by right].
    right. by eapply list_elem_of_lookup_2.
Qed.

(** Accepting a chunk of at most [l_r] members appends one set of exactly
    [l_r] members and counts it, or raises as the padding loop does: the
    assertion on the size never fires. *)
Lemma accept_chunk_outcome W self fuel co count refs (qs_r : gset string) g :
  Z.of_nat (size qs_r) ≤ l_r self →
  match accept_chunk W self fuel co (count, refs) qs_r g with
  | Ok ((count', refs'), _) =>
      count' = S count
      ∧ ∃ r, refs' = refs ++ [r] ∧ Z.of_nat (size r) = l_r self ∧ qs_r ⊆ r
  | Raise e => pad_failure e
  end.
Proof.
  intros Hle. unfold accept_chunk, mbind, rand_bind.
  assert (∀ src,
    match pad_until W fuel src (l_r self) qs_r g with
    | Ok (a, g') =>
        (if decide (Z.of_nat (size a) = l_r self)
         then mret (S count, refs ++ [a])
         else raise (AssertionError ref_set_length)) g'
    | Raise e => Raise e
    end = match pad_until W fuel src (l_r self) qs_r g with
          | Ok (a, g') => Ok ((S count, refs ++ [a]), g')
          | Raise e => Raise e
          end
    ∧ match pad_until W fuel src (l_r self) qs_r g with
      | Ok (a, _) => Z.of_nat (size a) = l_r self ∧ qs_r ⊆ a
      | Raise e => pad_failure e
      end) as Hpad.
  { intros src. pose proof (pad_until_outcome W fuel src (l_r self) qs_r g Hle) as H.
    destruct (pad_until W fuel src (l_r self) qs_r g) as [[a g1]|e]; [|done].
    destruct H as (Hsz & Hsub & _). by rewrite decide_True. }
  destruct (decide (Z.of_nat (size qs_r) < l_r self ∧ (0 < count)%nat)) as [H1|H1];
    [|destruct (decide (Z.of_nat (size qs_r) < l_r self ∧ count = 0%nat)) as [H2|H2]].
  - destruct (Hpad co) as [-> Ho].
    destruct (pad_until W fuel co (l_r self) qs_r g) as [[a g1]|e]; [|done].
    destruct Ho. split; [done|]. by exists a.
  - destruct (Hpad (non_vuln_q_grams self)) as [-> Ho].
    destruct (pad_until W fuel (non_vuln_q_grams self) (l_r self) qs_r g)
      as [[a g1]|e]; [|done].
    destruct Ho. split; [done|]. by exists a.
  - simpl. assert (Z.of_nat (size qs_r) = l_r self) as Heq.
    { destruct (decide (0 < count)%nat); [|assert (count = 0%nat) by lia]; lia. }
    rewrite decide_True by done. simpl. split; [done|]. by exists qs_r.
Qed.

Lemma py_range_ok (stop : nat) (step : Z) (starts : list nat) :
  py_range stop step = Ok starts →
  (step < 0 ∧ starts = [])
  ∨ (0 < step
     ∧ starts = (λ j, j * Z.to_nat step)%nat
                  <$> seq 0 ((stop + Z.to_nat step - 1) `div` Z.to_nat step)%nat).
Proof.
  unfold py_range. repeat case_decide; intros [= <-]; [by left | right].
  split; [lia | done].
Qed.

Lemma py_range_raise (stop : nat) (step : Z) e :
  py_range stop step = Raise e → e = ValueError.
Proof. unfold py_range. by repeat case_decide; intros [= <-]. Qed.

Lemma sample_chunks_outcome W self fuel co starts g :
  (starts = [] ∨ 0 < l_r self) →
  match for_each starts (sample_chunk W self fuel co) (0%nat, []) g with
  | Ok ((count, refs), _) =>
      count = length refs ∧ length refs = length starts
      ∧ all_of_size (l_r self) refs
  | Raise e => pad_failure e
  end.
Proof.
  intros Hpos.
  pose proof (for_each_rand_outcome
           (λ pre (st : nat * list (gset string)),
              st.1 = length st.2 ∧ length st.2 = length pre
              ∧ all_of_size (l_r self) st.2)
           pad_failure (sample_chunk W self fuel co) starts (0%nat, []) g) as Hloop.
  cut (∀ pre i post (s : nat * list (gset string)) g0,
         starts = pre ++ i :: post →
         s.1 = length s.2 ∧ length s.2 = length pre ∧ all_of_size (l_r self) s.2 →
         match sample_chunk W self fuel co s i g0 with
         | Ok (s', _) =>
             s'.1 = length s'.2 ∧ length s'.2 = length (pre ++ [i])
             ∧ all_of_size (l_r self) s'.2
         | Raise e => pad_failure e
         end).
  { intros Hstep. specialize (Hloop ltac:(by repeat split; [constructor]) Hstep).
    by destruct (for_each starts (sample_chunk W self fuel co) (0%nat, []) g)
      as [[[count refs] g1]|e]. }
  intros pre i post [count refs] g0 Hl (Hc & Hn & Hall). simpl in Hc, Hn, Hall.
  destruct Hpos as [->|Hpos]; [by destruct pre|].
  unfold sample_chunk. cbv zeta.
  match goal with |- context [accept_chunk W self fuel co _ ?c g0] =>
    pose proof (accept_chunk_outcome W self fuel co count refs c g0) as H end.
  destruct (accept_chunk W self fuel co (count, refs) _ g0) as [[[count' refs'] g1]|e].
  - destruct H as (-> & r & -> & Hsz & _).
    { etrans; [apply inj_le, size_list_to_set_le|].
      rewrite length_take. lia. }
    simpl. rewrite !length_app. simpl. split; [lia|]. split; [lia|].
    apply Forall_app. split; [done|]. by constructor.
  - apply H. etrans; [apply inj_le, size_list_to_set_le|].
    rewrite length_take. lia.
Qed.

Lemma sample_q_v_outcome W self fuel rs total q_v pool g :
  match sample_q_v W self fuel (rs, total) (q_v, pool) g with
  | Ok ((rs', total'), _) =>
      ∃ refs, rs' = dict_set rs q_v refs
              ∧ total' = (total + length refs)%nat
              ∧ all_of_size (l_r self) refs
  | Raise e => pad_failure e
  end.
Proof.
  unfold sample_q_v, mbind at 1, rand_bind, lift.
  destruct (py_range (length (set_iter W pool)) (l_r self)) as [starts|e] eqn:Hr.
  2:{ apply py_range_raise in Hr as ->. right. by left. }
  unfold mbind, rand_bind.
  pose proof (sample_chunks_outcome W self fuel (set_iter W pool) starts g) as H.
  destruct (for_each starts (sample_chunk W self fuel (set_iter W pool))
              (0%nat, []) g) as [[[count refs] g1]|e].
  - destruct H as (-> & _ & Hall).
    { apply py_range_ok in Hr as [[_ ->]|[? _]]; [by left | by right]. }
    simpl. by exists refs.
  - apply H. apply py_range_ok in Hr as [[_ ->]|[? _]]; [by left | by right].
Qed.

Lemma set_iter_NoDup W (X : gset string) : RuntimeOK W → NoDup (set_iter W X).
Proof. intros HW. rewrite (set_iter_perm W HW X). apply NoDup_elements. Qed.

Lemma set_iter_length W (X : gset string) :
  RuntimeOK W → length (set_iter W X) = size X.
Proof. intros HW. by rewrite (set_iter_perm W HW X). Qed.

Lemma dict_get_is_Some {K V} `{EqDecision K} (d : list (K * V)) (k : K) :
  k ∈ d.*1 → is_Some (dict_get d k).
Proof.
  induction d as [|[k' v] d IH]; [by intros ?%elem_of_nil|].
  rewrite fmap_cons. intros [->|Hin]%elem_of_cons; simpl.
  - by rewrite decide_True.
  - destruct (decide (k' = k)); [done | by apply IH].
Qed.

(** The pools are built without an exception and keep the keys, and their
    order, the dictionary was created with. *)
Lemma co_occurrence_pools_ok W self pub :
  RuntimeOK W →
  ∃ co, co_occurrence_pools W self pub = Ok co
        ∧ co.*1 = set_iter W (vuln_q_grams self).
Proof.
  intros HW. unfold co_occurrence_pools.
  set (keys := set_iter W (vuln_q_grams self)).
  pose proof (for_each_result_outcome
    (λ _ (st : list (string * gset string)), st.*1 = keys) (λ _, False)
    (co_occurrence_record W self) pub ((λ key, (key, ∅)) <$> keys)) as Hloop.
  assert (((λ key, (key, ∅ : gset string)) <$> keys).*1 = keys) as Hinit.
  { by rewrite <- list_fmap_compose, list_fmap_id. }
  assert (∀ (pre : list (string * gset string)) x
            (post s : list (string * gset string)),
            pub = pre ++ x :: post → s.*1 = keys →
            match co_occurrence_record W self s x with
            | Ok s' => s'.*1 = keys
            | Raise _ => False
            end) as Hstep.
  { intros _ [rec_id qs] _ co0 _ Hkeys. unfold co_occurrence_record. simpl.
    destruct (decide (0 < size (qs ∩ vuln_q_grams self))%nat); [|done].
    apply (for_each_result_outcome
      (λ _ (st : list (string * gset string)), st.*1 = keys) (λ _, False));
      [done|].
    intros pre q_v post co1 Hl Hk1.
    assert (q_v ∈ co1.*1) as Hq.
    { rewrite Hk1. unfold keys. rewrite (set_iter_elem_of W _ _ HW).
      assert (q_v ∈ set_iter W (qs ∩ vuln_q_grams self)) as Hq
        by (rewrite Hl; set_solver).
      apply (set_iter_elem_of W _ _ HW) in Hq. set_solver. }
    unfold dict_index. destruct (dict_get_is_Some _ _ Hq) as [pool ->]. simpl.
    by rewrite dict_set_keys, decide_True. }
  specialize (Hloop Hinit Hstep).
  destruct (for_each pub (co_occurrence_record W self) ((λ key, (key, ∅)) <$> keys))
    as [co|e]; [by exists co | done].
Qed.

Lemma ref_set_count_app {K} (rs1 rs2 : list (K * list (gset string))) :
  ref_set_count (rs1 ++ rs2) = (ref_set_count rs1 + ref_set_count rs2)%nat.
Proof. apply sum_list_with_app. Qed.

(** The sampler ends with one entry per vulnerable q-gram, in the order
    the set is enumerated, a count that is the number of sets it emitted,
    and only sets of exactly [l_r] members; or it raises as the padding
    loop does. *)
Lemma sample_reference_sets_outcome W self fuel pub g :
  RuntimeOK W →
  match sample_reference_sets W self fuel pub g with
  | Ok ((reference_sets, total_qs_r_count), _) =>
      reference_sets.*1 = set_iter W (vuln_q_grams self)
      ∧ total_qs_r_count = ref_set_count reference_sets
      ∧ Forall (all_of_size (l_r self)) reference_sets.*2
  | Raise e => pad_failure e
  end.
Proof.
  intros HW. unfold sample_reference_sets.
  unfold mbind at 1, rand_bind, seed. unfold mbind at 1, rand_bind, lift.
  destruct (co_occurrence_pools_ok W self pub HW) as (co & -> & Hkeys).
  pose proof (set_iter_NoDup W (vuln_q_grams self) HW) as Hnd.
  rewrite <- Hkeys in Hnd |- *.
  pose proof (for_each_rand_outcome
    (λ pre (st : list (string * list (gset string)) * nat),
       st.1.*1 = pre.*1 ∧ st.2 = ref_set_count st.1
       ∧ Forall (all_of_size (l_r self)) st.1.*2)
    pad_failure (sample_q_v W self fuel) co ([], 0%nat)
    (rng_seed W (secret_seed self))) as Hloop.
  cut (∀ pre x post (s : list (string * list (gset string)) * nat) g0,
         co = pre ++ x :: post →
         s.1.*1 = pre.*1 ∧ s.2 = ref_set_count s.1
         ∧ Forall (all_of_size (l_r self)) s.1.*2 →
         match sample_q_v W self fuel s x g0 with
         | Ok (s', _) =>
             s'.1.*1 = (pre ++ [x]).*1 ∧ s'.2 = ref_set_count s'.1
             ∧ Forall (all_of_size (l_r self)) s'.1.*2
         | Raise e => pad_failure e
         end).
  { intros Hstep. specialize (Hloop ltac:(by repeat split; [constructor]) Hstep).
    by destruct (for_each co (sample_q_v W self fuel) ([], 0%nat)
                   (rng_seed W (secret_seed self))) as [[[rs total] g1]|e]. }
  intros pre [q_v pool] post [rs total] g0 Hl (Hk & Ht & Hall).
  simpl in Hk, Ht, Hall.
  pose proof (sample_q_v_outcome W self fuel rs total q_v pool g0) as H.
  destruct (sample_q_v W self fuel (rs, total) (q_v, pool) g0)
    as [[[rs' total'] g1]|e]; [|done].
  destruct H as (refs & -> & -> & Hrefs). simpl.
  rewrite dict_set_fresh.
  - rewrite !fmap_app, ref_set_count_app, Hk, Ht. simpl.
    split; [done|]. split; [unfold ref_set_count; simpl; lia|].
    apply Forall_app. split; [done|]. by constructor.
  - rewrite Hk. rewrite Hl, fmap_app, fmap_cons in Hnd.
    apply NoDup_app in Hnd as (_ & Hnd & _).
    intros Hin. apply (Hnd _ Hin). left.
Qed.

(** ** The index assigner *)

Lemma table_indices_app {K} (t1 t2 : list (K * list (nat * gset string))) :
  table_indices (t1 ++ t2) = table_indices t1 ++ table_indices t2.
Proof. unfold table_indices. by rewrite fmap_app, concat_app. Qed.

Lemma list_pop_ok {A} (l l' : list A) (x : A) :
  list_pop l = Ok (x, l') ↔ l = l' ++ [x].
Proof.
  unfold list_pop. split.
  - destruct (reverse l) as [|y r] eqn:Hr; [done|]. intros [= -> <-].
    apply (f_equal reverse) in Hr.
    by rewrite reverse_involutive, reverse_cons in Hr.
  - intros ->. rewrite reverse_app, reverse_singleton. simpl.
    by rewrite reverse_involutive.
Qed.

Lemma list_pop_total {A} (l : list A) :
  l ≠ [] → ∃ x l', list_pop l = Ok (x, l').
Proof.
  intros Hne. destruct (reverse l) as [|y r] eqn:Hr.
  - apply (f_equal reverse) in Hr. by rewrite reverse_involutive in Hr.
  - exists y, (reverse r). unfold list_pop. by rewrite Hr.
Qed.

(** The loop over the reference sets of one vulnerable q-gram pops one
    fresh index per set, in order, and never finds the list empty. *)
Lemma index_ref_sets_outcome (ref_sets : list (gset string)) (ri : list nat) :
  NoDup ri → (length ref_sets ≤ length ri)%nat →
  match for_each ref_sets index_ref_set ([], ri) with
  | Ok (inner, ri') =>
      inner.*2 = ref_sets ∧ ri' ++ reverse inner.*1 = ri
  | Raise _ => False
  end.
Proof.
  intros Hnd Hlen.
  pose proof (for_each_result_outcome
    (λ pre (st : list (nat * gset string) * list nat),
       st.1.*2 = pre ∧ st.2 ++ reverse st.1.*1 = ri)
    (λ _, False) index_ref_set ref_sets ([], ri)) as Hloop.
  cut (∀ pre x post (s : list (nat * gset string) * list nat),
         ref_sets = pre ++ x :: post →
         s.1.*2 = pre ∧ s.2 ++ reverse s.1.*1 = ri →
         match index_ref_set s x with
         | Ok s' => s'.1.*2 = pre ++ [x] ∧ s'.2 ++ reverse s'.1.*1 = ri
         | Raise _ => False
         end).
  { intros Hstep.
    specialize (Hloop ltac:(by split; [|simpl; rewrite app_nil_r]) Hstep).
    by destruct (for_each ref_sets index_ref_set ([], ri)) as [[inner ri']|e]. }
  intros pre ref_set post [inner ri'] Hl [Hv Hri]. simpl in Hv, Hri.
  unfold index_ref_set.
  assert (ri' ≠ []) as Hne.
  { intros ->. simpl in Hri. apply (f_equal length) in Hri.
    rewrite length_reverse, length_fmap in Hri.
    apply (f_equal length) in Hv. rewrite length_fmap in Hv.
    rewrite Hl, length_app in Hlen. simpl in Hlen. lia. }
  destruct (list_pop_total ri' Hne) as (idx & ri'' & Hpop).
  rewrite Hpop. simpl. apply list_pop_ok in Hpop as ->.
  rewrite dict_set_fresh.
  - rewrite !fmap_app, reverse_app, Hv. simpl. split; [done|].
    rewrite <- Hri, <- app_assoc. done.
  - rewrite <- Hri in Hnd. rewrite <- app_assoc in Hnd.
    apply NoDup_app in Hnd as (_ & _ & Hnd). simpl in Hnd.
    apply NoDup_cons in Hnd as [Hnin _]. by rewrite elem_of_reverse in Hnin.
Qed.

Lemma indexes_count reference_sets table :
  indexes reference_sets table →
  length (table_indices table) = ref_set_count reference_sets.
Proof.
  induction 1 as [|[q refs] [q' d] rs t [_ Hd] _ IH]; [done|].
  simpl in Hd. subst refs.
  change (table_indices ((q', d) :: t)) with (d.*1 ++ table_indices t).
  rewrite length_app, IH, length_fmap. unfold ref_set_count. simpl.
  by rewrite length_fmap.
Qed.

Lemma indexes_keys reference_sets table :
  indexes reference_sets table → table.*1 = reference_sets.*1.
Proof.
  induction 1 as [|[q refs] [q' d] rs t [Hk _] _ IH]; [done|].
  rewrite !fmap_cons. simpl in *. by rewrite IH, Hk.
Qed.

Lemma index_q_vs_outcome (reference_sets : list (string * list (gset string)))
    (ri : list nat) :
  NoDup ri → NoDup reference_sets.*1 →
  (ref_set_count reference_sets ≤ length ri)%nat →
  match for_each reference_sets index_q_v ([], ri) with
  | Ok (table, ri') =>
      indexes reference_sets table ∧ ri' ++ reverse (table_indices table) = ri
  | Raise _ => False
  end.
Proof.
  intros Hnd Hkeys Hlen.
  pose proof (for_each_result_outcome
    (λ pre (st : list (string * list (nat * gset string)) * list nat),
       indexes pre st.1 ∧ st.2 ++ reverse (table_indices st.1) = ri)
    (λ _, False) index_q_v reference_sets ([], ri)) as Hloop.
  cut (∀ pre x post (s : list (string * list (nat * gset string)) * list nat),
         reference_sets = pre ++ x :: post →
         indexes pre s.1 ∧ s.2 ++ reverse (table_indices s.1) = ri →
         match index_q_v s x with
         | Ok s' => indexes (pre ++ [x]) s'.1
                    ∧ s'.2 ++ reverse (table_indices s'.1) = ri
         | Raise _ => False
         end).
  { intros Hstep.
    specialize (Hloop ltac:(by split; [constructor|simpl; rewrite app_nil_r]) Hstep).
    by destruct (for_each reference_sets index_q_v ([], ri)) as [[table ri']|e]. }
  intros pre [q_v ref_sets] post [indexed ri'] Hl [Hidx Hri]. simpl in Hidx, Hri.
  unfold index_q_v.
  pose proof (index_ref_sets_outcome ref_sets ri') as Hinner.
  destruct (for_each ref_sets index_ref_set ([], ri')) as [[inner ri'']|e]; simpl.
  - destruct Hinner as [Hv Hri'].
    { rewrite <- Hri in Hnd. by apply NoDup_app in Hnd as (? & _ & _). }
    { apply (f_equal length) in Hri.
      rewrite length_app, length_reverse, (indexes_count _ _ Hidx) in Hri.
      rewrite Hl, ref_set_count_app in Hlen.
      unfold ref_set_count at 2 in Hlen. simpl in Hlen. lia. }
    rewrite dict_set_fresh.
    + split.
      * apply Forall2_app; [done|]. by repeat constructor.
      * rewrite table_indices_app, reverse_app. unfold table_indices at 1. simpl.
        rewrite app_nil_r, app_assoc, Hri'. done.
    + rewrite (indexes_keys _ _ Hidx).
      rewrite Hl, fmap_app, fmap_cons in Hkeys.
      apply NoDup_app in Hkeys as (_ & Hk & _).
      intros Hin. apply (Hk _ Hin). left.
  - apply Hinner.
    + rewrite <- Hri in Hnd. by apply NoDup_app in Hnd as (? & _ & _).
    + apply (f_equal length) in Hri.
      rewrite length_app, length_reverse, (indexes_count _ _ Hidx) in Hri.
      rewrite Hl, ref_set_count_app in Hlen.
      unfold ref_set_count at 2 in Hlen. simpl in Hlen. lia.
Qed.

Lemma index_reference_sets_ok W self reference_sets T g :
  RuntimeOK W →
  reference_sets.*1 = set_iter W (vuln_q_grams self) →
  T = ref_set_count reference_sets →
  ∃ table g',
    index_reference_sets W self reference_sets T g = Ok (table, g')
    ∧ indexes reference_sets table
    ∧ NoDup (table_indices table)
    ∧ Forall (λ i, (i < T * size (vuln_q_grams self))%nat) (table_indices table)
    ∧ length (table_indices table) = T.
Proof.
  intros HW Hkeys HT.
  set (V := size (vuln_q_grams self)).
  assert (length reference_sets = V) as HV.
  { rewrite <- (length_fmap fst), Hkeys. by apply set_iter_length. }
  assert (T ≤ T * V)%nat as Hle.
  { destruct reference_sets as [|e rs]; [subst T; simpl; lia|].
    simpl in HV. nia. }
  destruct (sample_range W (T * V) T g) as [ri0 g1] eqn:Hs.
  destruct (shuffle W ri0 g1) as [ri g2] eqn:Hsh.
  assert (ri ≡ₚ ri0) as Hperm.
  { pose proof (shuffle_perm W HW ri0 g1) as H. by rewrite Hsh in H. }
  assert (NoDup ri0 ∧ length ri0 = T ∧ Forall (λ i, (i < T * V)%nat) ri0)
    as (Hnd0 & Hlen0 & Hlt0).
  { pose proof (sample_range_NoDup W HW _ _ g Hle).
    pose proof (sample_range_length W HW _ _ g Hle).
    pose proof (sample_range_lt W HW _ _ g Hle).
    by rewrite Hs in *. }
  pose proof (index_q_vs_outcome reference_sets ri) as Hloop.
  destruct (for_each reference_sets index_q_v ([], ri)) as [[table ri']|e] eqn:Hrun.
  2:{ destruct Hloop.
      - by rewrite Hperm.
      - rewrite Hkeys. by apply set_iter_NoDup.
      - rewrite Hperm. lia. }
  destruct Hloop as [Hidx Hri].
  { by rewrite Hperm. }
  { rewrite Hkeys. by apply set_iter_NoDup. }
  { rewrite Hperm. lia. }
  assert (ri' = []) as ->.
  { apply (f_equal length) in Hri.
    rewrite length_app, length_reverse, (indexes_count _ _ Hidx), Hperm in Hri.
    destruct ri'; [done | simpl in Hri; lia]. }
  simpl in Hri.
  assert (table_indices table ≡ₚ ri0) as Hti.
  { by rewrite <- Hperm, <- Hri, reverse_Permutation. }
  exists table, g2. split; [|split; [done|]].
  - unfold index_reference_sets.
    apply rand_bind_ok. exists ri0, g1. split.
    { unfold sample. fold V. by rewrite decide_True, Hs. }
    apply rand_bind_ok. exists ri, g2. split.
    { unfold shuffled. by rewrite Hsh. }
    apply rand_bind_ok. exists (table, []), g2. split.
    { apply lift_ok. by rewrite Hrun. }
    rewrite decide_True; [done|]. split; [|done].
    apply Forall2_length in Hidx. by rewrite <- Hidx.
  - by rewrite Hti.
Qed.

(** What [generate_reference_sets] ends in: a table that indexes the
    sampler's reference sets, or one of the exceptions of the padding
    loop. *)
Lemma generate_reference_sets_outcome W self fuel pub g :
  RuntimeOK W →
  match generate_reference_sets W self fuel pub g with
  | Ok (self', _) =>
      ∃ reference_sets T g1 table,
        sample_reference_sets W self fuel pub g = Ok ((reference_sets, T), g1)
        ∧ self' = set_indexed_ref_sets self table
        ∧ reference_sets.*1 = set_iter W (vuln_q_grams self)
        ∧ T = ref_set_count reference_sets
        ∧ Forall (all_of_size (l_r self)) reference_sets.*2
        ∧ indexes reference_sets table
        ∧ NoDup (table_indices table)
        ∧ Forall (λ i, (i < T * size (vuln_q_grams self))%nat)
            (table_indices table)
        ∧ length (table_indices table) = T
  | Raise e => pad_failure e
  end.
Proof.
  intros HW. unfold generate_reference_sets, mbind at 1, rand_bind.
  pose proof (sample_reference_sets_outcome W self fuel pub g HW) as Hs.
  destruct (sample_reference_sets W self fuel pub g) as [[[rs T] g1]|e]; [|done].
  destruct Hs as (Hkeys & HT & Hall).
  destruct (index_reference_sets_ok W self rs T g1 HW Hkeys HT)
    as (table & g2 & Hrun & Hidx & Hnd & Hlt & Hlen).
  unfold mbind, rand_bind. rewrite Hrun. simpl.
  by exists rs, T, g1, table.
Qed.

(** C4. After [generate_reference_sets] the indices of the whole table
    are pairwise distinct and lie in [0, T·V), where T is the number of
    reference sets the sampler produced ([total_qs_r_count]) and V the
    number of vulnerable q-grams; the table has V top-level keys, which are
    the vulnerable q-grams; and it holds T (index, reference set) pairs,
    one for each reference set. *)
Theorem generate_indices_distinct W self fuel pub_db_q_gram_sets g self' g' :
  RuntimeOK W →
  generate_reference_sets W self fuel pub_db_q_gram_sets g = Ok (self', g') →
  ∃ reference_sets T g1 table,
    sample_reference_sets W self fuel pub_db_q_gram_sets g
      = Ok ((reference_sets, T), g1)
    ∧ T = ref_set_count reference_sets
    ∧ indexed_ref_sets self' = Some table
    ∧ indexes reference_sets table
    ∧ NoDup (table_indices table)
    ∧ Forall (λ i, (i < T * size (vuln_q_grams self))%nat) (table_indices table)
    ∧ length table = size (vuln_q_grams self)
    ∧ NoDup table.*1
    ∧ (∀ q_v, q_v ∈ table.*1 ↔ q_v ∈ vuln_q_grams self)
    ∧ length (table_indices table) = T.
Proof.
  intros HW Hrun.
  pose proof (generate_reference_sets_outcome W self fuel pub_db_q_gram_sets g HW) as H.
  rewrite Hrun in H.
  destruct H as (rs & T & g1 & table & Hs & -> & Hkeys & HT & _ & Hidx & Hnd & Hlt & Hlen).
  exists rs, T, g1, table.
  pose proof (indexes_keys _ _ Hidx) as Htk. rewrite Hkeys in Htk.
  repeat split; try done.
  - rewrite <- (length_fmap fst), Htk. by apply set_iter_length.
  - rewrite Htk. by apply set_iter_NoDup.
  - rewrite Htk. by apply set_iter_elem_of.
  - rewrite Htk. by apply set_iter_elem_of.
Qed.

Lemma indexes_values reference_sets table q_v d i r :
  indexes reference_sets table → (q_v, d) ∈ table → (i, r) ∈ d →
  ∃ refs, (q_v, refs) ∈ reference_sets ∧ r ∈ refs.
Proof.
  intros Hidx Hd Hr.
  destruct (Forall2_elem_of_r _ _ _ _ Hidx Hd) as ([q refs] & Hin & Hk & Hv).
  simpl in *. subst. exists (d.*2). split; [done|].
  apply list_elem_of_fmap. by exists (i, r).
Qed.

(** C6. Every reference set that [generate_reference_sets] emits, for any
    vulnerable q-gram and whether it comes from a full chunk or from a
    padded one, has exactly [l_r] distinct members, in the sampler's lists
    and in the indexed table alike; and the call never ends in the
    assertion on the size of a reference set (it returns, or it raises as
    the padding loop does). *)
Theorem reference_sets_have_size_l_r W self fuel pub_db_q_gram_sets g :
  RuntimeOK W →
  match generate_reference_sets W self fuel pub_db_q_gram_sets g with
  | Ok (self', _) =>
      ∃ reference_sets T g1 table,
        sample_reference_sets W self fuel pub_db_q_gram_sets g
          = Ok ((reference_sets, T), g1)
        ∧ indexed_ref_sets self' = Some table
        ∧ (∀ q_v refs r, (q_v, refs) ∈ reference_sets → r ∈ refs →
             Z.of_nat (size r) = l_r self)
        ∧ (∀ q_v d i r, (q_v, d) ∈ table → (i, r) ∈ d →
             Z.of_nat (size r) = l_r self)
  | Raise e => pad_failure e ∧ e ≠ AssertionError ref_set_length
  end.
Proof.
  intros HW.
  pose proof (generate_reference_sets_outcome W self fuel pub_db_q_gram_sets g HW) as H.
  destruct (generate_reference_sets W self fuel pub_db_q_gram_sets g)
    as [[self' g']|e].
  - destruct H as (rs & T & g1 & table & Hs & -> & _ & _ & Hall & Hidx & _).
    exists rs, T, g1, table.
    assert (∀ q_v refs r, (q_v, refs) ∈ rs → r ∈ refs →
              Z.of_nat (size r) = l_r self) as Hsize.
    { intros q_v refs r Hin Hr. rewrite Forall_forall in Hall.
      specialize (Hall refs). unfold all_of_size in Hall.
      rewrite Forall_forall in Hall. apply Hall; [|done].
      apply list_elem_of_fmap. by exists (q_v, refs). }
    repeat split; try done.
    intros q_v d i r Hd Hr.
    destruct (indexes_values _ _ _ _ _ _ Hidx Hd Hr) as (refs & ? & ?).
    by eapply Hsize.
  - split; [done|]. by destruct H as [->|[->| ->]].
Qed.

(** ** The sampler against the padding policy of the design document *)

Lemma div_up_step (len n : nat) :
  (0 < n)%nat → (0 < len)%nat →
  ((len + n - 1) `div` n = S ((len - n + n - 1) `div` n))%nat.
Proof.
  intros Hn Hlen. destruct (decide (n ≤ len)%nat) as [Hle|Hgt].
  - replace (len + n - 1)%nat with ((len - n + n - 1) + 1 * n)%nat by lia.
    rewrite Nat.div_add by lia. lia.
  - replace (len - n + n - 1)%nat with (n - 1)%nat by lia.
    rewrite (Nat.div_small (n - 1)) by lia.
    symmetry. apply (Nat.div_unique _ n 1 (len - 1)); lia.
Qed.

(** The chunks are the slices the source takes at the starts of
    [range(0, len(l), n)]. *)
Lemma chunks_go_slices {A} (fuel n : nat) (l : list A) :
  (0 < n)%nat → (length l ≤ fuel)%nat →
  chunks_go fuel n l =
    (λ i, take n (drop i l))
      <$> ((λ j, j * n)%nat <$> seq 0 ((length l + n - 1) `div` n)%nat).
Proof.
  intros Hn. revert l. induction fuel as [|fuel IH]; intros l Hlen.
  - destruct l; [|simpl in Hlen; lia]. simpl.
    by rewrite Nat.div_small by lia.
  - destruct l as [|x l].
    { simpl. by rewrite Nat.div_small by lia. }
    cbn [chunks_go]. rewrite div_up_step by (simpl; lia).
    cbn [seq fmap list_fmap]. rewrite Nat.mul_0_l, drop_0. f_equal.
    rewrite IH by (rewrite length_drop; simpl in *; lia).
    rewrite length_drop, <- fmap_S_seq, <- !list_fmap_compose.
    apply list_fmap_ext. intros _ j _. unfold compose.
    by rewrite drop_drop.
Qed.

Lemma chunks_slices {A} (n : nat) (l : list A) :
  (0 < n)%nat →
  chunks n l =
    (λ i, take n (drop i l))
      <$> ((λ j, j * n)%nat <$> seq 0 ((length l + n - 1) `div` n)%nat).
Proof. intros Hn. by apply chunks_go_slices. Qed.

(** The chunks partition the list; each is non-empty and no longer than
    [n], and only the last may be shorter. *)
Lemma chunks_go_partition {A} (fuel n : nat) (l : list A) :
  (0 < n)%nat → (length l ≤ fuel)%nat →
  concat (chunks_go fuel n l) = l
  ∧ Forall (λ c, (0 < length c ≤ n)%nat) (chunks_go fuel n l)
  ∧ ∀ cs c, chunks_go fuel n l = cs ++ [c] → Forall (λ c', length c' = n) cs.
Proof.
  intros Hn. revert l. induction fuel as [|fuel IH]; intros l Hlen.
  - destruct l; [|simpl in Hlen; lia]. simpl.
    split; [done|]. split; [constructor|]. by intros [|??] ?.
  - destruct l as [|x l].
    { simpl. split; [done|]. split; [constructor|]. by intros [|??] ?. }
    cbn [chunks_go].
    destruct (IH (drop n (x :: l))) as (Hcat & Hall & Hlast).
    { rewrite length_drop. simpl in *. lia. }
    split; [|split].
    + simpl concat. rewrite Hcat. apply take_drop.
    + constructor; [|done]. rewrite length_take. simpl. lia.
    + intros cs c Heq. destruct cs as [|c0 cs].
      { constructor. }
      simpl in Heq. injection Heq as <- Hrest.
      constructor; [|by eapply Hlast].
      rewrite length_take.
      destruct (decide (n ≤ length (x :: l))%nat) as [|Hshort]; [lia|].
      rewrite drop_ge in Hrest by lia.
      destruct fuel; simpl in Hrest; by destruct cs.
Qed.






(** ** The example of the design document *)

Lemma set_iter_singleton W (x : string) :
  RuntimeOK W → set_iter W {[ x ]} = [x].
Proof.
  intros HW. apply Permutation_singleton_r.
  by rewrite (set_iter_perm W HW), elements_singleton.
Qed.

Lemma choice_singleton W {A} (x : A) (g : rng_state W) :
  RuntimeOK W → choice [x] g = Ok (x, (randbelow W 1 g).2).
Proof.
  intros HW. apply choice_ok. split; [done|]. split; [|done].
  pose proof (randbelow_lt W HW 1 g ltac:(lia)) as Hlt. simpl.
  by destruct (randbelow W 1 g).1; [|lia].
Qed.

Lemma example_choice W g :
  RuntimeOK W →
  choose_qualifier W example_record example_refs g
    = Ok (4%nat, (randbelow W 1 g).2).
Proof.
  intros HW. apply choose_qualifier_ok.
  exists [(4%nat, (2 # 6)%Q); (9%nat, (0 # 6)%Q)], (4%nat, (2 # 6)%Q),
         [(9%nat, (0 # 6)%Q)].
  split; [by vm_compute|]. split; [by vm_compute|].
  by apply choice_singleton.
Qed.

Lemma example_run W s nv lr g :
  RuntimeOK W →
  ∃ g', harden_with_vah_ref_sets W (example_self s nv lr)
          [("r1", example_record)] example_ledger g
        = Ok (([("r1", {[ "th4"; "er"; "xy" ]})],
               {[ "th4" := 1; "er" := 1; "xy" := 1 ]}), g').
Proof.
  intros HW. set (g0 := rng_seed W s).
  exists (randbelow W 1 g0).2.
  unfold harden_with_vah_ref_sets.
  apply rand_bind_ok. exists (), g0. split; [done|].
  apply rand_bind_ok.
  exists ([("r1", {[ "th4"; "er"; "xy" ]})],
          {[ "th4" := 1; "er" := 1; "xy" := 1 ]},
          note_mapping "th" "th4" [], 1%nat), (randbelow W 1 g0).2.
  split; [|done].
  cbn [for_each]. apply rand_bind_ok. eexists _, _. split; [|done].
  unfold harden_record.
  assert (example_record ∩ vuln_q_grams (example_self s nv lr) = {[ "th" ]}) as ->
    by by vm_compute.
  rewrite decide_True by (rewrite size_singleton; lia).
  rewrite set_iter_singleton by done.
  apply rand_bind_ok.
  exists ({[ "th4"; "er"; "xy" ]}, {[ "th4" := 1; "er" := 1; "xy" := 1 ]},
          note_mapping "th" "th4" []), (randbelow W 1 g0).2.
  split; [|done].
  cbn [for_each]. apply rand_bind_ok. eexists _, _. split; [|done].
  apply harden_q_v_ok.
  exists [("th", example_refs)], example_refs, 4%nat.
  split; [done|]. split; [done|]. split; [by apply example_choice|].
  split; [by vm_compute|]. split; [by vm_compute|].
  split; [by vm_compute|done].
Qed.

(** C8. For a record's current q-gram set and a vulnerable q-gram in it,
    the qualifier the hardener chooses is an index whose reference set
    attains the maximal Dice score among the reference sets registered
    under that q-gram: the candidates [max_keys] are exactly the indices of
    maximal score (equality of scores), the qualifier is the candidate at
    the position the seeded generator draws below their number, so a single
    candidate is taken as it is, and the token that replaces the q-gram is
    the q-gram followed by that index. The choice succeeds whenever there
    is a reference set to choose from. In the example of the design
    document the scores are 1/3 and 0, index 4 is chosen, and the hardened
    record is {"th4", "er", "xy"}. *)
Theorem hardener_picks_maximizer W :
  RuntimeOK W →
  (∀ self table refs qs m mp q_v g qs' m' mp' g',
     indexed_ref_sets self = Some table →
     dict_get table q_v = Some refs →
     NoDup refs.*1 →
     harden_q_v W self (qs, m, mp) q_v g = Ok ((qs', m', mp'), g') →
     ∃ qualifier max_keys,
       (∀ id, id ∈ max_keys ↔ is_maximizer qs refs id)
       ∧ NoDup max_keys
       ∧ max_keys !! (randbelow W (length max_keys) g).1 = Some qualifier
       ∧ (∀ id, max_keys = [id] → qualifier = id)
       ∧ is_maximizer qs refs qualifier
       ∧ qs' = qs ∖ {[q_v]} ∪ {[q_v +:+ pretty qualifier]})
  ∧ (∀ qs refs g, qs ≠ ∅ → refs ≠ [] →
       ∃ qualifier g', choose_qualifier W qs refs g = Ok (qualifier, g'))
  ∧ (q_gram_dice_sim example_record {[ "he"; "er"; "re" ]} = Ok (2 # 6)%Q
     ∧ (2 # 6 == 1 / 3)%Q
     ∧ q_gram_dice_sim example_record {[ "in"; "qu"; "zx" ]} = Ok (0 # 6)%Q
     ∧ (∀ g, choose_qualifier W example_record example_refs g
               = Ok (4%nat, (randbelow W 1 g).2))
     ∧ ∀ s nv lr g, ∃ g',
         harden_with_vah_ref_sets W (example_self s nv lr)
           [("r1", example_record)] example_ledger g
         = Ok (([("r1", {[ "th4"; "er"; "xy" ]})],
                {[ "th4" := 1; "er" := 1; "xy" := 1 ]}), g')).
Proof.
  intros HW. split; [|split].
  - intros self table refs qs m mp q_v g qs' m' mp' g' Ht Hr Hnd Hrun.
    apply harden_q_v_ok in Hrun
      as (table' & refs' & qualifier & Ht' & Hr' & Hq & _ & -> & _).
    rewrite Ht in Ht'. injection Ht' as <-.
    rewrite Hr in Hr'. injection Hr' as <-.
    apply choose_qualifier_spec in Hq as (max_keys & Hmax & Hnd' & Hpick & _);
      [|done].
    exists qualifier, max_keys.
    split; [done|]. split; [done|]. split; [done|]. split; [|split; [|done]].
    + intros id ->. simpl in Hpick.
      apply list_elem_of_lookup_2, list_elem_of_singleton in Hpick. done.
    + apply Hmax. by eapply list_elem_of_lookup_2.
  - intros qs refs g Hqs Hrefs. by apply choose_qualifier_total.
  - split; [by vm_compute|]. split; [done|]. split; [by vm_compute|].
    split; [intros g; by apply example_choice|].
    intros s nv lr g. by apply example_run.
Qed.

(** ** Determinism *)

Lemma for_each_rand_ext {W A S} (body1 body2 : S → A → rand W S) (l : list A) s g :
  (∀ s x g, body1 s x g = body2 s x g) →
  for_each l body1 s g = for_each l body2 s g.
Proof.
  intros Hext. revert s g. induction l as [|x l IH]; intros s g; [done|].
  cbn [for_each]. unfold mbind, rand_bind. rewrite Hext.
  destruct (body2 s x g) as [[s1 g1]|e]; [apply IH | done].
Qed.

(** C3. The hardened output, the ledger and the state the generator is
    left in are a function of the secret seed, the vulnerable q-grams, the
    reference-index table, the database and the ledger: the state of the
    generator at the call has no part in it, since the call reseeds, nor
    have the other fields of the object. The same holds for reference-set
    generation followed by hardening: two runs on the same inputs give the
    same result whatever state the generator was in. Sets are enumerated in
    the order the runtime [W] fixes. *)
Theorem harden_deterministic W :
  (∀ self1 self2 data_dict q_gram_f_dist g1 g2,
     secret_seed self1 = secret_seed self2 →
     vuln_q_grams self1 = vuln_q_grams self2 →
     indexed_ref_sets self1 = indexed_ref_sets self2 →
     harden_with_vah_ref_sets W self1 data_dict q_gram_f_dist g1
     = harden_with_vah_ref_sets W self2 data_dict q_gram_f_dist g2)
  ∧ (∀ self fuel pub_db_q_gram_sets data_dict q_gram_f_dist g1 g2,
       (self' ← generate_reference_sets W self fuel pub_db_q_gram_sets;
        harden_with_vah_ref_sets W self' data_dict q_gram_f_dist) g1
       = (self' ← generate_reference_sets W self fuel pub_db_q_gram_sets;
          harden_with_vah_ref_sets W self' data_dict q_gram_f_dist) g2).
Proof.
  split.
  - intros self1 self2 data m g1 g2 Hseed Hv Ht.
    unfold harden_with_vah_ref_sets, mbind at 1 3, rand_bind, seed.
    rewrite Hseed. unfold mbind, rand_bind.
    rewrite (for_each_rand_ext (harden_record W self1) (harden_record W self2));
      [done|].
    intros [[[d m0] mp] n] [rec_id qs] g. unfold harden_record. rewrite Hv.
    case_decide; [|done]. unfold mbind, rand_bind.
    rewrite (for_each_rand_ext (harden_q_v W self1) (harden_q_v W self2));
      [done|].
    intros [[qs0 m1] mp1] q_v g0. unfold harden_q_v. by rewrite Ht.
  - intros self fuel pub data m g1 g2.
    assert (generate_reference_sets W self fuel pub g1
            = generate_reference_sets W self fuel pub g2) as Hgen.
    { by unfold generate_reference_sets, sample_reference_sets,
        mbind, rand_bind, seed. }
    unfold mbind, rand_bind. by rewrite Hgen.
Qed.

(** ** Where the code departs from the design document *)

(** An empty pool gives the loop over its chunks no turn, whatever the
    state of the generator: the entry of the q-gram stays empty. *)
Lemma sample_q_v_empty_pool W self fuel reference_sets total q_v g :
  RuntimeOK W → l_r self ≠ 0 →
  sample_q_v W self fuel (reference_sets, total) (q_v, ∅) g
  = Ok ((dict_set reference_sets q_v [], (total + 0)%nat), g).
Proof.
  intros HW Hlr. unfold sample_q_v.
  assert (set_iter W ∅ = []) as ->.
  { apply Permutation_nil_r. by rewrite (set_iter_perm W HW), elements_empty. }
  assert (py_range (length (@nil string)) (l_r self) = Ok []) as ->.
  { unfold py_range. rewrite decide_False by done.
    case_decide; [done|]. simpl. by rewrite Nat.div_small by lia. }
  done.
Qed.

(** With no reference set registered under [q_v] the hardener has no
    first item to take the maximum from. *)
Lemma harden_q_v_no_reference_set W self table qs m mp q_v g :
  indexed_ref_sets self = Some table →
  dict_get table q_v = Some [] →
  harden_q_v W self (qs, m, mp) q_v g = Raise IndexError.
Proof.
  intros Ht Hr. unfold harden_q_v, mbind, rand_bind, lift, dict_index.
  rewrite Ht. simpl. by rewrite Hr.
Qed.

(** C5. A vulnerable q-gram whose co-occurrence pool is empty gets no
    reference set: the loop over the chunks of the pool has no turn, so the
    fallback padding is never reached and the entry of the q-gram stays
    empty; and with no reference set under a q-gram the hardener fails with
    an [IndexError] at [sorted_items[0]]. So it is when "th" occurs in the
    public database only on its own: the table has an empty entry for it,
    and hardening a record that holds "th" raises. *)
Theorem empty_pool_has_no_reference_set :
  (∀ W self fuel reference_sets total q_v g,
     RuntimeOK W → l_r self ≠ 0 →
     sample_q_v W self fuel (reference_sets, total) (q_v, ∅) g
     = Ok ((dict_set reference_sets q_v [], (total + 0)%nat), g))
  ∧ (∀ W self table qs m mp q_v g,
       indexed_ref_sets self = Some table →
       dict_get table q_v = Some [] →
       harden_q_v W self (qs, m, mp) q_v g = Raise IndexError)
  ∧ ∃ self' g',
      generate_reference_sets counter_runtime sampler_self 10
        [("p1", {[ "th" ]})] 0%nat
        = Ok (self', g')
      ∧ indexed_ref_sets self' = Some [("th", [])]
      ∧ ∀ g, harden_with_vah_ref_sets counter_runtime self'
               [("r1", {[ "th"; "er" ]})] {[ "th" := 1; "er" := 1 ]} g
             = Raise IndexError.
Proof.
  split; [|split].
  - intros W self fuel rs total q_v g HW Hlr. by apply sample_q_v_empty_pool.
  - intros W self table qs m mp q_v g Ht Hr.
    by eapply harden_q_v_no_reference_set.
  - eexists _, _. split; [by vm_compute|]. split; [done|].
    intros g. by vm_compute.
Qed.

Lemma insert_asc_length (x : string * Z) (l : list (string * Z)) :
  length (insert_asc x l) = S (length l).
Proof.
  induction l as [|y l IH]; simpl; [done|].
  case_decide; simpl; [done | by rewrite IH].
Qed.

Lemma sorted_asc_length (l : list (string * Z)) :
  length (sorted_asc l) = length l.
Proof.
  induction l as [|x l IH]; simpl; [done|].
  by rewrite insert_asc_length, IH.
Qed.

Lemma last_elem_of_drop {A} (l : list A) (k : nat) (x : A) :
  last l = Some x → (k < length l)%nat → x ∈ drop k l.
Proof.
  intros Hlast Hk. rewrite last_lookup in Hlast.
  apply list_elem_of_lookup. exists (pred (length l) - k)%nat.
  rewrite lookup_drop, <- Hlast. f_equal. lia.
Qed.

(** Whenever some but not all q-grams are asked for, the most frequent
    q-gram is returned in both lists. *)
Lemma get_q_grams_to_be_hardened_overlap (q_gram_dict : list (string * Z)) (N : Z) :
  0 < N < Z.of_nat (length q_gram_dict) →
  ∃ x, x ∈ (get_q_grams_to_be_hardened q_gram_dict N).1
       ∧ x ∈ (get_q_grams_to_be_hardened q_gram_dict N).2.
Proof.
  intros HN. unfold get_q_grams_to_be_hardened, slice_from. simpl.
  pose proof (sorted_asc_length q_gram_dict) as Hlen.
  destruct (last (sorted_asc q_gram_dict)) as [[x c]|] eqn:Hlast.
  2:{ apply last_None in Hlast. rewrite Hlast in Hlen. simpl in Hlen. lia. }
  exists x. rewrite decide_True by lia. rewrite decide_False by lia.
  split; apply list_elem_of_fmap; exists (x, c); (split; [done|]);
    apply last_elem_of_drop; try done; lia.
Qed.

(** C10. The list returned as the non-vulnerable pool is the sorted list
    without its [vuln_q_gram_count] least frequent q-grams, not without the
    most frequent ones: with counts aa:1, bb:2, cc:3 and a count of one,
    "cc" is returned as vulnerable and is in the pool returned as
    non-vulnerable as well, while "aa" is in neither; and whenever some but
    not all q-grams are asked for, the two lists share a q-gram. *)
Theorem non_vulnerable_pool_holds_vulnerable :
  get_q_grams_to_be_hardened [("aa", 1); ("bb", 2); ("cc", 3)] 1
    = (["cc"], ["bb"; "cc"])
  ∧ ∀ (q_gram_dict : list (string * Z)) (N : Z),
      0 < N < Z.of_nat (length q_gram_dict) →
      ∃ x, x ∈ (get_q_grams_to_be_hardened q_gram_dict N).1
           ∧ x ∈ (get_q_grams_to_be_hardened q_gram_dict N).2.
Proof.
  split; [reflexivity|].
  intros q_gram_dict N HN.
  destruct (get_q_grams_to_be_hardened_overlap q_gram_dict N HN) as (x & Hv & Hn).
  exists x. by split.
Qed.

(** * Instances on the concrete runtime *)

(** Coverage on the example record: the run returns and "th" is gone. *)
Lemma harden_leaves_no_vulnerable_witness :
  harden_with_vah_ref_sets counter_runtime (example_self 7 [] 3)
    [("r1", example_record)] example_ledger 0%nat
  = Ok (([("r1", {[ "th4"; "er"; "xy" ]})],
         {[ "th4" := 1; "er" := 1; "xy" := 1 ]}), 8%nat)
  ∧ Forall2 (record_hardened (example_self 7 [] 3))
      [("r1", example_record)] [("r1", {[ "th4"; "er"; "xy" ]})].
Proof.
  split; [vm_compute; reflexivity|].
  apply (harden_leaves_no_vulnerable counter_runtime (example_self 7 [] 3) 2
           [("r1", example_record)] example_ledger 0%nat
           [("r1", {[ "th4"; "er"; "xy" ]})]
           {[ "th4" := 1; "er" := 1; "xy" := 1 ]} 8%nat).
  - exact counter_runtime_ok.
  - intros x Hx. simpl in Hx. apply elem_of_singleton in Hx.
    rewrite Hx. reflexivity.
  - apply NoDup_singleton.
  - vm_compute. reflexivity.
Defined.

(** Conservation of the ledger total on the example record. *)
Lemma harden_conserves_ledger_total_witness :
  ledger_total example_ledger = 3
  ∧ ledger_total {[ "th4" := 1; "er" := 1; "xy" := 1 ]} = ledger_total example_ledger.
Proof.
  split; [vm_compute; reflexivity|].
  apply (proj1 harden_conserves_ledger_total counter_runtime
           (example_self 7 [] 3) [("r1", example_record)] example_ledger 0%nat
           [("r1", {[ "th4"; "er"; "xy" ]})]
           {[ "th4" := 1; "er" := 1; "xy" := 1 ]} 8%nat).
  vm_compute. reflexivity.
Defined.

(** Determinism on the example record: another generator state and other values of
    the fields the hardener does not read. *)
Lemma harden_deterministic_witness :
  harden_with_vah_ref_sets counter_runtime (example_self 7 [] 3)
    [("r1", example_record)] example_ledger 0%nat
  = harden_with_vah_ref_sets counter_runtime (example_self 7 ["zz"] 5)
      [("r1", example_record)] example_ledger 99%nat.
Proof.
  apply (proj1 (harden_deterministic counter_runtime)); reflexivity.
Defined.

(** Distinct indices for a pool of four q-grams and [l_r = 3]: two
    reference sets. *)
Lemma generate_indices_distinct_witness :
  ∃ self' g',
    generate_reference_sets counter_runtime sampler_self 10 sampler_public 0%nat
      = Ok (self', g')
    ∧ ∃ reference_sets T g1 table,
        sample_reference_sets counter_runtime sampler_self 10 sampler_public 0%nat
          = Ok ((reference_sets, T), g1)
        ∧ T = ref_set_count reference_sets
        ∧ indexed_ref_sets self' = Some table
        ∧ indexes reference_sets table
        ∧ NoDup (table_indices table)
        ∧ Forall (λ i, (i < T * size (vuln_q_grams sampler_self))%nat)
            (table_indices table)
        ∧ length table = size (vuln_q_grams sampler_self)
        ∧ NoDup table.*1
        ∧ (∀ q_v, q_v ∈ table.*1 ↔ q_v ∈ vuln_q_grams sampler_self)
        ∧ length (table_indices table) = T.
Proof.
  eexists _, _. split; [vm_compute; reflexivity|].
  eapply (generate_indices_distinct counter_runtime sampler_self 10
            sampler_public 0%nat).
  - exact counter_runtime_ok.
  - vm_compute. reflexivity.
Defined.

(** The size of the reference sets on the same run. *)
Lemma reference_sets_have_size_l_r_witness :
  is_ok (generate_reference_sets counter_runtime sampler_self 10
           sampler_public 0%nat) = true
  ∧ match generate_reference_sets counter_runtime sampler_self 10
            sampler_public 0%nat with
    | Ok (self', _) =>
        ∃ reference_sets T g1 table,
          sample_reference_sets counter_runtime sampler_self 10 sampler_public 0%nat
            = Ok ((reference_sets, T), g1)
          ∧ indexed_ref_sets self' = Some table
          ∧ (∀ q_v refs r, (q_v, refs) ∈ reference_sets → r ∈ refs →
               Z.of_nat (size r) = l_r sampler_self)
          ∧ (∀ q_v d i r, (q_v, d) ∈ table → (i, r) ∈ d →
               Z.of_nat (size r) = l_r sampler_self)
    | Raise e => pad_failure e ∧ e ≠ AssertionError ref_set_length
    end.
Proof.
  split; [vm_compute; reflexivity|].
  apply (reference_sets_have_size_l_r counter_runtime sampler_self 10
           sampler_public 0%nat).
  exact counter_runtime_ok.
Defined.

(** The scorer on the sets of the example. *)
Lemma q_gram_dice_sim_spec_witness :
  ∃ q, q_gram_dice_sim example_record {[ "he"; "er"; "re" ]} = Ok q
       ∧ (q == dice_quotient example_record {[ "he"; "er"; "re" ]})%Q
       ∧ (0 <= q)%Q ∧ (q <= 1)%Q
       ∧ ((q == 1)%Q ↔ example_record = {[ "he"; "er"; "re" ]})
       ∧ ((q == 0)%Q ↔ example_record ## ({[ "he"; "er"; "re" ]} : gset string)).
Proof.
  apply (proj2 (proj2 (q_gram_dice_sim_spec example_record {[ "he"; "er"; "re" ]}))).
  intros [Hempty _]. apply (f_equal size) in Hempty.
  vm_compute in Hempty. discriminate Hempty.
Defined.

(** The choice of the qualifier on the example record. *)
Lemma hardener_picks_maximizer_witness :
  ∃ qualifier max_keys,
    (∀ id, id ∈ max_keys ↔ is_maximizer example_record example_refs id)
    ∧ NoDup max_keys
    ∧ max_keys !! (randbelow counter_runtime (length max_keys) 7%nat).1
        = Some qualifier
    ∧ (∀ id, max_keys = [id] → qualifier = id)
    ∧ is_maximizer example_record example_refs qualifier
    ∧ ({[ "th4"; "er"; "xy" ]} : gset string)
        = example_record ∖ {[ "th" ]} ∪ {[ "th" +:+ pretty qualifier ]}.
Proof.
  apply (proj1 (hardener_picks_maximizer counter_runtime counter_runtime_ok)
           (example_self 7 [] 3) [("th", example_refs)] example_refs
           example_record example_ledger [] "th" 7%nat
           {[ "th4"; "er"; "xy" ]} {[ "th4" := 1; "er" := 1; "xy" := 1 ]}
           (note_mapping "th" "th4" []) 8%nat).
  - reflexivity.
  - reflexivity.
  - change (NoDup [4%nat; 9%nat]). apply NoDup_cons.
    split; [|apply NoDup_singleton].
    intros H. apply list_elem_of_singleton in H. discriminate H.
  - vm_compute. reflexivity.
Defined.


(** * Further properties of the hardener *)

Lemma ledger_move_total (q_v replacement : string) (m : gmap string Z) c :
  m !! q_v = Some c → ∃ m', ledger_move q_v replacement m = Ok m'.
Proof.
  intros Hc. unfold ledger_move. rewrite Hc.
  set (d1 := if decide (c - 1 = 0) then delete q_v (<[q_v:=c - 1]> m)
             else <[q_v:=c - 1]> m).
  destruct (decide (is_Some (d1 !! replacement))) as [[c' Hc']|Hnone].
  - rewrite Hc'. eauto.
  - rewrite lookup_insert_eq. eauto.
Qed.

Lemma occurrences_cons x rec records :
  occurrences x (rec :: records)
  = ((if decide (x ∈ rec.2) then 1 else 0) + occurrences x records)%nat.
Proof.
  unfold occurrences. rewrite filter_cons.
  by destruct (decide (x ∈ rec.2)).
Qed.

(** No record of [data_dict] holds a vulnerable q-gram. *)
Lemma harden_records_untouched W self records st g :
  (∀ rec, rec ∈ records → rec.2 ## vuln_q_grams self) →
  for_each records (harden_record W self) st g = Ok (st, g).
Proof.
  revert st g. induction records as [|[rec_id qs] records IH]; intros st g Hdisj.
  - done.
  - cbn [for_each]. unfold mbind, rand_bind.
    assert (harden_record W self st (rec_id, qs) g = Ok (st, g)) as ->.
    { unfold harden_record. destruct st as [[[d m] mp] n].
      rewrite decide_False; [done|].
      assert (qs ∩ vuln_q_grams self = ∅) as ->.
      { specialize (Hdisj (rec_id, qs) ltac:(left)). simpl in Hdisj. set_solver. }
      rewrite size_empty. lia. }
    apply IH. intros rec Hrec. apply Hdisj. by right.
Qed.

(** The loop over the vulnerable q-grams of one record, when the ledger
    has a count for each of them: it ends normally, leaving counts for the
    records still to come, or it meets a q-gram without a reference set. *)
Lemma harden_vuln_qs_outcome W self (q : nat) table (need : string → nat) l :
  RuntimeOK W →
  indexed_ref_sets self = Some table →
  (∀ x, x ∈ vuln_q_grams self → String.length x = q) →
  NoDup l →
  (∀ x, x ∈ l → x ∈ vuln_q_grams self ∧ is_Some (dict_get table x)) →
  ∀ qs m mp g,
  (∀ x, x ∈ l → x ∈ qs) →
  (∀ x, x ∈ vuln_q_grams self →
     (0 < (if decide (x ∈ l) then 1 else 0) + need x)%nat →
     ∃ c, m !! x = Some c
          ∧ Z.of_nat ((if decide (x ∈ l) then 1 else 0) + need x) ≤ c) →
  match for_each l (harden_q_v W self) (qs, m, mp) g with
  | Ok ((_, m', _), _) =>
      ∀ x, x ∈ vuln_q_grams self → (0 < need x)%nat →
        ∃ c, m' !! x = Some c ∧ Z.of_nat (need x) ≤ c
  | Raise e => e = IndexError ∧ ∃ x, x ∈ l ∧ dict_get table x = Some []
  end.
Proof.
  intros HW Ht Hlen. induction l as [|q_v l IH]; intros Hnd Hl qs m mp g Hin Hm.
  - simpl. intros x Hx Hneed. destruct (Hm x Hx) as (c & Hc & Hle).
    + rewrite decide_False by apply not_elem_of_nil. lia.
    + rewrite decide_False in Hle by apply not_elem_of_nil. eauto.
  - apply NoDup_cons in Hnd as [Hq_l Hnd].
    destruct (Hl q_v ltac:(left)) as [Hqv [refs Hrefs]].
    cbn [for_each]. unfold mbind, rand_bind.
    destruct refs as [|ref refs].
    { rewrite (harden_q_v_no_reference_set W self table) by done.
      split; [done|]. exists q_v. split; [left | done]. }
    destruct (choose_qualifier_total W qs (ref :: refs) g HW)
      as (qualifier & g1 & Hch); [|done|].
    { specialize (Hin q_v ltac:(left)). set_solver. }
    destruct (Hm q_v Hqv) as (c & Hc & Hle).
    { rewrite decide_True by left. lia. }
    rewrite decide_True in Hle by left.
    destruct (ledger_move_total q_v (q_v +:+ pretty qualifier) m c Hc) as [m1 Hmove].
    assert (harden_q_v W self (qs, m, mp) q_v g
            = Ok ((qs ∖ {[q_v]} ∪ {[q_v +:+ pretty qualifier]}, m1,
                   note_mapping q_v (q_v +:+ pretty qualifier) mp), g1)) as ->.
    { apply harden_q_v_ok. exists table, (ref :: refs), qualifier.
      repeat split; try done. apply Hin. left. }
    apply ledger_move_spec in Hmove as (c' & Hc' & Hq1 & _ & Hother & _);
      [|apply qualified_ne].
    rewrite Hc in Hc'. injection Hc' as <-.
    cbv beta iota.
    assert (∀ x, x ∈ l → x ∈ qs ∖ {[q_v]} ∪ {[q_v +:+ pretty qualifier]}) as Hin'.
    { intros x Hx. apply elem_of_union_l, elem_of_difference.
      split; [apply Hin; by right|]. intros ->%elem_of_singleton. done. }
    assert (∀ x, x ∈ vuln_q_grams self →
              (0 < (if decide (x ∈ l) then 1 else 0) + need x)%nat →
              ∃ c, m1 !! x = Some c
                   ∧ Z.of_nat ((if decide (x ∈ l) then 1 else 0) + need x) ≤ c)
      as Hm'.
    { intros x Hx Hpos. destruct (decide (x = q_v)) as [->|Hne].
      - rewrite decide_False in Hpos |- * by done. simpl in Hpos |- *.
        exists (c - 1). rewrite Hq1. rewrite decide_False by lia.
        split; [done | lia].
      - assert (x ≠ q_v +:+ pretty qualifier) as Hne'.
        { intros ->. pose proof (qualified_length q_v qualifier) as Hlt.
          rewrite (Hlen _ Hx), (Hlen _ Hqv) in Hlt. lia. }
        rewrite Hother by done.
        destruct (Hm x Hx) as (cx & Hcx & Hlex).
        { destruct (decide (x ∈ q_v :: l)); [lia|].
          destruct (decide (x ∈ l)) as [Hxl|]; [|lia].
          exfalso. set_solver. }
        exists cx. split; [done|].
        destruct (decide (x ∈ l)) as [Hxl|Hxl].
        + rewrite decide_True in Hlex by (by right). done.
        + rewrite decide_False in Hlex; [done|].
          intros [?|?]%elem_of_cons; done. }
    pose proof (IH Hnd (λ x Hx, Hl x (list_elem_of_further _ _ _ Hx))
                  _ m1 (note_mapping q_v (q_v +:+ pretty qualifier) mp) g1
                  Hin' Hm') as Hres.
    destruct (for_each l (harden_q_v W self) _ g1) as [[[[qs2 m2] mp2] g2]|e];
      [done|].
    destruct Hres as (-> & x & Hx & Hempty). split; [done|].
    exists x. split; [by right | done].
Qed.

Lemma harden_records_outcome W self (q : nat) table records :
  RuntimeOK W →
  indexed_ref_sets self = Some table →
  (∀ x, x ∈ vuln_q_grams self → String.length x = q) →
  (∀ x, x ∈ vuln_q_grams self → is_Some (dict_get table x)) →
  ∀ d m mp n g,
  ledger_covers (vuln_q_grams self) m records →
  match for_each records (harden_record W self) (d, m, mp, n) g with
  | Ok _ => True
  | Raise e =>
      e = IndexError
      ∧ ∃ rec x, rec ∈ records ∧ x ∈ rec.2 ∧ x ∈ vuln_q_grams self
                 ∧ dict_get table x = Some []
  end.
Proof.
  intros HW Ht Hlen Hkeys.
  induction records as [|[rec_id qs] records IH]; intros d m mp n g Hcov; [done|].
  cbn [for_each]. unfold mbind, rand_bind. unfold harden_record at 1.
  assert (∀ x, x ∈ set_iter W (qs ∩ vuln_q_grams self)
               ↔ x ∈ qs ∧ x ∈ vuln_q_grams self) as Hiter.
  { intros x. rewrite (set_iter_elem_of W _ _ HW). set_solver. }
  destruct (decide (0 < size (qs ∩ vuln_q_grams self))%nat) as [Hsz|Hsz].
  - unfold mbind, rand_bind.
    pose proof (harden_vuln_qs_outcome W self q table
                  (λ x, occurrences x records)
                  (set_iter W (qs ∩ vuln_q_grams self)) HW Ht Hlen
                  (set_iter_NoDup W _ HW)) as Hinner.
    specialize (Hinner (λ x Hx, conj (proj2 (proj1 (Hiter x) Hx))
                                     (Hkeys x (proj2 (proj1 (Hiter x) Hx))))
                       qs m mp g (λ x Hx, proj1 (proj1 (Hiter x) Hx))).
    assert (∀ x, x ∈ vuln_q_grams self →
      (if decide (x ∈ set_iter W (qs ∩ vuln_q_grams self)) then 1 else 0)%nat
      = (if decide (x ∈ qs) then 1 else 0)%nat) as Hind.
    { intros x Hx. destruct (decide (x ∈ qs)) as [Hq|Hq].
      - rewrite decide_True; [done|]. by apply Hiter.
      - rewrite decide_False; [done|]. rewrite Hiter. tauto. }
    destruct (for_each (set_iter W (qs ∩ vuln_q_grams self)) (harden_q_v W self)
                (qs, m, mp) g) as [[[[qs1 m1] mp1] g1]|e].
    + unfold mret, rand_ret. cbv beta iota.
      pose proof (IH (dict_set d rec_id qs1) m1 mp1 (S n) g1) as Hrest.
      destruct (for_each records (harden_record W self) _ g1) as [r|e]; [done|].
      destruct Hrest as (-> & rec & x & Hrec & Hx).
      { intros x Hx Hpos. apply Hinner; [|done|done].
        intros y Hy Hpos'. rewrite (Hind y Hy) in Hpos' |- *.
        specialize (Hcov y Hy). rewrite occurrences_cons in Hcov.
        simpl in Hcov. apply Hcov. done. }
      split; [done|]. exists rec, x. split; [by right | done].
    + destruct Hinner as (-> & x & Hx & Hempty).
      { intros y Hy Hpos'. rewrite (Hind y Hy) in Hpos' |- *.
        specialize (Hcov y Hy). rewrite occurrences_cons in Hcov.
        simpl in Hcov. apply Hcov. done. }
      split; [done|]. exists (rec_id, qs), x. apply Hiter in Hx as [??].
      split; [left | done].
  - unfold mret, rand_ret. cbv beta iota.
    pose proof (IH d m mp n g) as Hrest.
    destruct (for_each records (harden_record W self) (d, m, mp, n) g) as [r|e];
      [done|].
    destruct Hrest as (-> & rec & x & Hrec & Hx).
    { intros x Hx Hpos. specialize (Hcov x Hx). rewrite occurrences_cons in Hcov.
      simpl in Hcov. rewrite decide_False in Hcov.
      - apply Hcov. done.
      - intros Hq. apply Hsz.
        assert (x ∈ qs ∩ vuln_q_grams self) as Hin by set_solver.
        destruct (decide (size (qs ∩ vuln_q_grams self) = 0%nat)) as [Hz|]; [|lia].
        apply size_empty_iff in Hz. set_solver. }
    split; [done|]. exists rec, x. split; [by right | done].
Qed.

(** X1. On a database in which no record holds a vulnerable q-gram the
    hardener returns the records and the ledger as they were, whatever the
    table is (it may not have been generated); the generator is left
    seeded with the secret seed and no random number is drawn. *)
Theorem harden_without_vulnerable_is_identity W self data_dict q_gram_f_dist g :
  (∀ rec, rec ∈ data_dict → rec.2 ## vuln_q_grams self) →
  harden_with_vah_ref_sets W self data_dict q_gram_f_dist g
  = Ok ((data_dict, q_gram_f_dist), rng_seed W (secret_seed self)).
Proof.
  intros Hdisj. unfold harden_with_vah_ref_sets, mbind at 1, rand_bind, seed.
  unfold mbind, rand_bind.
  by rewrite harden_records_untouched.
Qed.

Lemma set_iter_nonempty W (X : gset string) :
  RuntimeOK W → (0 < size X)%nat → ∃ x l, set_iter W X = x :: l.
Proof.
  intros HW Hsz. rewrite <- (set_iter_length W X HW) in Hsz.
  destruct (set_iter W X) as [|x l]; [simpl in Hsz; lia | eauto].
Qed.

Lemma harden_records_never_generated W self records st g :
  RuntimeOK W →
  indexed_ref_sets self = None →
  (∃ rec, rec ∈ records ∧ ¬ rec.2 ## vuln_q_grams self) →
  for_each records (harden_record W self) st g = Raise TypeError.
Proof.
  intros HW Ht. revert st g.
  induction records as [|[rec_id qs] records IH]; intros st g (rec & Hrec & Hv).
  { by apply elem_of_nil in Hrec. }
  cbn [for_each]. unfold mbind, rand_bind.
  destruct (decide (qs ## vuln_q_grams self)) as [Hdisj|Hndisj].
  - assert (harden_record W self st (rec_id, qs) g = Ok (st, g)) as ->.
    { unfold harden_record. destruct st as [[[d m] mp] n].
      rewrite decide_False; [done|].
      assert (qs ∩ vuln_q_grams self = ∅) as -> by set_solver.
      rewrite size_empty. lia. }
    apply IH. exists rec. split; [|done].
    apply elem_of_cons in Hrec as [->|?]; [done | done].
  - assert (harden_record W self st (rec_id, qs) g = Raise TypeError) as ->; [|done].
    unfold harden_record. destruct st as [[[d m] mp] n].
    assert (0 < size (qs ∩ vuln_q_grams self))%nat as Hsz.
    { destruct (decide (size (qs ∩ vuln_q_grams self) = 0%nat)) as [Hz|]; [|lia].
      apply size_empty_iff in Hz. set_solver. }
    rewrite decide_True by done.
    destruct (set_iter_nonempty W _ HW Hsz) as (x & l & ->).
    cbn [for_each]. unfold mbind, rand_bind, harden_q_v.
    unfold mbind, rand_bind, lift. by rewrite Ht.
Qed.



(** What holds of every record after a run, from what one turn of the
    loop over [vuln_qs] establishes. *)
Lemma harden_run_records W self (R : gset string → gset string → Prop)
    data_dict q_gram_f_dist g data_dict' q_gram_f_dist' g' :
  NoDup data_dict.*1 →
  (∀ qs, qs ∩ vuln_q_grams self = ∅ → R qs qs) →
  (∀ qs m mp g qs' m' mp' g',
     for_each (set_iter W (qs ∩ vuln_q_grams self)) (harden_q_v W self)
       (qs, m, mp) g = Ok ((qs', m', mp'), g') →
     R qs qs') →
  harden_with_vah_ref_sets W self data_dict q_gram_f_dist g
    = Ok ((data_dict', q_gram_f_dist'), g') →
  Forall2 (λ rec rec', rec'.1 = rec.1 ∧ R rec.2 rec'.2) data_dict data_dict'.
Proof.
  intros Hnd Hrefl Hloop Hrun. unfold harden_with_vah_ref_sets in Hrun.
  apply rand_bind_ok in Hrun as ([] & g0 & _ & Hrun).
  apply rand_bind_ok in Hrun as ([[[d1 m1] mp1] n1] & g1 & Hrecs & Hret).
  apply rand_ret_ok in Hret as [[= <- <-] _].
  apply (for_each_rand_ind
           (λ pre (st : list (string * gset string) * gmap string Z
                        * list (string * list string) * nat),
              ∃ pre', Forall2 (λ rec rec', rec'.1 = rec.1 ∧ R rec.2 rec'.2) pre pre'
                      ∧ st.1.1.1 = pre' ++ drop (length pre) data_dict))
    in Hrecs.
  - destruct Hrecs as (pre' & HF & Hd). simpl in Hd.
    by rewrite drop_all, app_nil_r in Hd; subst.
  - exists []. by split; [constructor|].
  - intros pre [rec_id qs] post [[[d2 m2] mp2] n2] g2 [[[d3 m3] mp3] n3] g3
      Hl (pre' & HF & Hd) Hstep. simpl in Hd.
    rewrite Hl in Hd. rewrite drop_app_length in Hd.
    assert (pre'.*1 = pre.*1) as Hkeys.
    { clear -HF. induction HF as [|x y ?? (Hk & _) _ IH]; [done|].
      rewrite !fmap_cons. by rewrite IH, Hk. }
    assert (rec_id ∉ pre'.*1) as Hfresh.
    { rewrite Hkeys. rewrite Hl, fmap_app, fmap_cons in Hnd.
      apply NoDup_app in Hnd as (_ & Hnd & _).
      intros Hin. apply (Hnd _ Hin). left. }
    unfold harden_record in Hstep.
    destruct (decide (0 < size (qs ∩ vuln_q_grams self))%nat) as [Hsz|Hsz].
    + apply rand_bind_ok in Hstep as ([[qs2 m4] mp4] & g4 & Hinner & Hret).
      apply rand_ret_ok in Hret as [[= <- <- <- <-] _].
      exists (pre' ++ [(rec_id, qs2)]). split.
      { apply Forall2_app; [done|]. constructor; [|constructor].
        split; [done|]. simpl. by eapply Hloop. }
      simpl. rewrite Hl, (cons_middle (rec_id, qs) pre post), app_assoc,
        drop_app_length, <- app_assoc. simpl.
      rewrite Hd. by apply dict_set_middle.
    + apply rand_ret_ok in Hstep as [[= <- <- <- <-] _].
      exists (pre' ++ [(rec_id, qs)]). split.
      { apply Forall2_app; [done|]. constructor; [|constructor].
        split; [done|]. simpl. apply Hrefl.
        apply leibniz_equiv, size_empty_iff. lia. }
      simpl. rewrite Hl, (cons_middle (rec_id, qs) pre post), app_assoc,
        drop_app_length, <- app_assoc. simpl. done.
Qed.

Lemma string_app_inj_length (x y s t : string) :
  String.length x = String.length y → x +:+ s = y +:+ t → x = y.
Proof.
  revert y. induction x as [|a x IH]; intros [|b y] Hlen Heq; try done.
  simpl in *. injection Heq as -> Heq. f_equal. apply IH; [lia | done].
Qed.

Lemma tokens_of_elem (q : nat) l ks t :
  (∀ x, x ∈ l → String.length x = q) →
  t ∈ tokens_of l ks → ∃ x (k : nat), x ∈ l ∧ t = x +:+ pretty k ∧ (q < String.length t)%nat.
Proof.
  intros Hlen (x & k & -> & Hx & _)%elem_of_zip_with.
  exists x, k. split; [done|]. split; [done|].
  rewrite <- (Hlen x Hx). apply qualified_length.
Qed.

Lemma tokens_of_NoDup (q : nat) l ks :
  (∀ x, x ∈ l → String.length x = q) → NoDup l → NoDup (tokens_of l ks).
Proof.
  intros Hlen Hnd. revert ks.
  induction Hnd as [|x l Hx Hnd IH]; intros ks; [constructor|].
  destruct ks as [|k ks]; [constructor|]. simpl. constructor.
  - intros (y & k' & Heq & Hy & _)%elem_of_zip_with.
    apply string_app_inj_length in Heq.
    + by subst.
    + rewrite (Hlen x ltac:(left)), (Hlen y ltac:(by right)). done.
  - apply IH. intros y Hy. apply Hlen. by right.
Qed.

Lemma harden_vuln_qs_tokens W self (q : nat) l :
  (∀ x, x ∈ l → String.length x = q) →
  NoDup l →
  ∀ qs m mp g qs' m' mp' g',
  for_each l (harden_q_v W self) (qs, m, mp) g = Ok ((qs', m', mp'), g') →
  ∃ ks, length ks = length l
        ∧ qs' = (qs ∖ list_to_set l) ∪ list_to_set (tokens_of l ks).
Proof.
  intros Hlen Hnd. induction Hnd as [|q_v l Hq_l Hnd IH];
    intros qs m mp g qs' m' mp' g' Hrun.
  - apply rand_ret_ok in Hrun as [[= <- <- <-] _]. exists []. split; [done|].
    simpl. set_solver.
  - cbn [for_each] in Hrun.
    apply rand_bind_ok in Hrun as ([[qs1 m1] mp1] & g1 & Hstep & Hrun).
    apply harden_q_v_ok in Hstep
      as (table & refs & qualifier & _ & _ & _ & _ & -> & _ & _).
    destruct (IH (λ x Hx, Hlen x (list_elem_of_further _ _ _ Hx))
                _ _ _ _ _ _ _ _ Hrun) as (ks & Hks & ->).
    exists (qualifier :: ks). split; [simpl; lia|].
    assert (q_v +:+ pretty qualifier ∉ l) as Htok.
    { intros Hin. pose proof (qualified_length q_v qualifier) as Hlt.
      rewrite (Hlen _ (list_elem_of_further _ _ _ Hin)),
        (Hlen q_v ltac:(left)) in Hlt. lia. }
    simpl. apply set_eq. intros x.
    rewrite !elem_of_union, !elem_of_difference, !elem_of_union,
      !elem_of_difference, !elem_of_singleton, !elem_of_list_to_set.
    destruct (decide (x = q_v +:+ pretty qualifier)) as [->|Hne]; [tauto|].
    tauto.
Qed.

Lemma harden_vuln_qs_size W self (q : nat) (qs : gset string) m mp g qs' m' mp' g' :
  RuntimeOK W →
  (∀ x, x ∈ qs → String.length x = q) →
  for_each (set_iter W (qs ∩ vuln_q_grams self)) (harden_q_v W self)
    (qs, m, mp) g = Ok ((qs', m', mp'), g') →
  size qs' = size qs.
Proof.
  intros HW Hlen Hrun.
  set (l := set_iter W (qs ∩ vuln_q_grams self)) in *.
  assert (∀ x, x ∈ l → x ∈ qs) as Hsub.
  { intros x Hx%(set_iter_elem_of W _ _ HW). set_solver. }
  pose proof (set_iter_NoDup W (qs ∩ vuln_q_grams self) HW) as Hnd. fold l in Hnd.
  destruct (harden_vuln_qs_tokens W self q l (λ x Hx, Hlen x (Hsub x Hx)) Hnd
              _ _ _ _ _ _ _ _ Hrun) as (ks & Hks & ->).
  assert (NoDup (tokens_of l ks)) as Hndt.
  { apply (tokens_of_NoDup q); [|done]. intros x Hx. by apply Hlen, Hsub. }
  rewrite size_union.
  - rewrite size_difference by (intros x ?%elem_of_list_to_set; by apply Hsub).
    rewrite !size_list_to_set by done.
    unfold tokens_of. rewrite length_zip_with.
    assert (length l ≤ size qs)%nat.
    { rewrite <- (size_list_to_set (C := gset string) l) by done.
      apply subseteq_size. intros x ?%elem_of_list_to_set. by apply Hsub. }
    lia.
  - intros x [Hx _]%elem_of_difference Ht%elem_of_list_to_set.
    apply (tokens_of_elem q) in Ht as (y & k & _ & _ & Hlt).
    + rewrite (Hlen x Hx) in Hlt. lia.
    + intros z Hz. by apply Hlen, Hsub.
Qed.

(** X2. Called before [generate_reference_sets] (the table is still
    [None]) on a database in which some record holds a vulnerable q-gram,
    the hardener raises a [TypeError]. *)
Theorem harden_before_generate_raises W self data_dict q_gram_f_dist g :
  RuntimeOK W →
  indexed_ref_sets self = None →
  (∃ rec, rec ∈ data_dict ∧ ¬ rec.2 ## vuln_q_grams self) →
  harden_with_vah_ref_sets W self data_dict q_gram_f_dist g = Raise TypeError.
Proof.
  intros HW Ht Hv. unfold harden_with_vah_ref_sets, mbind at 1, rand_bind, seed.
  unfold mbind, rand_bind.
  by rewrite (harden_records_never_generated W self data_dict _ _ HW Ht Hv).
Qed.

(** X3. When the table has an entry for every vulnerable q-gram and the
    ledger has, for each vulnerable q-gram, a count of at least the number
    of records that hold it, the hardener returns, unless a record holds a
    vulnerable q-gram whose entry is empty, and then it raises an
    [IndexError]: it raises no assertion and no [KeyError]. *)
Theorem harden_returns_unless_no_reference_set
    W self (q : nat) table data_dict q_gram_f_dist g :
  RuntimeOK W →
  (∀ x, x ∈ vuln_q_grams self → String.length x = q) →
  indexed_ref_sets self = Some table →
  (∀ x, x ∈ vuln_q_grams self → is_Some (dict_get table x)) →
  ledger_covers (vuln_q_grams self) q_gram_f_dist data_dict →
  (∃ r, harden_with_vah_ref_sets W self data_dict q_gram_f_dist g = Ok r)
  ∨ (harden_with_vah_ref_sets W self data_dict q_gram_f_dist g = Raise IndexError
     ∧ ∃ rec x, rec ∈ data_dict ∧ x ∈ rec.2 ∧ x ∈ vuln_q_grams self
                ∧ dict_get table x = Some []).
Proof.
  intros HW Hlen Ht Hkeys Hcov.
  unfold harden_with_vah_ref_sets, mbind at 1 3, rand_bind, seed.
  unfold mbind, rand_bind.
  pose proof (harden_records_outcome W self q table data_dict HW Ht Hlen Hkeys
                data_dict q_gram_f_dist [] 0%nat (rng_seed W (secret_seed self))
                Hcov) as Hout.
  destruct (for_each data_dict (harden_record W self) _ _)
    as [[[[[d m] mp] n] g1]|e].
  - left. by eexists.
  - right. destruct Hout as [-> Hex]. done.
Qed.

(** X4. When every q-gram of the database has the same length, a run that
    returns leaves each record with as many members as it had: each
    vulnerable q-gram is replaced by one token, which is new to the record
    and differs from the tokens of the other q-grams. *)
Theorem harden_preserves_record_size
    W self (q : nat) data_dict q_gram_f_dist g data_dict' q_gram_f_dist' g' :
  RuntimeOK W →
  NoDup data_dict.*1 →
  (∀ rec x, rec ∈ data_dict → x ∈ rec.2 → String.length x = q) →
  harden_with_vah_ref_sets W self data_dict q_gram_f_dist g
    = Ok ((data_dict', q_gram_f_dist'), g') →
  Forall2 (λ rec rec', rec'.1 = rec.1 ∧ size rec'.2 = size rec.2)
    data_dict data_dict'.
Proof.
  intros HW Hnd Hlen Hrun.
  apply (harden_run_records W self
           (λ qs qs', (∀ x, x ∈ qs → String.length x = q) → size qs' = size qs))
    in Hrun; [|done|done|].
  - assert (Forall (λ rec, ∀ x, x ∈ rec.2 → String.length x = q) data_dict) as Hall.
    { apply Forall_forall. intros rec Hrec x. by apply Hlen. }
    clear Hlen Hnd. induction Hrun as [|rec rec' l l' [Hid Hsz] _ IH];
      [constructor|].
    apply Forall_cons in Hall as [Hrec Hall].
    constructor; [|by apply IH]. split; [done | by apply Hsz].
  - intros qs m mp g0 qs' m' mp' g1 Hloop Hqs.
    by eapply harden_vuln_qs_size.
Qed.


(** * Further properties of the reference-set generator *)

Lemma dict_get_fmap_key {V} (f : string → V) (keys : list string) (k : string) :
  k ∈ keys → dict_get ((λ k, (k, f k)) <$> keys) k = Some (f k).
Proof.
  induction keys as [|k' keys IH]; [by intros ?%elem_of_nil|].
  intros Hin. cbn [fmap list_fmap dict_get].
  destruct (decide (k' = k)) as [->|Hne]; [done|].
  apply IH. apply elem_of_cons in Hin as [?|?]; [congruence | done].
Qed.

Lemma dict_set_fmap_key {V} (f : string → V) (keys : list string) (k : string) v :
  NoDup keys → k ∈ keys →
  dict_set ((λ k, (k, f k)) <$> keys) k v
  = (λ k', (k', if decide (k' = k) then v else f k')) <$> keys.
Proof.
  induction keys as [|k' keys IH]; [by intros _ ?%elem_of_nil|].
  intros [Hnin Hnd]%NoDup_cons Hin. cbn [fmap list_fmap dict_set].
  destruct (decide (k' = k)) as [->|Hne].
  - f_equal. apply list_fmap_ext. intros i k2 Hk2.
    rewrite decide_False; [done|]. intros Heq. subst k2.
    apply Hnin. by eapply list_elem_of_lookup_2.
  - f_equal. apply IH; [done|].
    apply elem_of_cons in Hin as [?|?]; [congruence | done].
Qed.

Lemma co_occurring_snoc pub rec (q_v : string) :
  co_occurring (pub ++ [rec]) q_v
  = co_occurring pub q_v ∪ (if decide (q_v ∈ rec.2) then rec.2 ∖ {[q_v]} else ∅).
Proof.
  unfold co_occurring. rewrite fmap_app, union_list_app_L. simpl.
  by rewrite (right_id_L ∅ (∪)).
Qed.

Lemma elem_of_co_occurring pub (q_v x : string) :
  x ∈ co_occurring pub q_v
  ↔ ∃ rec, rec ∈ pub ∧ q_v ∈ rec.2 ∧ x ∈ rec.2 ∧ x ≠ q_v.
Proof.
  unfold co_occurring. rewrite elem_of_union_list. split.
  - intros (X & (rec & -> & Hrec)%list_elem_of_fmap & Hx).
    destruct (decide (q_v ∈ rec.2)); [|by apply not_elem_of_empty in Hx].
    exists rec. set_solver.
  - intros (rec & Hrec & Hq & Hx & Hne).
    exists (rec.2 ∖ {[q_v]}). split; [|set_solver].
    apply list_elem_of_fmap. exists rec. by rewrite decide_True.
Qed.

(** The loop over the vulnerable q-grams of one public record. *)
Lemma co_occurrence_loop (qs : gset string) (keys l : list string) :
  NoDup keys → NoDup l → (∀ x, x ∈ l → x ∈ keys) →
  ∀ f : string → gset string,
  for_each l (λ co q_v,
      pool ← dict_index co q_v;
      mret (dict_set co q_v (pool ∪ (qs ∖ {[q_v]}))))
    ((λ k, (k, f k)) <$> keys)
  = Ok ((λ k, (k, if decide (k ∈ l) then f k ∪ (qs ∖ {[k]}) else f k)) <$> keys).
Proof.
  intros Hkeys Hnd. induction Hnd as [|q_v l Hq_l Hnd IH]; intros Hsub f.
  - cbn [for_each]. unfold mret, result_ret.
    apply (f_equal Ok), list_fmap_ext. intros _ k _.
    by destruct (decide (k ∈ [])) as [?%elem_of_nil|].
  - cbn [for_each]. unfold dict_index.
    rewrite dict_get_fmap_key by (apply Hsub; left). simpl.
    rewrite dict_set_fmap_key by (try done; apply Hsub; left).
    rewrite (IH (λ x Hx, Hsub x (list_elem_of_further _ _ _ Hx))).
    apply (f_equal Ok), list_fmap_ext. intros _ k _. simpl.
    destruct (decide (k = q_v)) as [->|Hne].
    + rewrite decide_False by done. by rewrite decide_True by left.
    + destruct (decide (k ∈ l)) as [Hkl|Hkl].
      * by rewrite decide_True by (by right).
      * rewrite decide_False; [done|]. intros [?|?]%elem_of_cons; done.
Qed.

Lemma co_occurrence_pools_eq W self pub :
  RuntimeOK W →
  co_occurrence_pools W self pub
  = Ok ((λ q_v, (q_v, co_occurring pub q_v)) <$> set_iter W (vuln_q_grams self)).
Proof.
  intros HW. unfold co_occurrence_pools.
  set (keys := set_iter W (vuln_q_grams self)).
  assert (NoDup keys) as Hkeys by by apply set_iter_NoDup.
  cut (∀ post pre, for_each post (co_occurrence_record W self)
         ((λ q_v, (q_v, co_occurring pre q_v)) <$> keys)
       = Ok ((λ q_v, (q_v, co_occurring (pre ++ post) q_v)) <$> keys)).
  { intros Hcut. apply (Hcut pub []). }
  induction post as [|[rec_id qs] post IH]; intros pre.
  - by rewrite app_nil_r.
  - cbn [for_each].
    assert (co_occurrence_record W self
              ((λ q_v, (q_v, co_occurring pre q_v)) <$> keys) (rec_id, qs)
            = Ok ((λ q_v, (q_v, co_occurring (pre ++ [(rec_id, qs)]) q_v))
                    <$> keys)) as ->.
    { unfold co_occurrence_record. cbv zeta. cbn [snd].
      assert (∀ x, x ∈ set_iter W (qs ∩ vuln_q_grams self)
                   ↔ x ∈ qs ∧ x ∈ vuln_q_grams self) as Hiter.
      { intros x. rewrite (set_iter_elem_of W _ _ HW). set_solver. }
      assert ((λ q_v, (q_v, co_occurring (pre ++ [(rec_id, qs)]) q_v)) <$> keys
              = (λ k, (k, if decide (k ∈ set_iter W (qs ∩ vuln_q_grams self))
                          then co_occurring pre k ∪ (qs ∖ {[k]})
                          else co_occurring pre k)) <$> keys) as Hnext.
      { apply list_fmap_ext. intros _ k Hk%list_elem_of_lookup_2.
        rewrite co_occurring_snoc. simpl. f_equal.
        apply (set_iter_elem_of W _ _ HW) in Hk.
        destruct (decide (k ∈ qs)) as [Hq|Hq].
        - rewrite decide_True; [done|]. by apply Hiter.
        - rewrite decide_False; [|rewrite Hiter; tauto].
          by rewrite (right_id_L ∅ (∪)). }
      destruct (decide (0 < size (qs ∩ vuln_q_grams self))%nat) as [Hsz|Hsz].
      - rewrite co_occurrence_loop; [|done|by apply set_iter_NoDup|].
        + by rewrite <- Hnext.
        + intros x [_ Hx]%Hiter. by apply set_iter_elem_of.
      - unfold mret, result_ret. f_equal. rewrite Hnext. symmetry.
        apply list_fmap_ext. intros _ k _.
        rewrite decide_False; [done|]. intros Hk%Hiter.
        assert (qs ∩ vuln_q_grams self = ∅) as Hz.
        { apply leibniz_equiv, size_empty_iff. lia. }
        set_solver. }
    unfold mbind, result_bind.
    rewrite (cons_middle (rec_id, qs) pre post), app_assoc. apply IH.
Qed.

(** X6. The pool built for each vulnerable q-gram is the set of the
    q-grams that share a public record with it, the q-gram itself left
    out: building the pools never fails, and the entries come in the order
    the vulnerable set is enumerated. *)
Theorem co_occurrence_pools_content W self pub_db_q_gram_sets :
  RuntimeOK W →
  co_occurrence_pools W self pub_db_q_gram_sets
  = Ok ((λ q_v, (q_v, co_occurring pub_db_q_gram_sets q_v))
          <$> set_iter W (vuln_q_grams self))
  ∧ ∀ q_v x, x ∈ co_occurring pub_db_q_gram_sets q_v
             ↔ ∃ rec, rec ∈ pub_db_q_gram_sets ∧ q_v ∈ rec.2 ∧ x ∈ rec.2 ∧ x ≠ q_v.
Proof.
  intros HW. split; [by apply co_occurrence_pools_eq|].
  intros q_v x. apply elem_of_co_occurring.
Qed.

Lemma accept_chunk_members W self fuel co count refs (qs_r : gset string) g
    count' refs' g' :
  Z.of_nat (size qs_r) ≤ l_r self →
  accept_chunk W self fuel co (count, refs) qs_r g = Ok ((count', refs'), g') →
  ∃ r, count' = S count ∧ refs' = refs ++ [r] ∧ qs_r ⊆ r
       ∧ ∀ x, x ∈ r →
           x ∈ qs_r
           ∨ ((0 < count)%nat ∧ x ∈ co)
           ∨ (count = 0%nat ∧ Z.of_nat (size qs_r) < l_r self
              ∧ x ∈ non_vuln_q_grams self).
Proof.
  intros Hle Hrun. unfold accept_chunk in Hrun.
  apply rand_bind_ok in Hrun as (r & g1 & Hpad & Hfin).
  destruct (decide (Z.of_nat (size r) = l_r self)) as [Hsz|]; [|done].
  apply rand_ret_ok in Hfin as [[= <- <-] _].
  exists r. split; [done|]. split; [done|].
  destruct (decide (Z.of_nat (size qs_r) < l_r self ∧ (0 < count)%nat)) as [[H1 H2]|H1].
  - pose proof (pad_until_outcome W fuel co (l_r self) qs_r g Hle) as Hout.
    rewrite Hpad in Hout. destruct Hout as (_ & Hsub & Hfrom).
    split; [done|]. intros x Hx. destruct (Hfrom x Hx); [by left | right; by left].
  - destruct (decide (Z.of_nat (size qs_r) < l_r self ∧ count = 0%nat)) as [[H2 H3]|H2].
    + pose proof (pad_until_outcome W fuel (non_vuln_q_grams self) (l_r self)
                    qs_r g Hle) as Hout.
      rewrite Hpad in Hout. destruct Hout as (_ & Hsub & Hfrom).
      split; [done|]. intros x Hx.
      destruct (Hfrom x Hx); [by left | right; by right].
    + apply rand_ret_ok in Hpad as [<- _]. split; [done|]. intros x Hx. by left.
Qed.

Lemma elem_of_take_drop {A} (l : list A) (n i : nat) (x : A) :
  x ∈ take n (drop i l) → x ∈ l.
Proof.
  intros Hx. eapply elem_of_sublist; [exact Hx|].
  etrans; [apply sublist_take | apply sublist_drop].
Qed.

Lemma elem_of_some_chunk {A} (l : list A) (n : nat) (x : A) :
  (0 < n)%nat → x ∈ l →
  ∃ i, i ∈ ((λ j, j * n)%nat <$> seq 0 (div_up (length l) n))
       ∧ x ∈ take n (drop i l).
Proof.
  intros Hn Hx.
  destruct (chunks_go_partition (length l) n l Hn (le_n _)) as (Hcat & _ & _).
  fold (chunks n l) in Hcat. rewrite (chunks_slices n l Hn) in Hcat.
  rewrite <- Hcat in Hx. apply list_elem_of_In, in_concat in Hx as (c & Hc & Hxc).
  apply list_elem_of_In, list_elem_of_fmap in Hc as (i & -> & Hi).
  exists i. split; [done|]. by apply list_elem_of_In.
Qed.

(** The loop over the chunks of one pool, when it ends normally. *)
Lemma sample_chunks_sets W self fuel (co : list string) g count refs g' :
  0 < l_r self → NoDup co →
  for_each ((λ j, j * Z.to_nat (l_r self))%nat
              <$> seq 0 (div_up (length co) (Z.to_nat (l_r self))))
    (sample_chunk W self fuel co) (0%nat, []) g = Ok ((count, refs), g') →
  count = length refs
  ∧ length refs = div_up (length co) (Z.to_nat (l_r self))
  ∧ (∀ r x, r ∈ refs → x ∈ r →
       x ∈ co
       ∨ (x ∈ non_vuln_q_grams self ∧ (length co < Z.to_nat (l_r self))%nat))
  ∧ (∀ x, x ∈ co → ∃ r, r ∈ refs ∧ x ∈ r).
Proof.
  intros Hpos Hnd Hrun.
  set (n := Z.to_nat (l_r self)) in *.
  set (starts := (λ j, j * n)%nat <$> seq 0 (div_up (length co) n)) in *.
  apply (for_each_rand_ind
    (λ pre (st : nat * list (gset string)),
       st.1 = length pre ∧ length st.2 = length pre
       ∧ (∀ i x, i ∈ pre → x ∈ take n (drop i co) → ∃ r, r ∈ st.2 ∧ x ∈ r)
       ∧ (∀ r x, r ∈ st.2 → x ∈ r →
            x ∈ co ∨ (x ∈ non_vuln_q_grams self ∧ (length co < n)%nat))))
    in Hrun.
  - destruct Hrun as (Hc & Hlen & Hcov & Hmem). simpl in *.
    split; [lia|]. split.
    { rewrite Hlen. unfold starts. by rewrite length_fmap, length_seq. }
    split; [done|].
    intros x Hx. destruct (elem_of_some_chunk co n x ltac:(lia) Hx) as (i & Hi & Hxi).
    by eapply Hcov.
  - simpl. split; [done|]. split; [done|].
    split; [by intros ?? ?%elem_of_nil | by intros ?? ?%elem_of_nil].
  - intros pre i post [c rs] g0 [c' rs'] g1 Hl (Hc & Hlen & Hcov & Hmem) Hstep.
    simpl in Hc, Hlen, Hcov, Hmem. unfold sample_chunk in Hstep. cbv zeta in Hstep.
    fold n in Hstep.
    assert (size (list_to_set (C := gset string) (take n (drop i co)))
            = length (take n (drop i co))) as Hsz.
    { apply size_list_to_set. eapply sublist_NoDup; [exact Hnd|].
      etrans; [apply sublist_take | apply sublist_drop]. }
    apply accept_chunk_members in Hstep as (r & -> & -> & Hsub & Hfrom).
    2:{ rewrite Hsz, length_take. lia. }
    simpl. rewrite !length_app. simpl. split; [lia|]. split; [lia|]. split.
    + intros j x [Hj|Hj%list_elem_of_singleton]%elem_of_app Hx.
      * destruct (Hcov j x Hj Hx) as (r0 & Hr0 & Hxr).
        exists r0. split; [|done]. apply elem_of_app. by left.
      * subst j. exists r. split.
        -- apply elem_of_app. right. by apply list_elem_of_singleton.
        -- apply Hsub. by apply elem_of_list_to_set.
    + intros r0 x [Hr0|Hr0%list_elem_of_singleton]%elem_of_app Hx.
      { by eapply Hmem. }
      subst r0. destruct (Hfrom x Hx) as [Hin|[[_ Hin]|(Hz & Hlt & Hin)]].
      * left. apply elem_of_list_to_set in Hin. by eapply elem_of_take_drop.
      * by left.
      * right. split; [done|].
        assert (pre = []) as -> by (destruct pre; [done | simpl in Hc; lia]).
        assert (i = 0)%nat as ->.
        { unfold starts in Hl. simpl in Hl.
          destruct (div_up (length co) n) as [|k]; [done|].
          simpl in Hl. by injection Hl as <- _. }
        rewrite Hsz, drop_0, length_take in Hlt. lia.
Qed.

Lemma sample_q_v_sets W self fuel rs total q_v pool g rs' total' g' :
  RuntimeOK W → 0 < l_r self →
  sample_q_v W self fuel (rs, total) (q_v, pool) g = Ok ((rs', total'), g') →
  ∃ refs, rs' = dict_set rs q_v refs
          ∧ total' = (total + length refs)%nat
          ∧ made_from_pool self pool refs.
Proof.
  intros HW Hpos Hrun. unfold sample_q_v in Hrun.
  apply rand_bind_ok in Hrun as (starts & g1 & Hr & Hrun).
  apply lift_ok in Hr as [Hr ->].
  apply py_range_ok in Hr as [[? _]|[_ ->]]; [lia|].
  apply rand_bind_ok in Hrun as ([count refs] & g2 & Hloop & Hrun).
  apply rand_ret_ok in Hrun as [[= <- <-] _].
  apply sample_chunks_sets in Hloop as (-> & Hlen & Hmem & Hcov);
    [|done | by apply set_iter_NoDup].
  rewrite (set_iter_length W pool HW) in Hlen, Hmem.
  exists refs. split; [done|]. split; [done|]. split; [done|]. split.
  - intros r x Hr Hx. destruct (Hmem r x Hr Hx) as [Hin|Hin]; [left | by right].
    by apply (set_iter_elem_of W pool x HW).
  - intros x Hx. apply Hcov. by apply (set_iter_elem_of W pool x HW).
Qed.

Lemma sample_pools_sets W self fuel (co : list (string * gset string)) g rs T g' :
  RuntimeOK W → 0 < l_r self → NoDup co.*1 →
  for_each co (sample_q_v W self fuel) ([], 0%nat) g = Ok ((rs, T), g') →
  Forall2 (λ entry res, res.1 = entry.1 ∧ made_from_pool self entry.2 res.2)
    co rs.
Proof.
  intros HW Hpos Hnd Hrun.
  apply (for_each_rand_ind
    (λ pre (st : list (string * list (gset string)) * nat),
       Forall2 (λ entry res, res.1 = entry.1 ∧ made_from_pool self entry.2 res.2)
         pre st.1)) in Hrun; [done | by constructor |].
  intros pre [q_v pool] post [rs0 T0] g0 [rs1 T1] g1 Hl Hinv Hstep.
  simpl in Hinv.
  apply sample_q_v_sets in Hstep as (refs & -> & _ & Hmade); [|done..].
  simpl. rewrite dict_set_fresh.
  - apply Forall2_app; [done|]. apply Forall2_cons. split; [by split | constructor].
  - assert (rs0.*1 = pre.*1) as ->.
    { clear -Hinv. induction Hinv as [|?? ?? [Hk _] _ IH]; [done|].
      rewrite !fmap_cons. by rewrite IH, Hk. }
    rewrite Hl, fmap_app, fmap_cons in Hnd. simpl in Hnd.
    apply NoDup_app in Hnd as (_ & Hnd & _). intros Hin.
    apply (Hnd q_v Hin). by left.
Qed.

(** The table of a run that returns, entry by entry. *)
Lemma generate_table_pools W self fuel pub_db_q_gram_sets g self' g' :
  RuntimeOK W → 0 < l_r self →
  generate_reference_sets W self fuel pub_db_q_gram_sets g = Ok (self', g') →
  ∃ table,
    self' = set_indexed_ref_sets self table
    ∧ table.*1 = set_iter W (vuln_q_grams self)
    ∧ Forall2 (λ q_v entry,
                 entry.1 = q_v
                 ∧ made_from_pool self (co_occurring pub_db_q_gram_sets q_v)
                     entry.2.*2)
        (set_iter W (vuln_q_grams self)) table.
Proof.
  intros HW Hpos Hrun.
  pose proof (generate_reference_sets_outcome W self fuel pub_db_q_gram_sets g HW)
    as Hout.
  rewrite Hrun in Hout.
  destruct Hout as (rs & T & g1 & table & Hs & -> & Hkeys & _ & _ & Hidx & _).
  exists table. split; [done|]. split.
  { by rewrite (indexes_keys _ _ Hidx). }
  unfold sample_reference_sets in Hs.
  apply rand_bind_ok in Hs as (? & g2 & _ & Hs).
  apply rand_bind_ok in Hs as (co & g3 & Hco & Hs).
  apply lift_ok in Hco as [Hco ->].
  rewrite (co_occurrence_pools_eq W self pub_db_q_gram_sets HW) in Hco.
  injection Hco as <-.
  apply sample_pools_sets in Hs; [|done..|].
  2:{ rewrite <- list_fmap_compose.
      change (fst ∘ _) with (@id string).
      rewrite list_fmap_id. by apply set_iter_NoDup. }
  apply Forall2_fmap_l in Hs. unfold indexes in Hidx.
  clear -Hs Hidx. revert table Hidx.
  induction Hs as [|q_v [q refs] keys rs [Hk Hmade] _ IH]; intros table Hidx.
  - inversion Hidx; subst. constructor.
  - inversion Hidx as [|? [q' inner] ? table' [Hk' Hv] Hidx']; subst.
    simpl in Hk, Hmade, Hk', Hv. subst.
    constructor; [by split | by apply IH].
Qed.

(** X7. When the generator returns with a positive [l_r], the entry of
    every vulnerable q-gram holds one reference set for each [l_r]
    members of its co-occurrence pool (rounded up); the sets of an
    entry cover the pool, and hold nothing from outside it, except that
    a pool smaller than [l_r] is filled from the fallback pool. *)
Theorem generated_sets_made_from_pools W self fuel pub_db_q_gram_sets g self' g' :
  RuntimeOK W → 0 < l_r self →
  generate_reference_sets W self fuel pub_db_q_gram_sets g = Ok (self', g') →
  ∃ table,
    indexed_ref_sets self' = Some table
    ∧ table.*1 = set_iter W (vuln_q_grams self)
    ∧ ∀ q_v inner, (q_v, inner) ∈ table →
        made_from_pool self (co_occurring pub_db_q_gram_sets q_v) inner.*2.
Proof.
  intros HW Hpos Hrun.
  destruct (generate_table_pools W self fuel pub_db_q_gram_sets g self' g'
              HW Hpos Hrun) as (table & -> & Hkeys & HF).
  exists table. split; [done|]. split; [done|].
  intros q_v inner Hin.
  destruct (Forall2_elem_of_r _ _ _ _ HF Hin) as (q & _ & Hk & Hmade).
  simpl in Hk, Hmade. by subst q.
Qed.

Lemma sample_pools_negative W self fuel (co : list (string * gset string))
    rs total g :
  l_r self < 0 →
  ∃ rs', for_each co (sample_q_v W self fuel) (rs, total) g = Ok ((rs', total), g).
Proof.
  intros Hneg. revert rs. induction co as [|[q_v pool] co IH]; intros rs.
  - by exists rs.
  - destruct (IH (dict_set rs q_v [])) as (rs' & Hrun). exists rs'.
    cbn [for_each]. unfold mbind at 1, rand_bind.
    assert (sample_q_v W self fuel (rs, total) (q_v, pool) g
            = Ok ((dict_set rs q_v [], total), g)) as ->; [|done].
    unfold sample_q_v, py_range.
    rewrite decide_False by lia. rewrite decide_True by lia.
    unfold mbind, rand_bind, lift. cbn [for_each]. unfold mret, rand_ret.
    by rewrite Nat.add_0_r.
Qed.

Lemma generate_after_sample W self fuel pub g rs T g1 :
  RuntimeOK W →
  sample_reference_sets W self fuel pub g = Ok ((rs, T), g1) →
  ∃ table g2,
    generate_reference_sets W self fuel pub g
    = Ok (set_indexed_ref_sets self table, g2)
    ∧ rs.*1 = set_iter W (vuln_q_grams self)
    ∧ Forall (all_of_size (l_r self)) rs.*2
    ∧ indexes rs table.
Proof.
  intros HW Hs.
  pose proof (sample_reference_sets_outcome W self fuel pub g HW) as Hout.
  rewrite Hs in Hout. destruct Hout as (Hkeys & HT & Hall).
  destruct (index_reference_sets_ok W self rs T g1 HW Hkeys HT)
    as (table & g2 & Hrun & Hidx & _).
  exists table, g2. split; [|done].
  unfold generate_reference_sets, mbind, rand_bind. rewrite Hs. simpl.
  by rewrite Hrun.
Qed.

(** X8. A negative [l_r] is not refused: the generator returns a table
    that has an entry for every vulnerable q-gram, each of them without
    any reference set. *)
Theorem generate_negative_l_r_gives_empty_entries W self fuel pub_db_q_gram_sets g :
  RuntimeOK W → l_r self < 0 →
  ∃ table g',
    generate_reference_sets W self fuel pub_db_q_gram_sets g
    = Ok (set_indexed_ref_sets self table, g')
    ∧ table = (λ q_v, (q_v, [])) <$> set_iter W (vuln_q_grams self).
Proof.
  intros HW Hneg.
  assert (∃ rs T g1, sample_reference_sets W self fuel pub_db_q_gram_sets g
                     = Ok ((rs, T), g1)) as (rs & T & g1 & Hs).
  { unfold sample_reference_sets, mbind at 1, rand_bind, seed.
    unfold mbind at 1, rand_bind, lift.
    rewrite (co_occurrence_pools_eq W self pub_db_q_gram_sets HW).
    edestruct (sample_pools_negative W self fuel) as (rs & ->); [done|].
    by eexists _, _, _. }
  destruct (generate_after_sample W self fuel pub_db_q_gram_sets g rs T g1 HW Hs)
    as (table & g2 & Hgen & Hkeys & Hall & Hidx).
  exists table, g2. split; [done|].
  rewrite <- Hkeys. clear -Hneg Hall Hidx.
  induction Hidx as [|[q refs] [q' d] rs t [Hk Hv] _ IH]; [done|].
  simpl in Hk, Hv. rewrite fmap_cons in Hall. apply Forall_cons in Hall as [Hr Hall].
  rewrite !fmap_cons. simpl. rewrite <- IH by done. f_equal. f_equal; [done|].
  simpl in Hr. subst refs. destruct d as [|[i r] d]; [done|].
  rewrite fmap_cons in Hr. apply Forall_cons in Hr as [Hr _]. simpl in Hr. lia.
Qed.

(** X9. With [l_r = 0] and at least one vulnerable q-gram the generator
    raises [ValueError], from the [range] whose step is zero. *)
Theorem generate_zero_l_r_raises W self fuel pub_db_q_gram_sets g :
  RuntimeOK W → l_r self = 0 → vuln_q_grams self ≠ ∅ →
  generate_reference_sets W self fuel pub_db_q_gram_sets g = Raise ValueError.
Proof.
  intros HW Hz Hne.
  unfold generate_reference_sets, mbind at 1, rand_bind.
  unfold sample_reference_sets, mbind at 1, rand_bind, seed.
  unfold mbind at 1, rand_bind, lift.
  rewrite (co_occurrence_pools_eq W self pub_db_q_gram_sets HW).
  destruct (set_iter W (vuln_q_grams self)) as [|q_v keys] eqn:Hkeys.
  { exfalso. apply Hne. apply set_eq. intros x.
    rewrite <- (set_iter_elem_of W _ x HW), Hkeys. set_solver. }
  rewrite fmap_cons. cbn [for_each]. unfold mbind at 1, rand_bind.
  unfold sample_q_v at 1, py_range. rewrite decide_True by done.
  unfold mbind, rand_bind, lift. done.
Qed.

(** X10. Without vulnerable q-grams the generator returns the empty
    table, whatever [l_r] and the public database are. *)
Theorem generate_without_vulnerable_gives_empty_table W self fuel
    pub_db_q_gram_sets g :
  RuntimeOK W → vuln_q_grams self = ∅ →
  ∃ g', generate_reference_sets W self fuel pub_db_q_gram_sets g
        = Ok (set_indexed_ref_sets self [], g').
Proof.
  intros HW He.
  assert (set_iter W (vuln_q_grams self) = []) as Hkeys.
  { apply length_zero_iff_nil. by rewrite (set_iter_length W _ HW), He. }
  assert (∃ g1, sample_reference_sets W self fuel pub_db_q_gram_sets g
                = Ok (([], 0%nat), g1)) as (g1 & Hs).
  { unfold sample_reference_sets, mbind at 1, rand_bind, seed.
    unfold mbind at 1, rand_bind, lift.
    rewrite (co_occurrence_pools_eq W self pub_db_q_gram_sets HW), Hkeys.
    by eexists. }
  destruct (generate_after_sample W self fuel pub_db_q_gram_sets g _ _ g1 HW Hs)
    as (table & g2 & Hgen & _ & _ & Hidx).
  exists g2. by inversion Hidx; subst.
Qed.

(** X11. When a vulnerable q-gram has a non-empty co-occurrence pool that,
    even together with the fallback pool, has fewer than [l_r] distinct
    members, the generator cannot return a table: the run ends in a
    padding failure (an exception from an empty fallback pool, or a
    padding loop that never fills its set). *)
Theorem generate_fails_on_pool_too_small W self fuel pub_db_q_gram_sets g q_v :
  RuntimeOK W →
  q_v ∈ vuln_q_grams self →
  co_occurring pub_db_q_gram_sets q_v ≠ ∅ →
  Z.of_nat (size (co_occurring pub_db_q_gram_sets q_v
                  ∪ list_to_set (non_vuln_q_grams self))) < l_r self →
  ∃ e, generate_reference_sets W self fuel pub_db_q_gram_sets g = Raise e
       ∧ pad_failure e.
Proof.
  intros HW Hq Hne Hsmall.
  pose proof (generate_reference_sets_outcome W self fuel pub_db_q_gram_sets g HW)
    as Hout.
  destruct (generate_reference_sets W self fuel pub_db_q_gram_sets g)
    as [[self' g']|e]; [exfalso | by exists e].
  destruct Hout as (rs & T & g1 & table & Hs & _ & Hkeys & _ & Hall & _).
  unfold sample_reference_sets in Hs.
  apply rand_bind_ok in Hs as (? & g2 & _ & Hs).
  apply rand_bind_ok in Hs as (co & g3 & Hco & Hs).
  apply lift_ok in Hco as [Hco ->].
  rewrite (co_occurrence_pools_eq W self pub_db_q_gram_sets HW) in Hco.
  injection Hco as <-.
  apply sample_pools_sets in Hs; [|done | lia |].
  2:{ rewrite <- list_fmap_compose. change (fst ∘ _) with (@id string).
      rewrite list_fmap_id. by apply set_iter_NoDup. }
  assert ((q_v, co_occurring pub_db_q_gram_sets q_v)
          ∈ (λ q_v, (q_v, co_occurring pub_db_q_gram_sets q_v))
              <$> set_iter W (vuln_q_grams self)) as Hin.
  { apply list_elem_of_fmap. exists q_v. split; [done|].
    by apply (set_iter_elem_of W _ q_v HW). }
  destruct (Forall2_elem_of_l _ _ _ _ Hs Hin) as ([q refs] & Hrs & _ & Hmade).
  simpl in Hmade. destruct Hmade as (_ & Hmem & Hcov).
  apply set_choose_L in Hne as (m & Hm).
  destruct (Hcov m Hm) as (r & Hr & _).
  assert (Z.of_nat (size r) = l_r self) as Hsz.
  { rewrite Forall_forall in Hall.
    assert (refs ∈ rs.*2) as Hrefs.
    { apply list_elem_of_fmap. by exists (q, refs). }
    specialize (Hall refs Hrefs). unfold all_of_size in Hall.
    rewrite Forall_forall in Hall. by apply Hall. }
  assert (r ⊆ co_occurring pub_db_q_gram_sets q_v
              ∪ list_to_set (non_vuln_q_grams self)) as Hsub.
  { intros y Hy. destruct (Hmem r y Hr Hy) as [?|[? _]]; set_solver. }
  apply subseteq_size in Hsub. lia.
Qed.

(** ** The selection of the vulnerable q-grams *)

Lemma insert_asc_perm (x : string * Z) (l : list (string * Z)) :
  insert_asc x l ≡ₚ x :: l.
Proof.
  induction l as [|y l IH]; simpl; [done|].
  case_decide; [done|]. rewrite IH. apply Permutation_swap.
Qed.

Lemma sorted_asc_perm (l : list (string * Z)) : sorted_asc l ≡ₚ l.
Proof.
  induction l as [|x l IH]; simpl; [done|].
  by rewrite insert_asc_perm, IH.
Qed.

Lemma insert_asc_sorted (x : string * Z) (l : list (string * Z)) :
  StronglySorted asc l → StronglySorted asc (insert_asc x l).
Proof.
  induction l as [|y l IH]; intros Hs; simpl.
  - repeat constructor.
  - apply StronglySorted_cons in Hs as [Hy Hl].
    case_decide as Hle.
    + apply StronglySorted_cons. split.
      * constructor; [done|].
        eapply Forall_impl; [exact Hy|]. intros z Hz. unfold asc in *. lia.
      * by apply StronglySorted_cons.
    + apply StronglySorted_cons. split; [|by apply IH].
      rewrite insert_asc_perm. constructor; [|done]. unfold asc. lia.
Qed.

Lemma sorted_asc_sorted (l : list (string * Z)) : StronglySorted asc (sorted_asc l).
Proof.
  induction l as [|x l IH]; simpl; [constructor | by apply insert_asc_sorted].
Qed.

Lemma sorted_take_drop {A} (R : A → A → Prop) (l : list A) (k : nat) a b :
  StronglySorted R l → a ∈ take k l → b ∈ drop k l → R a b.
Proof.
  intros Hs. revert k. induction Hs as [|x l Hs IH Hx]; intros k Ha Hb.
  - rewrite take_nil in Ha. by apply elem_of_nil in Ha.
  - destruct k as [|k]; [by apply elem_of_nil in Ha|].
    simpl in Ha, Hb. apply elem_of_cons in Ha as [->|Ha].
    + rewrite Forall_forall in Hx. apply Hx. eapply elem_of_sublist; [exact Hb|].
      apply sublist_drop.
    + by eapply IH.
Qed.

(** X12. Asked for a positive number [N] of q-grams, the selection
    returns as vulnerable the keys of [N] entries of the frequency table
    (all of them when the table has fewer): no entry left out has a
    higher count than an entry selected. *)
Theorem vulnerable_are_most_frequent (q_gram_dict : list (string * Z)) (N : Z) :
  0 < N →
  ∃ rest top,
    q_gram_dict ≡ₚ rest ++ top
    ∧ (get_q_grams_to_be_hardened q_gram_dict N).1 = top.*1
    ∧ Z.of_nat (length top) = Z.min N (Z.of_nat (length q_gram_dict))
    ∧ ∀ a b, a ∈ rest → b ∈ top → a.2 ≤ b.2.
Proof.
  intros HN. unfold get_q_grams_to_be_hardened, slice_from. simpl.
  rewrite decide_True by lia.
  set (l := sorted_asc q_gram_dict).
  set (k := Z.to_nat (Z.max (Z.of_nat (length l) + - N) 0)).
  exists (take k l), (drop k l). split; [|split; [|split]].
  - by rewrite take_drop; unfold l; rewrite sorted_asc_perm.
  - done.
  - rewrite length_drop. unfold k, l. rewrite sorted_asc_length. lia.
  - intros a b Ha Hb.
    by apply (sorted_take_drop asc l k a b (sorted_asc_sorted q_gram_dict)).
Qed.

(** X13. At the bounds of the count: asked for no q-gram, or for at least
    as many as the table has, the selection returns every q-gram of the
    table as vulnerable; the list returned as non-vulnerable is then the
    same list of all q-grams for a count of zero, and empty otherwise. *)
Theorem selection_at_the_bounds (q_gram_dict : list (string * Z)) (N : Z) :
  N = 0 ∨ Z.of_nat (length q_gram_dict) ≤ N →
  (get_q_grams_to_be_hardened q_gram_dict N).1 ≡ₚ q_gram_dict.*1
  ∧ (get_q_grams_to_be_hardened q_gram_dict N).2
    = if decide (N = 0) then (get_q_grams_to_be_hardened q_gram_dict N).1 else [].
Proof.
  intros HN. unfold get_q_grams_to_be_hardened, slice_from. cbn [fst snd].
  pose proof (sorted_asc_length q_gram_dict) as Hlen.
  destruct (decide (N = 0)) as [->|Hne].
  - change (- 0) with 0. rewrite (decide_False (P := 0 < 0)) by lia.
    change (Z.to_nat 0) with 0%nat. rewrite drop_0.
    split; [by rewrite sorted_asc_perm | done].
  - destruct HN as [?|HN]; [done|].
    rewrite (decide_True (P := - N < 0)) by lia.
    rewrite (decide_False (P := N < 0)) by lia.
    replace (Z.to_nat (Z.max _ 0)) with 0%nat by lia. rewrite drop_0.
    split; [by rewrite sorted_asc_perm|].
    rewrite drop_ge by lia. done.
Qed.

(** X14. The similarity score does not depend on the order of its two
    arguments, the failure on two empty sets included. *)
Theorem q_gram_dice_sim_sym (q_gram_set1 q_gram_set2 : gset string) :
  q_gram_dice_sim q_gram_set1 q_gram_set2 = q_gram_dice_sim q_gram_set2 q_gram_set1.
Proof.
  unfold q_gram_dice_sim.
  rewrite (comm_L (∩) q_gram_set1 q_gram_set2).
  by rewrite (Nat.add_comm (size q_gram_set1) (size q_gram_set2)).
Qed.

(** ** The reader *)

Lemma py_index_ok {A} (l : list A) (i : Z) :
  has_col l i → ∃ x, py_index l i = Ok x ∧ x ∈ l.
Proof.
  unfold has_col, py_index, list_index. intros Hi.
  destruct (decide (i < 0)).
  - rewrite decide_False by lia.
    destruct (lookup_lt_is_Some_2 l (Z.to_nat (i + Z.of_nat (length l))))
      as [x Hx]; [lia|].
    rewrite Hx. exists x. split; [done|]. by eapply list_elem_of_lookup_2.
  - rewrite decide_False by lia.
    destruct (lookup_lt_is_Some_2 l (Z.to_nat i)) as [x Hx]; [lia|].
    rewrite Hx. exists x. split; [done|]. by eapply list_elem_of_lookup_2.
Qed.

Lemma py_index_raise {A} (l : list A) (i : Z) :
  ¬ has_col l i → py_index l i = Raise IndexError.
Proof.
  unfold has_col, py_index, list_index. intros Hi.
  destruct (decide (i < 0)).
  - destruct (decide (i + Z.of_nat (length l) < 0)); [done|]. lia.
  - rewrite decide_False by lia.
    rewrite lookup_ge_None_2; [done | lia].
Qed.

Lemma py_index_cases {A} (l : list A) (i : Z) :
  (has_col l i ∧ ∃ x, py_index l i = Ok x)
  ∨ (¬ has_col l i ∧ py_index l i = Raise IndexError).
Proof.
  destruct (decide (has_col l i)) as [H|H].
  - left. split; [done|]. destruct (py_index_ok l i H) as (x & ? & _). by exists x.
  - right. split; [done | by apply py_index_raise].
Qed.

Lemma substring_length (n m : nat) (s : string) :
  (n + m ≤ String.length s)%nat → String.length (String.substring n m s) = m.
Proof.
  revert n m. induction s as [|c s IH]; intros n m Hle; simpl in Hle.
  - assert (n = 0 ∧ m = 0)%nat as [-> ->] by lia. done.
  - destruct n as [|n]; simpl.
    + destruct m as [|m]; simpl; [done|]. rewrite IH; [done | lia].
    + apply IH. lia.
Qed.

Lemma substring_chars (n m : nat) (s : string) c :
  c ∈ chars (String.substring n m s) → c ∈ chars s.
Proof.
  unfold chars. revert n m. induction s as [|a s IH]; intros n m; simpl.
  - by destruct n, m.
  - destruct n as [|n]; simpl.
    + destruct m as [|m]; simpl; [by intros ?%elem_of_nil|].
      intros [->|Hc]%elem_of_cons; [left | right; by eapply IH].
    + intros Hc. right. by eapply IH.
Qed.

Lemma remove_spaces_chars (s : string) : Ascii.Space ∉ chars (remove_spaces s).
Proof.
  unfold chars. induction s as [|c s IH]; simpl; [by intros ?%elem_of_nil|].
  destruct (decide (c = Ascii.Space)); [done|]. simpl.
  by intros [?|?]%elem_of_cons.
Qed.

(** For [q ≥ 1] the q-grams of a value are its substrings of length [q]. *)
Lemma elem_of_q_grams_of (q : Z) (s x : string) :
  1 ≤ q →
  x ∈ q_grams_of q s
  ↔ ∃ i : nat, (i + Z.to_nat q ≤ String.length s)%nat
               ∧ x = String.substring i (Z.to_nat q) s.
Proof.
  intros Hq. unfold q_grams_of. rewrite elem_of_list_to_set, list_elem_of_fmap.
  assert (∀ i : nat, (i + Z.to_nat q ≤ String.length s)%nat →
            py_slice s (Z.of_nat i) (Z.of_nat i + q)
            = String.substring i (Z.to_nat q) s) as Hslice.
  { intros i Hi. unfold py_slice, py_bound.
    rewrite !decide_False by lia. f_equal; lia. }
  split.
  - intros (i & -> & Hi). apply elem_of_seq in Hi.
    exists i. split; [lia|]. apply Hslice. lia.
  - intros (i & Hi & ->). exists i. split; [by rewrite Hslice|].
    apply elem_of_seq. lia.
Qed.

Lemma q_grams_of_shape (q : Z) (s x : string) :
  1 ≤ q → x ∈ q_grams_of q s →
  String.length x = Z.to_nat q ∧ ∀ c, c ∈ chars x → c ∈ chars s.
Proof.
  intros Hq (i & Hi & ->)%elem_of_q_grams_of; [|done]. split.
  - by apply substring_length.
  - intros c. apply substring_chars.
Qed.

Lemma elem_of_row_q_grams T attribute_list q rec_list x :
  x ∈ row_q_grams T attribute_list q rec_list
  ↔ ∃ (attr_id : nat) v,
      rec_list !! attr_id = Some v ∧ Z.of_nat attr_id ∈ attribute_list
      ∧ x ∈ q_grams_of q (remove_spaces (lower T (strip T v))).
Proof.
  unfold row_q_grams. rewrite elem_of_union_list. split.
  - intros (X & HX & Hx). apply elem_of_lookup_imap in HX as (i & v & -> & Hv).
    destruct (decide (Z.of_nat i ∈ attribute_list)); [|set_solver].
    by exists i, v.
  - intros (i & v & Hv & Hi & Hx). eexists. split.
    + apply elem_of_lookup_imap. by exists i, v.
    + by rewrite decide_True.
Qed.

Lemma row_q_grams_shape T attribute_list q rec_list x :
  1 ≤ q → x ∈ row_q_grams T attribute_list q rec_list →
  String.length x = Z.to_nat q ∧ Ascii.Space ∉ chars x.
Proof.
  intros Hq (i & v & _ & _ & Hx)%elem_of_row_q_grams.
  apply q_grams_of_shape in Hx as [Hlen Hch]; [|done]. split; [done|].
  intros Hsp. by apply Hch, remove_spaces_chars in Hsp.
Qed.

Lemma dict_get_set {K V} `{EqDecision K} (d : list (K * V)) k k' v :
  dict_get (dict_set d k v) k' = if decide (k = k') then Some v else dict_get d k'.
Proof.
  induction d as [|[k0 v0] d IH]; simpl.
  - destruct (decide (k = k')); [done|]. done.
  - destruct (decide (k0 = k)) as [->|Hne]; simpl.
    + destruct (decide (k = k')) as [->|Hne].
      * by destruct (decide (k' = k')).
      * by destruct (decide (k = k')).
    + destruct (decide (k0 = k')) as [->|Hne'].
      * by destruct (decide (k = k')).
      * apply IH.
Qed.

Lemma dict_get_None {K V} `{EqDecision K} (d : list (K * V)) k :
  dict_get d k = None ↔ k ∉ d.*1.
Proof.
  induction d as [|[k0 v0] d IH]; simpl.
  - split; [by intros _ ?%elem_of_nil | done].
  - destruct (decide (k0 = k)) as [->|Hne].
    + split; [done|]. intros []. left.
    + rewrite IH, not_elem_of_cons. naive_solver.
Qed.

Lemma dict_set_set {K V} `{EqDecision K} (d : list (K * V)) k v v' :
  dict_set (dict_set d k v) k v' = dict_set d k v'.
Proof.
  induction d as [|[k0 v0] d IH]; simpl.
  - by rewrite decide_True.
  - destruct (decide (k0 = k)) as [->|Hne]; simpl.
    + by rewrite decide_True.
    + rewrite decide_False by done. by rewrite IH.
Qed.

Lemma dict_set_NoDup {K V} `{EqDecision K} (d : list (K * V)) k v :
  NoDup d.*1 → NoDup (dict_set d k v).*1.
Proof.
  intros Hnd. rewrite dict_set_keys. destruct (decide (k ∈ d.*1)); [done|].
  apply NoDup_app. split; [done|]. split; [|apply NoDup_singleton].
  intros x Hx ->%list_elem_of_singleton. done.
Qed.

Lemma attr_loop T attribute_list q (pre l : list string) (qs : gset string) :
  for_each (seq (length pre) (length l))
    (attr_q_grams T attribute_list q (pre ++ l)) qs
  = Ok (qs ∪ ⋃ (imap (λ i v,
                  if decide (Z.of_nat (length pre + i) ∈ attribute_list)
                  then q_grams_of q (remove_spaces (lower T (strip T v)))
                  else ∅) l)).
Proof.
  revert pre qs. induction l as [|x l IH]; intros pre qs.
  - simpl. unfold mret, result_ret. f_equal. set_solver.
  - assert (attr_q_grams T attribute_list q (pre ++ x :: l) qs (length pre)
            = Ok (qs ∪ (if decide (Z.of_nat (length pre) ∈ attribute_list)
                        then q_grams_of q (remove_spaces (lower T (strip T x)))
                        else ∅))) as Hbody.
    { unfold attr_q_grams, list_index. rewrite list_lookup_middle by done.
      destruct (decide (Z.of_nat (length pre) ∈ attribute_list)); [done|].
      unfold mret, result_ret. f_equal. set_solver. }
    specialize (IH (pre ++ [x])).
    rewrite length_app, <- app_assoc in IH. simpl in IH.
    rewrite Nat.add_1_r in IH.
    cbn [length seq for_each]. rewrite Hbody.
    unfold mbind at 1, result_bind at 1. rewrite IH.
    rewrite imap_cons. rewrite Nat.add_0_r.
    assert (imap ((λ i v,
              if decide (Z.of_nat (length pre + i) ∈ attribute_list)
              then q_grams_of q (remove_spaces (lower T (strip T v)))
              else (∅ : gset string)) ∘ S) l
            = imap (λ i v,
                if decide (Z.of_nat (S (length pre) + i) ∈ attribute_list)
                then q_grams_of q (remove_spaces (lower T (strip T v)))
                else ∅) l) as ->.
    { apply imap_ext. intros i v _. simpl. by rewrite Nat.add_succ_r. }
    f_equal. set_solver.
Qed.

Lemma row_loop T attribute_list q (rec_list : list string) :
  for_each (seq 0 (length rec_list)) (attr_q_grams T attribute_list q rec_list) ∅
  = Ok (row_q_grams T attribute_list q rec_list).
Proof.
  pose proof (attr_loop T attribute_list q [] rec_list ∅) as H.
  simpl in H. rewrite H. f_equal. unfold row_q_grams. set_solver.
Qed.

Lemma count_q_gram_eq (d : list (string * Z)) (x : string) :
  count_q_gram d x = Ok (dict_set d x (default 0 (dict_get d x) + 1)).
Proof.
  unfold count_q_gram, dict_index.
  destruct (decide (x ∈ d.*1)) as [Hin|Hnin].
  - destruct (dict_get_is_Some d x Hin) as [c ->]. done.
  - apply dict_get_None in Hnin as Hnone. rewrite Hnone.
    rewrite dict_get_set, decide_True by done. simpl.
    unfold mbind, result_bind, mret, result_ret. by rewrite dict_set_set.
Qed.

Lemma count_loop (l : list string) (d : list (string * Z)) :
  NoDup l →
  ∃ d', for_each l count_q_gram d = Ok d'
        ∧ (NoDup d.*1 → NoDup d'.*1)
        ∧ ∀ y, dict_get d' y
               = if decide (y ∈ l) then Some (default 0 (dict_get d y) + 1)
                 else dict_get d y.
Proof.
  revert d. induction l as [|x l IH]; intros d Hnd.
  - exists d. split; [done|]. split; [done|]. intros y.
    by destruct (decide (y ∈ [])) as [?%elem_of_nil|].
  - apply NoDup_cons in Hnd as [Hx Hnd].
    destruct (IH (dict_set d x (default 0 (dict_get d x) + 1)) Hnd)
      as (d' & Hrun & Hkeys & Hget).
    exists d'. split; [|split].
    + cbn [for_each]. rewrite count_q_gram_eq. done.
    + intros Hd. by apply Hkeys, dict_set_NoDup.
    + intros y. rewrite Hget, dict_get_set.
      destruct (decide (x = y)) as [->|Hne].
      * rewrite (decide_False (P := y ∈ l)) by done.
        by rewrite decide_True by left.
      * destruct (decide (y ∈ l)).
        -- by rewrite decide_True by (by right).
        -- rewrite decide_False; [done|]. intros [?|?]%elem_of_cons; congruence.
Qed.

Lemma row_id_cases T rec_id_col (rec_list : list string) :
  (has_col rec_list rec_id_col ∧ is_Some (row_id T rec_id_col rec_list))
  ∨ (¬ has_col rec_list rec_id_col ∧ row_id T rec_id_col rec_list = None).
Proof.
  unfold row_id.
  destruct (py_index_cases rec_list rec_id_col) as [[H (x & ->)]|[H ->]].
  - left. by split.
  - right. by split.
Qed.

Lemma rows_holding_cons T attribute_list q x rec_list rows :
  rows_holding T attribute_list q x (rec_list :: rows)
  = ((if decide (x ∈ row_q_grams T attribute_list q rec_list) then 1 else 0)
     + rows_holding T attribute_list q x rows)%nat.
Proof.
  unfold rows_holding. rewrite filter_cons.
  by destruct (decide (x ∈ row_q_grams T attribute_list q rec_list)).
Qed.

Lemma read_row_outcome W T rec_id_col attribute_list q data_dict q_gram_dict n
    rec_list :
  RuntimeOK W →
  match read_row W T rec_id_col attribute_list q (data_dict, q_gram_dict, n)
          rec_list with
  | Ok (data_dict', q_gram_dict', n') =>
      ∃ rec,
        row_record T rec_id_col attribute_list q rec_list = Some rec
        ∧ data_dict' = dict_set data_dict rec.1 rec.2
        ∧ n' = S n
        ∧ (NoDup q_gram_dict.*1 → NoDup q_gram_dict'.*1)
        ∧ ∀ y, dict_get q_gram_dict' y
               = if decide (y ∈ rec.2)
                 then Some (default 0 (dict_get q_gram_dict y) + 1)
                 else dict_get q_gram_dict y
  | Raise e =>
      e = IndexError ∧ row_record T rec_id_col attribute_list q rec_list = None
  end.
Proof.
  intros HW. unfold read_row, row_record, row_id.
  destruct (py_index rec_list rec_id_col) as [v|e] eqn:Hid.
  2:{ destruct (py_index_cases rec_list rec_id_col) as [[_ (x & Hx)]|[_ Hx]];
        rewrite Hx in Hid; [done|]. by injection Hid as <-. }
  unfold mbind at 1, result_bind at 1. rewrite row_loop.
  unfold mbind at 1, result_bind at 1.
  set (qs := row_q_grams T attribute_list q rec_list).
  destruct (count_loop (set_iter W qs) q_gram_dict (set_iter_NoDup W qs HW))
    as (d' & -> & Hkeys & Hget).
  unfold mbind, result_bind, mret, result_ret.
  exists (lower T (strip T v), qs). split; [done|]. split; [done|].
  split; [done|]. split; [done|].
  intros y. rewrite Hget. simpl.
  destruct (decide (y ∈ qs)) as [Hy|Hy].
  - by rewrite decide_True by by apply (set_iter_elem_of W qs y HW).
  - rewrite decide_False; [done|]. by rewrite (set_iter_elem_of W qs y HW).
Qed.

(** The loop over the rows: it raises [IndexError] at the first row
    without the identifier column, and otherwise fills the two
    dictionaries. *)
Lemma read_rows_outcome W T rec_id_col attribute_list q rows :
  RuntimeOK W →
  ∀ data_dict q_gram_dict n,
  match for_each rows (read_row W T rec_id_col attribute_list q)
          (data_dict, q_gram_dict, n) with
  | Ok (data_dict', q_gram_dict', n') =>
      ∃ recs,
        Forall2 (λ rec_list rec,
                   row_record T rec_id_col attribute_list q rec_list = Some rec)
          rows recs
        ∧ data_dict' = dict_of data_dict recs
        ∧ n' = (n + length rows)%nat
        ∧ (NoDup q_gram_dict.*1 → NoDup q_gram_dict'.*1)
        ∧ ∀ y, dict_get q_gram_dict' y
               = if decide (rows_holding T attribute_list q y rows = 0%nat)
                 then dict_get q_gram_dict y
                 else Some (default 0 (dict_get q_gram_dict y)
                            + Z.of_nat (rows_holding T attribute_list q y rows))
  | Raise e =>
      e = IndexError
      ∧ ∃ rec_list, rec_list ∈ rows ∧ ¬ has_col rec_list rec_id_col
  end.
Proof.
  intros HW. induction rows as [|rec_list rows IH]; intros data_dict q_gram_dict n.
  - simpl. exists []. split; [constructor|]. split; [done|]. split; [lia|].
    split; [done|]. intros y. done.
  - cbn [for_each]. unfold mbind at 1, result_bind at 1.
    pose proof (read_row_outcome W T rec_id_col attribute_list q data_dict
                  q_gram_dict n rec_list HW) as Hrow.
    destruct (read_row W T rec_id_col attribute_list q
                (data_dict, q_gram_dict, n) rec_list) as [[[d1 qd1] n1]|e].
    + destruct Hrow as (rec & Hrec & -> & -> & Hnd1 & Hget1).
      specialize (IH (dict_set data_dict rec.1 rec.2) qd1 (S n)).
      destruct (for_each rows _ _) as [[[d2 qd2] n2]|e].
      * destruct IH as (recs & HF & -> & -> & Hnd2 & Hget2).
        exists (rec :: recs). split; [by constructor|]. split; [done|].
        split; [simpl; lia|]. split; [by intros ?; apply Hnd2, Hnd1|].
        intros y. rewrite Hget2, Hget1, rows_holding_cons.
        assert (row_q_grams T attribute_list q rec_list = rec.2) as ->.
        { unfold row_record in Hrec.
          destruct (row_id T rec_id_col rec_list); [|done].
          by injection Hrec as <-. }
        destruct (decide (y ∈ rec.2));
          destruct (decide (rows_holding T attribute_list q y rows = 0%nat)) as [->|];
          simpl.
        all: repeat case_decide; try lia; try done; simpl; f_equal; lia.
      * destruct IH as (-> & r & Hr & Hcol). split; [done|].
        exists r. split; [by right | done].
    + destruct Hrow as (-> & Hnone). split; [done|].
      exists rec_list. split; [left|].
      unfold row_record in Hnone.
      destruct (row_id_cases T rec_id_col rec_list) as [[_ [x Hx]]|[H _]]; [|done].
      by rewrite Hx in Hnone.
Qed.

Lemma header_loop (header_list : list string) (attribute_list : list Z) hs :
  match for_each attribute_list (λ headers_used attr_num,
          h ← py_index header_list attr_num;
          mret (headers_used ++ [h])) hs with
  | Ok _ => Forall (has_col header_list) attribute_list
  | Raise e => e = IndexError ∧ ¬ Forall (has_col header_list) attribute_list
  end.
Proof.
  revert hs. induction attribute_list as [|a al IH]; intros hs; [by constructor|].
  cbn [for_each]. unfold mbind at 1, result_bind at 1.
  destruct (py_index_cases header_list a) as [[Ha (x & ->)]|[Ha ->]].
  - unfold mbind at 1, result_bind at 1, mret at 1, result_ret at 1.
    specialize (IH (hs ++ [x])).
    destruct (for_each al _ _) as [?|e].
    + by constructor.
    + destruct IH as [-> Hn]. split; [done|].
      by intros [_ ?]%Forall_cons.
  - split; [done|]. by intros [? _]%Forall_cons.
Qed.

Lemma read_header_outcome rec_id_col attribute_list (csv_reader : list (list string)) :
  match read_header rec_id_col attribute_list csv_reader with
  | Returns rest =>
      rest = tail csv_reader ∧ header_fits rec_id_col attribute_list csv_reader
  | Raises e =>
      e = IndexError ∧ csv_reader ≠ []
      ∧ ¬ header_fits rec_id_col attribute_list csv_reader
  | RaisesStopIteration => csv_reader = []
  end.
Proof.
  destruct csv_reader as [|h rest]; [done|]. unfold read_header, header_fits.
  unfold mbind at 1, result_bind at 1.
  destruct (py_index_cases h rec_id_col) as [[Hc (x & ->)]|[Hc ->]].
  - pose proof (header_loop h attribute_list []) as Hl.
    destruct (for_each attribute_list _ _) as [?|e].
    + done.
    + destruct Hl as [-> Hn]. split; [done|]. split; [done|]. by intros [_ ?].
  - split; [done|]. split; [done|]. by intros [? _].
Qed.

Lemma dict_of_NoDup {V} (d recs : list (string * V)) :
  NoDup d.*1 → NoDup (dict_of d recs).*1.
Proof.
  revert d. induction recs as [|r recs IH]; intros d Hnd; [done|].
  apply IH. by apply dict_set_NoDup.
Qed.

Lemma dict_set_elem_of {V} (d : list (string * V)) k v rec :
  rec ∈ dict_set d k v → rec ∈ d ∨ rec = (k, v).
Proof.
  induction d as [|[k0 v0] d IH]; simpl.
  - intros ->%list_elem_of_singleton. by right.
  - destruct (decide (k0 = k)) as [->|Hne].
    + intros [->|Hin]%elem_of_cons; [by right | left; by right].
    + intros [->|Hin]%elem_of_cons; [left; by left|].
      destruct (IH Hin) as [?|?]; [left; by right | by right].
Qed.

Lemma dict_of_elem_of {V} (d recs : list (string * V)) rec :
  rec ∈ dict_of d recs → rec ∈ d ∨ rec ∈ recs.
Proof.
  revert d. induction recs as [|[k v] recs IH]; intros d; [by left|].
  intros Hin. destruct (IH _ Hin) as [Hd|Hr]; [|right; by right].
  apply dict_set_elem_of in Hd as [?| ->]; [by left | right; by left].
Qed.

Lemma occurrences_dict_set x (d : list (string * gset string)) k v :
  (occurrences x (dict_set d k v)
   ≤ occurrences x d + (if decide (x ∈ v) then 1 else 0))%nat.
Proof.
  unfold occurrences. induction d as [|[k0 v0] d IH]; simpl.
  - rewrite filter_cons, filter_nil. simpl. by destruct (decide (x ∈ v)).
  - destruct (decide (k0 = k)) as [->|Hne]; rewrite !filter_cons; simpl.
    + destruct (decide (x ∈ v)), (decide (x ∈ v0)); simpl; lia.
    + destruct (decide (x ∈ v0)); simpl; lia.
Qed.

Lemma occurrences_dict_of x (d recs : list (string * gset string)) :
  (occurrences x (dict_of d recs) ≤ occurrences x d + occurrences x recs)%nat.
Proof.
  revert d. induction recs as [|[k v] recs IH]; intros d.
  - simpl. lia.
  - cbn [dict_of foldl]. etrans; [apply IH|].
    pose proof (occurrences_dict_set x d k v) as H.
    rewrite occurrences_cons. simpl in H |- *. lia.
Qed.

Lemma dict_of_fresh {V} (d recs : list (string * V)) :
  NoDup (d.*1 ++ recs.*1) → dict_of d recs = d ++ recs.
Proof.
  revert d. induction recs as [|[k v] recs IH]; intros d Hnd.
  - by rewrite app_nil_r.
  - simpl. rewrite fmap_cons in Hnd. simpl in Hnd.
    rewrite dict_set_fresh.
    2:{ apply NoDup_app in Hnd as (_ & Hd & _). intros Hin.
        apply (Hd k Hin). left. }
    rewrite IH; [by rewrite <- app_assoc|].
    rewrite fmap_app. simpl. by rewrite <- app_assoc.
Qed.

Lemma rows_holding_recs T rec_id_col attribute_list q x rows recs :
  Forall2 (λ rec_list rec,
             row_record T rec_id_col attribute_list q rec_list = Some rec)
    rows recs →
  rows_holding T attribute_list q x rows = occurrences x recs.
Proof.
  induction 1 as [|rec_list rec rows recs Hrec _ IH]; [done|].
  rewrite rows_holding_cons, IH. unfold occurrences. rewrite filter_cons.
  assert (row_q_grams T attribute_list q rec_list = rec.2) as ->.
  { unfold row_record in Hrec. destruct (row_id T rec_id_col rec_list); [|done].
    by injection Hrec as <-. }
  by destruct (decide (x ∈ rec.2)).
Qed.

Lemma list_to_map_dict_get (d : list (string * Z)) (k : string) :
  (list_to_map d : gmap string Z) !! k = dict_get d k.
Proof.
  induction d as [|[k0 v0] d IH]; simpl; [done|].
  destruct (decide (k0 = k)) as [->|Hne].
  - by rewrite lookup_insert_eq.
  - by rewrite lookup_insert_ne.
Qed.

Lemma recs_omap T rec_id_col attribute_list q rows recs :
  Forall2 (λ rec_list rec,
             row_record T rec_id_col attribute_list q rec_list = Some rec)
    rows recs →
  recs = omap (row_record T rec_id_col attribute_list q) rows.
Proof.
  induction 1 as [|rec_list rec rows recs Hrec _ IH]; [done|].
  cbn [omap list_omap]. rewrite Hrec. by f_equal.
Qed.

Lemma rows_holding_pos T attribute_list q x rows :
  (0 < rows_holding T attribute_list q x rows)%nat →
  ∃ rec_list, rec_list ∈ rows ∧ x ∈ row_q_grams T attribute_list q rec_list.
Proof.
  unfold rows_holding. intros Hpos.
  destruct (filter _ rows) as [|r l] eqn:Hf; [simpl in Hpos; lia|].
  assert (r ∈ filter (λ rec_list, x ∈ row_q_grams T attribute_list q rec_list) rows)
    as Hr by (rewrite Hf; left).
  apply list_elem_of_filter in Hr as [? ?]. by exists r.
Qed.

(** What a call that returns has computed. *)
Lemma extract_returns W T rec_id_col attribute_list q csv_reader has_header
    data_dict q_gram_dict :
  RuntimeOK W →
  extract_q_gram_sets W T rec_id_col attribute_list q csv_reader has_header
    = Returns (data_dict, q_gram_dict) →
  ∃ recs,
    Forall2 (λ rec_list rec,
               row_record T rec_id_col attribute_list q rec_list = Some rec)
      (data_rows csv_reader has_header) recs
    ∧ data_dict = dict_of [] recs
    ∧ NoDup q_gram_dict.*1
    ∧ ∀ y, dict_get q_gram_dict y
           = count_entry (rows_holding T attribute_list q y
                            (data_rows csv_reader has_header)).
Proof.
  intros HW Hrun. unfold extract_q_gram_sets in Hrun.
  assert (∃ rows, (if has_header then read_header rec_id_col attribute_list csv_reader
                   else Returns csv_reader) = Returns rows
                  ∧ rows = data_rows csv_reader has_header) as (rows & Hh & ->).
  { destruct has_header; simpl.
    - pose proof (read_header_outcome rec_id_col attribute_list csv_reader) as Hh.
      simpl in Hrun.
      destruct (read_header rec_id_col attribute_list csv_reader) as [rest|e|];
        [|done..].
      destruct Hh as [-> _]. by eexists.
    - by eexists. }
  rewrite Hh in Hrun.
  pose proof (read_rows_outcome W T rec_id_col attribute_list q
                (data_rows csv_reader has_header) HW [] [] 0%nat) as Hrows.
  destruct (for_each (data_rows csv_reader has_header) _ _)
    as [[[d qd] n]|e]; [|done].
  injection Hrun as -> ->.
  destruct Hrows as (recs & HF & -> & _ & Hnd & Hget).
  exists recs. split; [done|]. split; [done|].
  split; [apply Hnd; constructor|].
  intros y. rewrite Hget. unfold count_entry. simpl.
  destruct (decide (rows_holding T attribute_list q y
                      (data_rows csv_reader has_header) = 0%nat)); [done|].
  f_equal; lia.
Qed.

(** X15. The reader fails in two ways only.  It raises [StopIteration]
    exactly when a header is announced and the file has no line.  It
    raises [IndexError] when the header line lacks the identifier column
    or a column of the attribute list, or when a data row lacks the
    identifier column.  A data row that lacks a column of the attribute
    list does not make it fail, and a call that returns has found all
    the columns it looked up. *)
Theorem extract_q_gram_sets_outcome W T rec_id_col attribute_list q
    csv_reader has_header :
  RuntimeOK W →
  match extract_q_gram_sets W T rec_id_col attribute_list q csv_reader has_header with
  | Returns _ =>
      (has_header = true → header_fits rec_id_col attribute_list csv_reader)
      ∧ Forall (λ rec_list, has_col rec_list rec_id_col)
          (data_rows csv_reader has_header)
  | Raises e =>
      e = IndexError
      ∧ ((has_header = true ∧ csv_reader ≠ []
          ∧ ¬ header_fits rec_id_col attribute_list csv_reader)
         ∨ ∃ rec_list, rec_list ∈ data_rows csv_reader has_header
                       ∧ ¬ has_col rec_list rec_id_col)
  | RaisesStopIteration => has_header = true ∧ csv_reader = []
  end.
Proof.
  intros HW. unfold extract_q_gram_sets.
  assert (∀ rows, rows = data_rows csv_reader has_header →
    match
      match for_each rows (read_row W T rec_id_col attribute_list q)
              ([], [], 0%nat) with
      | Ok (data_dict, q_gram_dict, _) => Returns (data_dict, q_gram_dict)
      | Raise e => Raises e
      end
    with
    | Returns _ =>
        Forall (λ rec_list, has_col rec_list rec_id_col)
          (data_rows csv_reader has_header)
    | Raises e =>
        e = IndexError
        ∧ ∃ rec_list, rec_list ∈ data_rows csv_reader has_header
                      ∧ ¬ has_col rec_list rec_id_col
    | RaisesStopIteration => False
    end) as Hrows.
  { intros rows ->.
    pose proof (read_rows_outcome W T rec_id_col attribute_list q
                  (data_rows csv_reader has_header) HW [] [] 0%nat) as Hr.
    destruct (for_each (data_rows csv_reader has_header) _ _)
      as [[[d qd] n]|e]; [|done].
    destruct Hr as (recs & HF & _).
    clear -HF. induction HF as [|rec_list rec rows recs Hrec _ IH]; constructor;
      [|done].
    unfold row_record in Hrec.
    destruct (row_id_cases T rec_id_col rec_list) as [[H _]|[_ H]]; [done|].
    by rewrite H in Hrec. }
  destruct has_header.
  - pose proof (read_header_outcome rec_id_col attribute_list csv_reader) as Hh.
    destruct (read_header rec_id_col attribute_list csv_reader) as [rest|e|].
    + destruct Hh as [-> Hfit]. specialize (Hrows (tail csv_reader) eq_refl).
      destruct (for_each (tail csv_reader) _ _) as [[[d qd] n]|e].
      * by split.
      * destruct Hrows as [-> Hex]. split; [done | by right].
    + destruct Hh as (-> & Hne & Hfit). split; [done|]. by left.
    + by split.
  - specialize (Hrows csv_reader eq_refl).
    destruct (for_each csv_reader _ _) as [[[d qd] n]|e].
    + by split.
    + destruct Hrows as [-> Hex]. split; [done | by right].
Qed.

(** X16. With [q ≥ 1], every q-gram the reader returns, in a record's
    set or as a key of the frequency table, has exactly [q] characters
    and holds no space. *)
Theorem extract_q_grams_have_length_q W T rec_id_col attribute_list q
    csv_reader has_header data_dict q_gram_dict :
  RuntimeOK W → 1 ≤ q →
  extract_q_gram_sets W T rec_id_col attribute_list q csv_reader has_header
    = Returns (data_dict, q_gram_dict) →
  (∀ rec x, rec ∈ data_dict → x ∈ rec.2 →
     String.length x = Z.to_nat q ∧ Ascii.Space ∉ chars x)
  ∧ (∀ x, x ∈ q_gram_dict.*1 →
       String.length x = Z.to_nat q ∧ Ascii.Space ∉ chars x).
Proof.
  intros HW Hq Hrun.
  apply extract_returns in Hrun as (recs & HF & -> & Hnd & Hget); [|done].
  split.
  - intros rec x Hrec Hx.
    apply dict_of_elem_of in Hrec as [?%elem_of_nil|Hrec]; [done|].
    destruct (Forall2_elem_of_r _ _ _ _ HF Hrec) as (rec_list & _ & Hrow).
    unfold row_record in Hrow. destruct (row_id T rec_id_col rec_list); [|done].
    injection Hrow as <-. simpl in Hx. by eapply row_q_grams_shape.
  - intros x Hx. apply dict_get_is_Some in Hx as [c Hc].
    rewrite Hget in Hc. unfold count_entry in Hc.
    destruct (decide (rows_holding T attribute_list q x
                        (data_rows csv_reader has_header) = 0%nat)); [done|].
    destruct (rows_holding_pos T attribute_list q x
                (data_rows csv_reader has_header)) as (r & _ & Hr); [lia|].
    by eapply row_q_grams_shape.
Qed.

(** X17. The frequency table the reader returns has, for every q-gram,
    the number of the data rows whose q-gram set holds it, and no entry
    for a q-gram that no row holds; no key occurs twice. *)
Theorem extract_counts_rows W T rec_id_col attribute_list q
    csv_reader has_header data_dict q_gram_dict :
  RuntimeOK W →
  extract_q_gram_sets W T rec_id_col attribute_list q csv_reader has_header
    = Returns (data_dict, q_gram_dict) →
  NoDup q_gram_dict.*1
  ∧ ∀ x, dict_get q_gram_dict x
         = count_entry (rows_holding T attribute_list q x
                          (data_rows csv_reader has_header)).
Proof.
  intros HW Hrun.
  apply extract_returns in Hrun as (recs & HF & -> & Hnd & Hget); [|done].
  by split.
Qed.

Lemma dict_of_get {V} (d recs : list (string * V)) (k : string) :
  dict_get (dict_of d recs) k
  = match last (filter (λ rec, rec.1 = k) recs) with
    | Some rec => Some rec.2
    | None => dict_get d k
    end.
Proof.
  revert d. induction recs as [|[k0 v0] recs IH]; intros d; [done|].
  change (dict_of d ((k0, v0) :: recs)) with (dict_of (dict_set d k0 v0) recs).
  rewrite IH, filter_cons, dict_get_set. simpl.
  destruct (decide (k0 = k)) as [->|Hne]; [|done].
  rewrite last_cons. by destruct (last (filter _ recs)).
Qed.

Lemma recs_ids T rec_id_col attribute_list q rows recs :
  Forall2 (λ rec_list rec,
             row_record T rec_id_col attribute_list q rec_list = Some rec)
    rows recs →
  recs.*1 = omap (row_id T rec_id_col) rows.
Proof.
  induction 1 as [|rec_list rec rows recs Hrec _ IH]; [done|].
  cbn [omap list_omap]. rewrite fmap_cons, IH. unfold row_record in Hrec.
  destruct (row_id T rec_id_col rec_list); [|done]. by injection Hrec as <-.
Qed.

(** X18. What the reader returns fits the hardener: the frequency table
    counts every q-gram at least as often as the records of [data_dict]
    hold it, so that the ledger, as the hardener wants it, covers the
    records; when no two rows have the same identifier the counts are
    exactly the numbers of the records that hold the q-grams. *)
Theorem extract_ledger_covers_records W T rec_id_col attribute_list q
    csv_reader has_header data_dict q_gram_dict (Qv : gset string) :
  RuntimeOK W →
  extract_q_gram_sets W T rec_id_col attribute_list q csv_reader has_header
    = Returns (data_dict, q_gram_dict) →
  ledger_covers Qv (list_to_map q_gram_dict) data_dict
  ∧ (NoDup (omap (row_id T rec_id_col) (data_rows csv_reader has_header)) →
     ledger_exact Qv (list_to_map q_gram_dict) data_dict).
Proof.
  intros HW Hrun.
  apply extract_returns in Hrun as (recs & HF & -> & Hnd & Hget); [|done].
  split.
  - intros x _ Hpos. rewrite list_to_map_dict_get, Hget.
    rewrite (rows_holding_recs _ _ _ _ x _ _ HF).
    pose proof (occurrences_dict_of x [] recs) as Hle.
    change (occurrences x []) with 0%nat in Hle.
    unfold count_entry. rewrite decide_False by lia.
    eexists. split; [done|]. lia.
  - intros Hids x _. rewrite list_to_map_dict_get, Hget.
    rewrite (rows_holding_recs _ _ _ _ x _ _ HF).
    rewrite dict_of_fresh; [done|]. simpl. by rewrite (recs_ids _ _ _ _ _ _ HF).
Qed.

(** X19. The records the reader returns have pairwise distinct
    identifiers, and the set kept under an identifier is the q-gram set
    of the last row with that identifier: an earlier row with the same
    identifier (after stripping and lower-casing) is overwritten. *)
Theorem extract_keeps_last_row W T rec_id_col attribute_list q
    csv_reader has_header data_dict q_gram_dict :
  RuntimeOK W →
  extract_q_gram_sets W T rec_id_col attribute_list q csv_reader has_header
    = Returns (data_dict, q_gram_dict) →
  NoDup data_dict.*1
  ∧ ∀ rec_id,
      dict_get data_dict rec_id
      = snd <$> last (filter (λ rec, rec.1 = rec_id)
                        (omap (row_record T rec_id_col attribute_list q)
                           (data_rows csv_reader has_header))).
Proof.
  intros HW Hrun.
  apply extract_returns in Hrun as (recs & HF & -> & Hnd & Hget); [|done].
  split.
  - apply dict_of_NoDup. constructor.
  - intros rec_id. rewrite dict_of_get, <- (recs_omap _ _ _ _ _ _ HF).
    by destruct (last _).
Qed.

(** ** The program *)

Lemma extract_raises_index W T rec_id_col attribute_list q csv_reader has_header e :
  RuntimeOK W →
  extract_q_gram_sets W T rec_id_col attribute_list q csv_reader has_header
    = Raises e →
  e = IndexError.
Proof.
  intros HW. unfold extract_q_gram_sets.
  assert (∀ rows,
    match for_each rows (read_row W T rec_id_col attribute_list q)
            ([], [], 0%nat) with
    | Ok (data_dict, q_gram_dict, _) => Returns (data_dict, q_gram_dict)
    | Raise e => Raises e
    end = Raises e → e = IndexError) as Hrows.
  { intros rows.
    pose proof (read_rows_outcome W T rec_id_col attribute_list q rows HW
                  [] [] 0%nat) as Hr.
    destruct (for_each rows _ _) as [[[d qd] n]|e']; [done|].
    destruct Hr as [-> _]. by intros [= <-]. }
  destruct has_header; [|apply Hrows].
  pose proof (read_header_outcome rec_id_col attribute_list csv_reader) as Hh.
  destruct (read_header rec_id_col attribute_list csv_reader) as [rest|e'|].
  - apply Hrows.
  - destruct Hh as [-> _]. by intros [= <-].
  - done.
Qed.

Lemma extract_record_row T rec_id_col attribute_list q rows recs rec :
  Forall2 (λ rec_list rec,
             row_record T rec_id_col attribute_list q rec_list = Some rec)
    rows recs →
  rec ∈ dict_of [] recs →
  ∃ rec_list, rec_list ∈ rows ∧ rec.2 = row_q_grams T attribute_list q rec_list.
Proof.
  intros HF Hrec.
  apply dict_of_elem_of in Hrec as [?%elem_of_nil|Hrec]; [done|].
  destruct (Forall2_elem_of_r _ _ _ _ HF Hrec) as (rec_list & Hin & Hrow).
  exists rec_list. split; [done|].
  unfold row_record in Hrow. destruct (row_id T rec_id_col rec_list); [|done].
  by injection Hrow as <-.
Qed.

Lemma extract_key_row T attribute_list q rows (q_gram_dict : list (string * Z)) x :
  (∀ y, dict_get q_gram_dict y
        = count_entry (rows_holding T attribute_list q y rows)) →
  x ∈ q_gram_dict.*1 →
  ∃ rec_list, rec_list ∈ rows ∧ x ∈ row_q_grams T attribute_list q rec_list.
Proof.
  intros Hget Hx. apply dict_get_is_Some in Hx as [c Hc].
  rewrite Hget in Hc. unfold count_entry in Hc.
  destruct (decide (rows_holding T attribute_list q x rows = 0%nat)); [done|].
  apply rows_holding_pos. lia.
Qed.

Lemma extract_covers T rec_id_col attribute_list q rows recs
    (q_gram_dict : list (string * Z)) (Qv : gset string) :
  Forall2 (λ rec_list rec,
             row_record T rec_id_col attribute_list q rec_list = Some rec)
    rows recs →
  (∀ y, dict_get q_gram_dict y
        = count_entry (rows_holding T attribute_list q y rows)) →
  ledger_covers Qv (list_to_map q_gram_dict) (dict_of [] recs).
Proof.
  intros HF Hget x _ Hpos. rewrite list_to_map_dict_get, Hget.
  rewrite (rows_holding_recs _ _ _ _ x _ _ HF).
  pose proof (occurrences_dict_of x [] recs) as Hle.
  change (occurrences x []) with 0%nat in Hle.
  unfold count_entry. rewrite decide_False by lia.
  eexists. split; [done|]. lia.
Qed.

Lemma slice_from_sublist {A} (l : list A) (start : Z) :
  sublist (slice_from l start) l.
Proof. unfold slice_from. case_decide; apply sublist_drop. Qed.

Lemma selected_are_keys (q_gram_dict : list (string * Z)) (N : Z) (x : string) :
  x ∈ (get_q_grams_to_be_hardened q_gram_dict N).1 → x ∈ q_gram_dict.*1.
Proof.
  unfold get_q_grams_to_be_hardened. simpl.
  intros ([k c] & -> & Hin)%list_elem_of_fmap.
  apply list_elem_of_fmap. exists (k, c). split; [done|].
  rewrite <- (sorted_asc_perm q_gram_dict).
  eapply elem_of_sublist; [exact Hin | apply slice_from_sublist].
Qed.

Lemma selected_length (q_gram_dict : list (string * Z)) (N : Z) :
  0 < N →
  Z.of_nat (length (get_q_grams_to_be_hardened q_gram_dict N).1) ≤ N.
Proof.
  intros HN. unfold get_q_grams_to_be_hardened, slice_from. simpl.
  rewrite decide_True by lia. rewrite length_fmap, length_drop. lia.
Qed.

Lemma harden_raises_index W self (q : nat) table data_dict q_gram_f_dist g e :
  RuntimeOK W →
  (∀ x, x ∈ vuln_q_grams self → String.length x = q) →
  indexed_ref_sets self = Some table →
  (∀ x, x ∈ vuln_q_grams self → is_Some (dict_get table x)) →
  ledger_covers (vuln_q_grams self) q_gram_f_dist data_dict →
  harden_with_vah_ref_sets W self data_dict q_gram_f_dist g = Raise e →
  e = IndexError
  ∧ ∃ rec x, rec ∈ data_dict ∧ x ∈ rec.2 ∧ x ∈ vuln_q_grams self
             ∧ dict_get table x = Some [].
Proof.
  intros HW Hlen Ht Hkeys Hcov.
  unfold harden_with_vah_ref_sets, mbind at 1, rand_bind, seed.
  unfold mbind, rand_bind.
  pose proof (harden_records_outcome W self q table data_dict HW Ht Hlen Hkeys
                data_dict q_gram_f_dist [] 0%nat (rng_seed W (secret_seed self))
                Hcov) as Hout.
  destruct (for_each data_dict (harden_record W self) _ _)
    as [[[[[d m] mp] n] g1]|e']; [done|].
  destruct Hout as [-> Hex]. by intros [= <-].
Qed.

Lemma harden_vuln_qs_hardened W self (q : nat) (qs : gset string) m mp g
    qs' m' mp' g' :
  RuntimeOK W →
  (∀ x, x ∈ vuln_q_grams self → String.length x = q) →
  for_each (set_iter W (qs ∩ vuln_q_grams self)) (harden_q_v W self)
    (qs, m, mp) g = Ok ((qs', m', mp'), g') →
  qs' ## vuln_q_grams self ∧ hardened_record self qs qs'.
Proof.
  intros HW Hlen Hloop.
  apply (harden_vuln_qs_replaced W self q) in Hloop.
  2:{ intros x Hx%(set_iter_elem_of W _ _ HW). apply Hlen. set_solver. }
  destruct Hloop as (Hkeep & Hrep & Hfrom).
  assert (∀ x, x ∈ set_iter W (qs ∩ vuln_q_grams self)
               ↔ x ∈ qs ∧ x ∈ vuln_q_grams self) as Hiter.
  { intros x. rewrite (set_iter_elem_of W _ _ HW). set_solver. }
  split; [|split; [|split]].
  - intros x Hx Hv. destruct (Hfrom x Hx) as [[Hxqs Hnin]|(z & Hz & Hzx)].
    + apply Hnin, Hiter. done.
    + apply Hiter in Hz as [_ Hz]. apply qualified_by_length in Hzx.
      rewrite (Hlen x Hv), (Hlen z Hz) in Hzx. lia.
  - intros x Hx Hv. apply Hkeep; [done|]. rewrite Hiter. tauto.
  - intros z Hz Hv. apply Hrep, Hiter. done.
  - intros x Hx. destruct (Hfrom x Hx) as [[Hxqs Hnin]|(z & Hz & Hzx)].
    + left. split; [done|]. intros Hv. apply Hnin, Hiter. done.
    + right. exists z. apply Hiter in Hz as [??]. done.
Qed.

Lemma written_rows_ok (R : gset string → gset string → Prop)
    (data_dict hardened_data_dict : list (string * gset string)) :
  NoDup data_dict.*1 →
  Forall2 (λ rec rec', rec'.1 = rec.1 ∧ R rec.2 rec'.2)
    data_dict hardened_data_dict →
  ∃ rows, written_rows data_dict hardened_data_dict = Ok rows
          ∧ rows.*1 = data_dict
          ∧ Forall (λ row, R row.1.2 row.2) rows.
Proof.
  intros Hnd HF.
  assert (hardened_data_dict.*1 = data_dict.*1) as Hkeys.
  { clear -HF. induction HF as [|?? ?? [Hk _] _ IH]; [done|].
    rewrite !fmap_cons. by rewrite IH, Hk. }
  assert (∀ rec, rec ∈ data_dict →
            ∃ qs', dict_get hardened_data_dict rec.1 = Some qs' ∧ R rec.2 qs')
    as Hget.
  { intros rec Hrec.
    destruct (Forall2_elem_of_l _ _ _ _ HF Hrec) as ([k qs'] & Hin & Hk & HR).
    simpl in Hk, HR. subst k. exists qs'. split; [|done].
    apply dict_get_NoDup; [by rewrite Hkeys | done]. }
  unfold written_rows. clear -Hget.
  set (body := λ (rows : list (string * gset string * gset string))
                 '(rec_id, og_qs),
         hd_qs ← dict_index hardened_data_dict rec_id;
         mret (rows ++ [(rec_id, og_qs, hd_qs)])).
  cut (∀ rows0,
         ∃ rows, for_each data_dict body rows0 = Ok (rows0 ++ rows)
                 ∧ rows.*1 = data_dict
                 ∧ Forall (λ row, R row.1.2 row.2) rows).
  { intros Hcut. destruct (Hcut []) as (rows & ? & ? & ?). by exists rows. }
  induction data_dict as [|[rec_id og_qs] data_dict IH]; intros rows0.
  - exists []. by rewrite app_nil_r.
  - destruct (Hget (rec_id, og_qs)) as (qs' & Hq & HR); [left|].
    destruct (IH (λ rec Hrec, Hget rec (list_elem_of_further _ _ _ Hrec))
                (rows0 ++ [(rec_id, og_qs, qs')])) as (rows & Hrun & Hids & Hall).
    exists ((rec_id, og_qs, qs') :: rows). split; [|split].
    + assert (body rows0 (rec_id, og_qs) = Ok (rows0 ++ [(rec_id, og_qs, qs')]))
        as Hbody.
      { unfold body, dict_index. simpl in Hq |- *. by rewrite Hq. }
      cbn [for_each]. rewrite Hbody.
      change (for_each data_dict body (rows0 ++ [(rec_id, og_qs, qs')])
              = Ok (rows0 ++ (rec_id, og_qs, qs') :: rows)).
      rewrite Hrun. by rewrite <- app_assoc.
    + by rewrite fmap_cons, Hids.
    + by constructor.
Qed.

Lemma extract_stops W T rec_id_col attribute_list q csv_reader has_header :
  extract_q_gram_sets W T rec_id_col attribute_list q csv_reader has_header
    = RaisesStopIteration →
  has_header = true ∧ csv_reader = [].
Proof.
  unfold extract_q_gram_sets. destruct has_header.
  - pose proof (read_header_outcome rec_id_col attribute_list csv_reader) as Hh.
    destruct (read_header rec_id_col attribute_list csv_reader) as [rest|e|].
    + by destruct (for_each rest _ _) as [[[d qd] n]|e].
    + done.
    + done.
  - by destruct (for_each csv_reader _ _) as [[[d qd] n]|e].
Qed.

(** Generation, hardening and the rows written, on a database of
    2-grams. *)
Lemma vah_run_outcome W self fuel pub_data_dict data_dict q_gram_f_dist g :
  RuntimeOK W →
  (∀ x, x ∈ vuln_q_grams self → String.length x = 2%nat) →
  NoDup data_dict.*1 →
  ledger_covers (vuln_q_grams self) q_gram_f_dist data_dict →
  (∀ rec x, rec ∈ data_dict → x ∈ rec.2 → String.length x = 2%nat) →
  match
    (rsh_instance ← generate_reference_sets W self fuel pub_data_dict;
     '(hardened_data_dict, _) ←
       harden_with_vah_ref_sets W rsh_instance data_dict q_gram_f_dist;
     rows ← lift (written_rows data_dict hardened_data_dict);
     mret (rsh_instance, rows)) g
  with
  | Ok ((self', rows), _) =>
      vuln_q_grams self' = vuln_q_grams self
      ∧ rows.*1 = data_dict
      ∧ Forall (λ row, row.2 ## vuln_q_grams self'
                       ∧ hardened_record self' row.1.2 row.2
                       ∧ size row.2 = size row.1.2) rows
  | Raise e => pad_failure e
  end.
Proof.
  intros HW Hlen Hnd Hcov Hrec.
  unfold mbind at 1, rand_bind at 1.
  pose proof (generate_reference_sets_outcome W self fuel pub_data_dict g HW)
    as Hgen.
  destruct (generate_reference_sets W self fuel pub_data_dict g)
    as [[self' g1]|e]; [|done].
  destruct Hgen as (rs & T0 & g0 & table & _ & -> & Hkeys & _ & _ & Hidx & _).
  set (self' := set_indexed_ref_sets self table).
  assert (∀ x, x ∈ vuln_q_grams self' → is_Some (dict_get table x)) as Htab.
  { intros x Hx. apply dict_get_is_Some.
    rewrite (indexes_keys _ _ Hidx), Hkeys. by apply (set_iter_elem_of W _ x HW). }
  unfold mbind at 1, rand_bind at 1.
  destruct (harden_with_vah_ref_sets W self' data_dict q_gram_f_dist g1)
    as [[[hd m'] g2]|e] eqn:Hh.
  - apply (harden_run_records W self'
             (λ qs qs', (qs' ## vuln_q_grams self' ∧ hardened_record self' qs qs')
                        ∧ ((∀ x, x ∈ qs → String.length x = 2%nat) →
                           size qs' = size qs))) in Hh; [|done| |].
    + assert (Forall2 (λ rec rec', rec'.1 = rec.1
                         ∧ (rec'.2 ## vuln_q_grams self'
                            ∧ hardened_record self' rec.2 rec'.2
                            ∧ size rec'.2 = size rec.2)) data_dict hd) as HF.
      { assert (Forall (λ rec, ∀ x, x ∈ rec.2 → String.length x = 2%nat)
                  data_dict) as Hall.
        { apply Forall_forall. intros rec Hin x. by apply Hrec. }
        clear -Hh Hall. induction Hh as [|rec rec' l l' (Hid & [Hd Hr] & Hsz) _ IH];
          [constructor|].
        apply Forall_cons in Hall as [Hx Hall].
        constructor; [|by apply IH]. split; [done|].
        split; [done|]. split; [done | by apply Hsz]. }
      destruct (written_rows_ok
                  (λ og_qs hd_qs, hd_qs ## vuln_q_grams self'
                                  ∧ hardened_record self' og_qs hd_qs
                                  ∧ size hd_qs = size og_qs)
                  data_dict hd Hnd HF) as (rows & Hw & Hids & Hall).
      unfold mbind at 1, rand_bind at 1, lift. rewrite Hw.
      unfold mret, rand_ret. done.
    + intros qs Hdisj. split; [split|done].
      * set_solver.
      * by apply hardened_record_refl.
    + intros qs m mp g3 qs' m1 mp1 g4 Hloop. split.
      * by eapply harden_vuln_qs_hardened.
      * intros Hqs. by eapply harden_vuln_qs_size.
  - apply (harden_raises_index W self' 2 table) in Hh as [-> _]; [|done..].
    right. by right.
Qed.

(** What a run of the program ends in. *)
Lemma main_outcome W T fuel secret_seed sensitive_db sensitive_db_id_col
    sensitive_attribute_cols sensitive_db_has_header
    pub_db pub_db_id_col pub_db_attribute_cols pub_db_has_header
    ref_set_length g :
  RuntimeOK W →
  match main W T fuel secret_seed sensitive_db sensitive_db_id_col
          sensitive_attribute_cols sensitive_db_has_header
          pub_db pub_db_id_col pub_db_attribute_cols pub_db_has_header
          ref_set_length g with
  | Returns (self', rows) =>
      (size (vuln_q_grams self') ≤ 10)%nat
      ∧ (∀ x, x ∈ vuln_q_grams self' → String.length x = 2%nat)
      ∧ (∃ q_gram_dict,
           extract_q_gram_sets W T sensitive_db_id_col sensitive_attribute_cols 2
             sensitive_db sensitive_db_has_header
           = Returns (rows.*1, q_gram_dict))
      ∧ Forall (λ row, row.2 ## vuln_q_grams self'
                       ∧ hardened_record self' row.1.2 row.2
                       ∧ size row.2 = size row.1.2) rows
  | Raises e => pad_failure e
  | RaisesStopIteration =>
      (sensitive_db_has_header = true ∧ sensitive_db = [])
      ∨ (pub_db_has_header = true ∧ pub_db = [])
  end.
Proof.
  intros HW. unfold main.
  destruct (extract_q_gram_sets W T sensitive_db_id_col sensitive_attribute_cols 2
              sensitive_db sensitive_db_has_header)
    as [[data_dict q_gram_dict]|e|] eqn:Hs.
  2:{ apply extract_raises_index in Hs as ->; [|done]. right. by right. }
  2:{ left. by eapply extract_stops. }
  destruct (extract_q_gram_sets W T pub_db_id_col pub_db_attribute_cols 2
              pub_db pub_db_has_header)
    as [[pub_data_dict pub_q_gram_dict]|e|] eqn:Hp.
  2:{ apply extract_raises_index in Hp as ->; [|done]. right. by right. }
  2:{ right. by eapply extract_stops. }
  destruct (get_q_grams_to_be_hardened pub_q_gram_dict 10)
    as [hardened_q_grams non_freq_q_grams] eqn:Hsel.
  set (rsh := {| secret_seed := secret_seed;
                 vuln_q_grams := list_to_set hardened_q_grams;
                 non_vuln_q_grams := non_freq_q_grams;
                 l_r := ref_set_length;
                 indexed_ref_sets := None |}).
  pose proof Hs as Hs'.
  apply extract_returns in Hs' as (recs & HF & Hdd & _ & Hget); [|done].
  apply extract_returns in Hp as (precs & _ & _ & _ & Hpget); [|done].
  assert (∀ x, x ∈ vuln_q_grams rsh → String.length x = 2%nat) as Hlen.
  { intros x Hx. simpl in Hx. apply elem_of_list_to_set in Hx.
    assert (x ∈ pub_q_gram_dict.*1) as Hk.
    { apply (selected_are_keys pub_q_gram_dict 10). by rewrite Hsel. }
    destruct (extract_key_row _ _ _ _ _ x Hpget Hk) as (r & _ & Hr).
    by apply row_q_grams_shape in Hr as [? _]. }
  assert (size (vuln_q_grams rsh) ≤ 10)%nat as Hsize.
  { simpl. etrans; [apply size_list_to_set_le|].
    pose proof (selected_length pub_q_gram_dict 10 ltac:(lia)) as Hl.
    rewrite Hsel in Hl. simpl in Hl. lia. }
  assert (NoDup data_dict.*1) as Hnd.
  { subst data_dict. apply dict_of_NoDup. constructor. }
  assert (ledger_covers (vuln_q_grams rsh) (list_to_map q_gram_dict) data_dict)
    as Hcov.
  { subst data_dict. by eapply extract_covers. }
  assert (∀ rec x, rec ∈ data_dict → x ∈ rec.2 → String.length x = 2%nat)
    as Hrec.
  { intros rec x Hin Hx. subst data_dict.
    destruct (extract_record_row _ _ _ _ _ _ rec HF Hin) as (r & _ & Hr).
    rewrite Hr in Hx. by apply row_q_grams_shape in Hx as [? _]. }
  pose proof (vah_run_outcome W rsh fuel pub_data_dict data_dict
                (list_to_map q_gram_dict) g HW Hlen Hnd Hcov Hrec) as Hrun.
  destruct ((generate_reference_sets W rsh fuel pub_data_dict ≫= _) g)
    as [[[self' rows] g']|e]; [|done].
  destruct Hrun as (HQv & Hids & Hall).
  split; [by rewrite HQv|]. split; [by rewrite HQv|]. split; [|done].
  exists q_gram_dict. by rewrite Hids.
Qed.


(** X21. When the program returns, it has written one row for each
    record read from the sensitive file, in the order of the records and
    with the set as it was read.  At most ten q-grams were chosen as
    vulnerable, each of two characters.  The hardened set of a row holds
    none of them: it is the original set with each vulnerable q-gram
    replaced by a qualified token of it and the other members kept, and
    it has as many members as the original set. *)
Theorem main_writes_hardened_rows W T fuel secret_seed
    sensitive_db sensitive_db_id_col sensitive_attribute_cols
    sensitive_db_has_header
    pub_db pub_db_id_col pub_db_attribute_cols pub_db_has_header
    ref_set_length g self' rows :
  RuntimeOK W →
  main W T fuel secret_seed sensitive_db sensitive_db_id_col
    sensitive_attribute_cols sensitive_db_has_header
    pub_db pub_db_id_col pub_db_attribute_cols pub_db_has_header
    ref_set_length g = Returns (self', rows) →
  (size (vuln_q_grams self') ≤ 10)%nat
  ∧ (∀ x, x ∈ vuln_q_grams self' → String.length x = 2%nat)
  ∧ (∃ q_gram_dict,
       extract_q_gram_sets W T sensitive_db_id_col sensitive_attribute_cols 2
         sensitive_db sensitive_db_has_header
       = Returns (rows.*1, q_gram_dict))
  ∧ Forall (λ row, row.2 ## vuln_q_grams self'
                   ∧ hardened_record self' row.1.2 row.2
                   ∧ size row.2 = size row.1.2) rows.
Proof.
  intros HW Hrun.
  pose proof (main_outcome W T fuel secret_seed sensitive_db sensitive_db_id_col
                sensitive_attribute_cols sensitive_db_has_header
                pub_db pub_db_id_col pub_db_attribute_cols pub_db_has_header
                ref_set_length g HW) as Hout.
  by rewrite Hrun in Hout.
Qed.

(** ** Generation and hardening together *)

Lemma div_up_zero (a n : nat) : (0 < n)%nat → div_up a n = 0%nat ↔ a = 0%nat.
Proof.
  intros Hn. unfold div_up. rewrite Nat.div_small_iff by lia. lia.
Qed.

(** X22. Hardening is idempotent: the records and the ledger a run
    returns hold no vulnerable q-gram any more, and a second run on them
    returns them unchanged. *)
Theorem harden_twice_is_identity W self (q : nat) data_dict q_gram_f_dist g
    data_dict' q_gram_f_dist' g' g2 :
  RuntimeOK W →
  (∀ x, x ∈ vuln_q_grams self → String.length x = q) →
  NoDup data_dict.*1 →
  harden_with_vah_ref_sets W self data_dict q_gram_f_dist g
    = Ok ((data_dict', q_gram_f_dist'), g') →
  harden_with_vah_ref_sets W self data_dict' q_gram_f_dist' g2
  = Ok ((data_dict', q_gram_f_dist'), rng_seed W (secret_seed self)).
Proof.
  intros HW Hlen Hnd Hrun.
  apply (harden_run_records W self (λ _ qs', qs' ## vuln_q_grams self))
    in Hrun; [|done| |].
  - unfold harden_with_vah_ref_sets, mbind at 1, rand_bind, seed.
    unfold mbind, rand_bind.
    rewrite harden_records_untouched; [done|].
    intros rec' Hin.
    by destruct (Forall2_elem_of_r _ _ _ _ Hrun Hin) as (rec & _ & _ & Hd).
  - intros qs Hdisj. set_solver.
  - intros qs m mp g3 qs' m1 mp1 g4 Hloop.
    by eapply harden_vuln_qs_hardened.
Qed.

(** X23. After a generation with a positive [l_r], the hardener fails on
    a database exactly when one of its records holds a vulnerable q-gram
    that shares no public record with another q-gram, and it fails with
    an [IndexError]; on every other database it returns.  The ledger is
    supposed to cover the records and the q-grams to have one length. *)
Theorem harden_after_generate W self (q : nat) fuel pub_db_q_gram_sets g self' g1
    data_dict q_gram_f_dist g2 :
  RuntimeOK W → 0 < l_r self →
  (∀ x, x ∈ vuln_q_grams self → String.length x = q) →
  NoDup data_dict.*1 →
  ledger_covers (vuln_q_grams self) q_gram_f_dist data_dict →
  generate_reference_sets W self fuel pub_db_q_gram_sets g = Ok (self', g1) →
  ((∃ rec x, rec ∈ data_dict ∧ x ∈ rec.2 ∧ x ∈ vuln_q_grams self
             ∧ co_occurring pub_db_q_gram_sets x = ∅)
   ∧ harden_with_vah_ref_sets W self' data_dict q_gram_f_dist g2
     = Raise IndexError)
  ∨ ((¬ ∃ rec x, rec ∈ data_dict ∧ x ∈ rec.2 ∧ x ∈ vuln_q_grams self
                 ∧ co_occurring pub_db_q_gram_sets x = ∅)
     ∧ ∃ r, harden_with_vah_ref_sets W self' data_dict q_gram_f_dist g2 = Ok r).
Proof.
  intros HW Hpos Hlen Hnd Hcov Hgen.
  destruct (generate_table_pools W self fuel pub_db_q_gram_sets g self' g1
              HW Hpos Hgen) as (table & -> & Hkeys & HF).
  set (self' := set_indexed_ref_sets self table).
  assert (∀ x, x ∈ vuln_q_grams self →
            ∃ inner, dict_get table x = Some inner
                     ∧ (inner = [] ↔ co_occurring pub_db_q_gram_sets x = ∅))
    as Hentry.
  { intros x Hx. apply (set_iter_elem_of W _ x HW) in Hx.
    destruct (Forall2_elem_of_l _ _ _ _ HF Hx) as ([k inner] & Hin & Hk & Hmade).
    simpl in Hk, Hmade. subst k. exists inner. split.
    - apply dict_get_NoDup; [|done]. rewrite Hkeys. by apply set_iter_NoDup.
    - destruct Hmade as (Hcount & _ & _). rewrite length_fmap in Hcount.
      split.
      + intros ->. simpl in Hcount. symmetry in Hcount.
        apply div_up_zero in Hcount; [|lia].
        by apply leibniz_equiv, size_empty_iff.
      + intros Hpool. rewrite Hpool, size_empty in Hcount.
        apply length_zero_iff_nil. rewrite Hcount.
        apply div_up_zero; [lia | done]. }
  assert (∀ x, x ∈ vuln_q_grams self' → is_Some (dict_get table x)) as Htab.
  { intros x Hx. destruct (Hentry x Hx) as (inner & -> & _). by eexists. }
  destruct (harden_with_vah_ref_sets W self' data_dict q_gram_f_dist g2)
    as [[[hd m'] g3]|e] eqn:Hh.
  - right. split; [|by eexists].
    intros (rec & x & Hrec & Hx & Hv & Hpool).
    apply (harden_run_records W self' (hardened_record self')) in Hh; [|done| |].
    + destruct (Forall2_elem_of_l _ _ _ _ Hh Hrec) as (rec' & _ & _ & Hhd).
      destruct Hhd as (_ & Hrep & _).
      destruct (Hrep x Hx Hv) as (_ & tok & _ & t0 & refs & i & Ht & Hget & Hi & _).
      injection Ht as <-.
      destruct (Hentry x Hv) as (inner & Hget' & Hnil).
      rewrite Hget in Hget'. injection Hget' as ->.
      apply Hnil in Hpool. subst inner. by apply elem_of_nil in Hi.
    + intros qs Hdisj. by apply hardened_record_refl.
    + intros qs m mp g4 qs' m1 mp1 g5 Hloop.
      by eapply harden_vuln_qs_hardened.
  - left. apply (harden_raises_index W self' q table) in Hh
      as (-> & rec & x & Hrec & Hx & Hv & Hget); [|done..].
    split; [|done]. exists rec, x. split; [done|]. split; [done|]. split; [done|].
    destruct (Hentry x Hv) as (inner & Hget' & Hnil).
    rewrite Hget in Hget'. injection Hget' as <-. by apply Hnil.
Qed.

(** The hardener on a record without "th". *)
Lemma harden_without_vulnerable_is_identity_witness :
  harden_with_vah_ref_sets counter_runtime sampler_self
    [("r1", {[ "er"; "xy" ]})] {[ "er" := 1; "xy" := 1 ]} 0%nat
  = Ok (([("r1", {[ "er"; "xy" ]})], {[ "er" := 1; "xy" := 1 ]}), 7%nat).
Proof.
  apply (harden_without_vulnerable_is_identity counter_runtime sampler_self
           [("r1", {[ "er"; "xy" ]})] {[ "er" := 1; "xy" := 1 ]} 0%nat).
  intros rec Hrec. apply list_elem_of_singleton in Hrec. rewrite Hrec.
  simpl. set_solver.
Defined.

(** The hardener on the example record before any table was built. *)
Lemma harden_before_generate_raises_witness :
  harden_with_vah_ref_sets counter_runtime sampler_self
    [("r1", example_record)] example_ledger 0%nat = Raise TypeError.
Proof.
  apply (harden_before_generate_raises counter_runtime sampler_self
           [("r1", example_record)] example_ledger 0%nat).
  - exact counter_runtime_ok.
  - reflexivity.
  - exists ("r1", example_record). split; [left|].
    unfold example_record. simpl. set_solver.
Defined.

(** The hardener returns on the example record. *)
Lemma harden_returns_unless_no_reference_set_witness :
  (∃ r, harden_with_vah_ref_sets counter_runtime (example_self 7 [] 3)
          [("r1", example_record)] example_ledger 0%nat = Ok r)
  ∨ (harden_with_vah_ref_sets counter_runtime (example_self 7 [] 3)
       [("r1", example_record)] example_ledger 0%nat = Raise IndexError
     ∧ ∃ rec x, rec ∈ [("r1", example_record)] ∧ x ∈ rec.2
                ∧ x ∈ vuln_q_grams (example_self 7 [] 3)
                ∧ dict_get [("th", example_refs)] x = Some []).
Proof.
  apply (harden_returns_unless_no_reference_set counter_runtime
           (example_self 7 [] 3) 2 [("th", example_refs)]
           [("r1", example_record)] example_ledger 0%nat).
  - exact counter_runtime_ok.
  - intros x Hx. simpl in Hx. apply elem_of_singleton in Hx.
    rewrite Hx. reflexivity.
  - reflexivity.
  - intros x Hx. simpl in Hx. apply elem_of_singleton in Hx.
    rewrite Hx. eexists. reflexivity.
  - intros x Hx _. simpl in Hx. apply elem_of_singleton in Hx. rewrite Hx.
    exists 1. split; [reflexivity|]. vm_compute. intros H. discriminate H.
Defined.

(** The size of the example record is kept. *)
Lemma harden_preserves_record_size_witness :
  Forall2 (λ rec rec' : string * gset string,
             rec'.1 = rec.1 ∧ size rec'.2 = size rec.2)
    [("r1", example_record)] [("r1", {[ "th4"; "er"; "xy" ]})].
Proof.
  apply (harden_preserves_record_size counter_runtime (example_self 7 [] 3) 2
           [("r1", example_record)] example_ledger 0%nat
           [("r1", {[ "th4"; "er"; "xy" ]})]
           {[ "th4" := 1; "er" := 1; "xy" := 1 ]} 8%nat).
  - exact counter_runtime_ok.
  - apply NoDup_singleton.
  - intros rec x Hrec Hx. apply list_elem_of_singleton in Hrec.
    rewrite Hrec in Hx. simpl in Hx. unfold example_record in Hx.
    apply elem_of_union in Hx as [Hx|Hx];
      [apply elem_of_union in Hx as [Hx|Hx]|];
      apply elem_of_singleton in Hx; rewrite Hx; reflexivity.
  - vm_compute. reflexivity.
Defined.


(** The pools of the small public database. *)
Lemma co_occurrence_pools_content_witness :
  co_occurrence_pools counter_runtime sampler_self sampler_public
  = Ok ((λ q_v, (q_v, co_occurring sampler_public q_v))
          <$> set_iter counter_runtime (vuln_q_grams sampler_self))
  ∧ ∀ q_v x, x ∈ co_occurring sampler_public q_v
             ↔ ∃ rec, rec ∈ sampler_public ∧ q_v ∈ rec.2 ∧ x ∈ rec.2 ∧ x ≠ q_v.
Proof.
  apply (co_occurrence_pools_content counter_runtime sampler_self sampler_public).
  exact counter_runtime_ok.
Defined.

(** The table generated from the small public database: the pool of "th"
    has four members, which gives two reference sets of three. *)
Lemma generated_sets_made_from_pools_witness :
  ∃ table,
    indexed_ref_sets
      (set_indexed_ref_sets sampler_self
         [("th", [(0%nat, {[ "er"; "in"; "re" ]});
                  (1%nat, {[ "er"; "in"; "he" ]})])]) = Some table
    ∧ table.*1 = set_iter counter_runtime (vuln_q_grams sampler_self)
    ∧ ∀ q_v inner, (q_v, inner) ∈ table →
        made_from_pool sampler_self (co_occurring sampler_public q_v) inner.*2.
Proof.
  apply (generated_sets_made_from_pools counter_runtime sampler_self 10
           sampler_public 0%nat _ 12%nat).
  - exact counter_runtime_ok.
  - reflexivity.
  - vm_compute. reflexivity.
Defined.

(** The generator with [l_r = -1]. *)
Lemma generate_negative_l_r_gives_empty_entries_witness :
  ∃ table g',
    generate_reference_sets counter_runtime (example_self 7 [] (-1)) 10
      sampler_public 0%nat
    = Ok (set_indexed_ref_sets (example_self 7 [] (-1)) table, g')
    ∧ table = (λ q_v, (q_v, []))
                <$> set_iter counter_runtime (vuln_q_grams (example_self 7 [] (-1))).
Proof.
  apply (generate_negative_l_r_gives_empty_entries counter_runtime
           (example_self 7 [] (-1)) 10 sampler_public 0%nat).
  - exact counter_runtime_ok.
  - reflexivity.
Defined.

(** The generator with [l_r = 0]. *)
Lemma generate_zero_l_r_raises_witness :
  generate_reference_sets counter_runtime (example_self 7 [] 0) 10
    sampler_public 0%nat = Raise ValueError.
Proof.
  apply (generate_zero_l_r_raises counter_runtime (example_self 7 [] 0) 10
           sampler_public 0%nat).
  - exact counter_runtime_ok.
  - reflexivity.
  - simpl. intros H. apply (f_equal size) in H. vm_compute in H. discriminate H.
Defined.

(** The generator on an instance without vulnerable q-grams. *)
Lemma generate_without_vulnerable_gives_empty_table_witness :
  ∃ g',
    generate_reference_sets counter_runtime
      {| secret_seed := 7; vuln_q_grams := ∅; non_vuln_q_grams := ["zz"];
         l_r := 3; indexed_ref_sets := None |} 10 sampler_public 0%nat
    = Ok (set_indexed_ref_sets
            {| secret_seed := 7; vuln_q_grams := ∅; non_vuln_q_grams := ["zz"];
               l_r := 3; indexed_ref_sets := None |} [], g').
Proof.
  apply (generate_without_vulnerable_gives_empty_table counter_runtime
           {| secret_seed := 7; vuln_q_grams := ∅; non_vuln_q_grams := ["zz"];
              l_r := 3; indexed_ref_sets := None |} 10 sampler_public 0%nat).
  - exact counter_runtime_ok.
  - reflexivity.
Defined.

(** The pool of "th" has four members: with an empty fallback pool and
    [l_r = 6] no table is generated. *)
Lemma generate_fails_on_pool_too_small_witness :
  ∃ e, generate_reference_sets counter_runtime (example_self 7 [] 6) 10
         sampler_public 0%nat = Raise e
       ∧ pad_failure e.
Proof.
  apply (generate_fails_on_pool_too_small counter_runtime (example_self 7 [] 6) 10
           sampler_public 0%nat "th").
  - exact counter_runtime_ok.
  - simpl. apply elem_of_singleton. reflexivity.
  - intros H. apply (f_equal size) in H. vm_compute in H. discriminate H.
  - vm_compute. reflexivity.
Defined.

(** The two most frequent of three q-grams. *)
Lemma vulnerable_are_most_frequent_witness :
  ∃ rest top,
    [("aa", 3); ("bb", 1); ("cc", 2)] ≡ₚ rest ++ top
    ∧ (get_q_grams_to_be_hardened [("aa", 3); ("bb", 1); ("cc", 2)] 2).1 = top.*1
    ∧ Z.of_nat (length top)
      = Z.min 2 (Z.of_nat (length [("aa", 3); ("bb", 1); ("cc", 2)]))
    ∧ ∀ a b : string * Z, a ∈ rest → b ∈ top → a.2 ≤ b.2.
Proof.
  apply (vulnerable_are_most_frequent [("aa", 3); ("bb", 1); ("cc", 2)] 2).
  reflexivity.
Defined.

(** A count above the size of the table. *)
Lemma selection_at_the_bounds_witness :
  (get_q_grams_to_be_hardened [("aa", 3); ("bb", 1); ("cc", 2)] 10).1
    ≡ₚ [("aa", 3); ("bb", 1); ("cc", 2)].*1
  ∧ (get_q_grams_to_be_hardened [("aa", 3); ("bb", 1); ("cc", 2)] 10).2
    = if decide (10 = 0)
      then (get_q_grams_to_be_hardened [("aa", 3); ("bb", 1); ("cc", 2)] 10).1
      else [].
Proof.
  apply (selection_at_the_bounds [("aa", 3); ("bb", 1); ("cc", 2)] 10).
  right. vm_compute. intros H. discriminate H.
Defined.

(** The reader on the sensitive file, whose first line is a header. *)
Lemma extract_q_gram_sets_outcome_witness :
  match extract_q_gram_sets counter_runtime ascii_methods 0 [1] 2
          sensitive_file true with
  | Returns _ =>
      (true = true → header_fits 0 [1] sensitive_file)
      ∧ Forall (λ rec_list, has_col rec_list 0) (data_rows sensitive_file true)
  | Raises e =>
      e = IndexError
      ∧ ((true = true ∧ sensitive_file ≠ [] ∧ ¬ header_fits 0 [1] sensitive_file)
         ∨ ∃ rec_list, rec_list ∈ data_rows sensitive_file true
                       ∧ ¬ has_col rec_list 0)
  | RaisesStopIteration => true = true ∧ sensitive_file = []
  end.
Proof.
  apply (extract_q_gram_sets_outcome counter_runtime ascii_methods 0 [1] 2
           sensitive_file true).
  exact counter_runtime_ok.
Defined.

(** The q-grams read from the sensitive file. *)
Lemma extract_q_grams_have_length_q_witness :
  (∀ (rec : string * gset string) x,
     rec ∈ [("r1", {[ "an"; "nn"; "nl"; "le"; "ee" ]});
            ("r2", {[ "an"; "nn"; "na" ]})] →
     x ∈ rec.2 → String.length x = Z.to_nat 2 ∧ Ascii.Space ∉ chars x)
  ∧ (∀ x, x ∈ [("ee", 1); ("an", 2); ("nn", 2); ("nl", 1); ("le", 1);
                ("na", 1)].*1 →
       String.length x = Z.to_nat 2 ∧ Ascii.Space ∉ chars x).
Proof.
  apply (extract_q_grams_have_length_q counter_runtime ascii_methods 0 [1] 2
           sensitive_file true).
  - exact counter_runtime_ok.
  - lia.
  - vm_compute. reflexivity.
Defined.

(** The frequency table of the sensitive file. *)
Lemma extract_counts_rows_witness :
  NoDup [("ee", 1); ("an", 2); ("nn", 2); ("nl", 1); ("le", 1); ("na", 1)].*1
  ∧ ∀ x, dict_get [("ee", 1); ("an", 2); ("nn", 2); ("nl", 1); ("le", 1);
                   ("na", 1)] x
         = count_entry (rows_holding ascii_methods [1] 2 x
                          (data_rows sensitive_file true)).
Proof.
  apply (extract_counts_rows counter_runtime ascii_methods 0 [1] 2
           sensitive_file true
           [("r1", {[ "an"; "nn"; "nl"; "le"; "ee" ]});
            ("r2", {[ "an"; "nn"; "na" ]})]).
  - exact counter_runtime_ok.
  - vm_compute. reflexivity.
Defined.

(** The ledger read from the sensitive file covers its records. *)
Lemma extract_ledger_covers_records_witness :
  ledger_covers {[ "an" ]}
    (list_to_map [("ee", 1); ("an", 2); ("nn", 2); ("nl", 1); ("le", 1);
                  ("na", 1)])
    [("r1", {[ "an"; "nn"; "nl"; "le"; "ee" ]}); ("r2", {[ "an"; "nn"; "na" ]})]
  ∧ (NoDup (omap (row_id ascii_methods 0) (data_rows sensitive_file true)) →
     ledger_exact {[ "an" ]}
       (list_to_map [("ee", 1); ("an", 2); ("nn", 2); ("nl", 1); ("le", 1);
                     ("na", 1)])
       [("r1", {[ "an"; "nn"; "nl"; "le"; "ee" ]});
        ("r2", {[ "an"; "nn"; "na" ]})]).
Proof.
  apply (extract_ledger_covers_records counter_runtime ascii_methods 0 [1] 2
           sensitive_file true).
  - exact counter_runtime_ok.
  - vm_compute. reflexivity.
Defined.

(** Two rows with the identifier "a": the second one is kept. *)
Lemma extract_keeps_last_row_witness :
  NoDup [("a", ({[ "bc"; "cd" ]} : gset string)); ("x", ∅)].*1
  ∧ ∀ rec_id,
      dict_get [("a", ({[ "bc"; "cd" ]} : gset string)); ("x", ∅)] rec_id
      = snd <$> last (filter (λ rec, rec.1 = rec_id)
                        (omap (row_record ascii_methods 0 [1; 7; -1] 2)
                           (data_rows [["A"; "b c"]; ["a"; "Bcd"]; ["x"]] false))).
Proof.
  apply (extract_keeps_last_row counter_runtime ascii_methods 0 [1; 7; -1] 2
           [["A"; "b c"]; ["a"; "Bcd"]; ["x"]] false _ [("bc", 2); ("cd", 1)]).
  - exact counter_runtime_ok.
  - vm_compute. reflexivity.
Defined.


(** The program on the two small files, with reference sets of two
    q-grams: every q-gram of the public file is vulnerable. *)
Lemma main_writes_hardened_rows_witness :
  (size ({[ "an"; "ne"; "na"; "nn"; "ha" ]} : gset string) ≤ 10)%nat
  ∧ (∀ x, x ∈ ({[ "an"; "ne"; "na"; "nn"; "ha" ]} : gset string) →
          String.length x = 2%nat)
  ∧ (∃ q_gram_dict,
       extract_q_gram_sets counter_runtime ascii_methods 0 [1] 2
         sensitive_file true
       = Returns ([("r1", {[ "ee"; "an"; "nn"; "nl"; "le" ]});
                   ("r2", {[ "an"; "na"; "nn" ]})], q_gram_dict))
  ∧ ({[ "ee"; "an1"; "nn5"; "nl"; "le" ]} : gset string)
      ## {[ "an"; "ne"; "na"; "nn"; "ha" ]}
  ∧ ({[ "an1"; "na3"; "nn6" ]} : gset string)
      ## {[ "an"; "ne"; "na"; "nn"; "ha" ]}.
Proof.
  pose proof (main_writes_hardened_rows counter_runtime ascii_methods 10 7
                sensitive_file 0 [1] true public_file 0 [1] false 2 0%nat
                {| secret_seed := 7;
                   vuln_q_grams := {[ "an"; "ne"; "na"; "nn"; "ha" ]};
                   non_vuln_q_grams := [];
                   l_r := 2;
                   indexed_ref_sets := Some
                     [("an", [(0%nat, {[ "ne"; "na" ]}); (1%nat, {[ "nn"; "ha" ]})]);
                      ("ne", [(2%nat, {[ "an"; "nn" ]})]);
                      ("na", [(3%nat, {[ "an"; "nn" ]}); (4%nat, {[ "nn"; "ha" ]})]);
                      ("nn", [(5%nat, {[ "an"; "ne" ]}); (6%nat, {[ "na"; "ha" ]})]);
                      ("ha", [(7%nat, {[ "an"; "na" ]}); (8%nat, {[ "an"; "nn" ]})])] |}
                [("r1", {[ "ee"; "an"; "nn"; "nl"; "le" ]},
                  {[ "ee"; "an1"; "nn5"; "nl"; "le" ]});
                 ("r2", {[ "an"; "na"; "nn" ]}, {[ "an1"; "na3"; "nn6" ]})]
                counter_runtime_ok) as H.
  destruct H as (Hsize & Hlen & Hex & Hrows).
  { vm_compute. reflexivity. }
  split; [exact Hsize|]. split; [exact Hlen|]. split; [exact Hex|].
  apply Forall_cons in Hrows as [(Hd1 & _) Hrows].
  apply Forall_cons in Hrows as [(Hd2 & _) _].
  split; [exact Hd1 | exact Hd2].
Defined.

(** A second run on the hardened example record. *)
Lemma harden_twice_is_identity_witness :
  harden_with_vah_ref_sets counter_runtime (example_self 7 [] 3)
    [("r1", {[ "th4"; "er"; "xy" ]})] {[ "th4" := 1; "er" := 1; "xy" := 1 ]} 5%nat
  = Ok (([("r1", {[ "th4"; "er"; "xy" ]})],
         {[ "th4" := 1; "er" := 1; "xy" := 1 ]}),
        rng_seed counter_runtime (secret_seed (example_self 7 [] 3))).
Proof.
  apply (harden_twice_is_identity counter_runtime (example_self 7 [] 3) 2
           [("r1", example_record)] example_ledger 0%nat
           [("r1", {[ "th4"; "er"; "xy" ]})]
           {[ "th4" := 1; "er" := 1; "xy" := 1 ]} 8%nat 5%nat).
  - exact counter_runtime_ok.
  - intros x Hx. simpl in Hx. apply elem_of_singleton in Hx.
    rewrite Hx. reflexivity.
  - apply NoDup_singleton.
  - vm_compute. reflexivity.
Defined.

(** The table generated from the small public database, and the hardener
    on the example record. *)
Lemma harden_after_generate_witness :
  ((∃ (rec : string * gset string) x,
      rec ∈ [("r1", example_record)] ∧ x ∈ rec.2
      ∧ x ∈ vuln_q_grams sampler_self ∧ co_occurring sampler_public x = ∅)
   ∧ harden_with_vah_ref_sets counter_runtime
       (set_indexed_ref_sets sampler_self
          [("th", [(0%nat, {[ "er"; "in"; "re" ]});
                   (1%nat, {[ "er"; "in"; "he" ]})])])
       [("r1", example_record)] example_ledger 0%nat
     = Raise IndexError)
  ∨ ((¬ ∃ (rec : string * gset string) x,
        rec ∈ [("r1", example_record)] ∧ x ∈ rec.2
        ∧ x ∈ vuln_q_grams sampler_self ∧ co_occurring sampler_public x = ∅)
     ∧ ∃ r, harden_with_vah_ref_sets counter_runtime
              (set_indexed_ref_sets sampler_self
                 [("th", [(0%nat, {[ "er"; "in"; "re" ]});
                          (1%nat, {[ "er"; "in"; "he" ]})])])
              [("r1", example_record)] example_ledger 0%nat = Ok r).
Proof.
  apply (harden_after_generate counter_runtime sampler_self 2 10 sampler_public
           0%nat _ 12%nat [("r1", example_record)] example_ledger 0%nat).
  - exact counter_runtime_ok.
  - reflexivity.
  - intros x Hx. simpl in Hx. apply elem_of_singleton in Hx.
    rewrite Hx. reflexivity.
  - apply NoDup_singleton.
  - intros x Hx _. simpl in Hx. apply elem_of_singleton in Hx. rewrite Hx.
    exists 1. split; [reflexivity|]. vm_compute. intros H. discriminate H.
  - vm_compute. reflexivity.
Defined.
